(** * UniTracker handbook scraper: a shallow embedding and its properties

    The scraper (scripts: the handbook crawl) fetches the search pages of a
    course handbook, parses them into subject stubs, removes duplicates by
    subject code, runs a pool of workers that fetch and parse each subject's
    pages, sorts the records and writes a snapshot with a content hash.

    Strings are sequences of code units; the model keeps one [ascii] per code
    unit and so covers the code units below 256.  Regular expressions of the
    source are all sequences of quantified character classes; they are run by
    a backtracking matcher with greedy quantifiers, as the JavaScript engine
    does. *)

From Stdlib Require Import String Ascii List ZArith Lia Bool Arith.
From Stdlib Require Import Permutation Sorted DecimalString.
From Stdlib Require DecimalNat DecimalFacts.
Import ListNotations.

Set Warnings "-register-all".

Open Scope list_scope.
Open Scope string_scope.
Open Scope nat_scope.

(** ** Code units and character classes *)

Module Chars.

Definition code (c : ascii) : nat := nat_of_ascii c.

Definition between (lo hi : nat) (c : ascii) : bool :=
  (lo <=? code c) && (code c <=? hi).

Definition is_code (n : nat) (c : ascii) : bool := code c =? n.

(** [\d] *)
Definition digit : ascii -> bool := between 48 57.

Definition upper : ascii -> bool := between 65 90.
Definition lower : ascii -> bool := between 97 122.

(** [[A-Z]] under the [i] flag: the ASCII letters of both cases. *)
Definition letter_i (c : ascii) : bool := upper c || lower c.

(** [\s]: the white space and line terminator code units below 256
    (TAB, LF, VT, FF, CR, SP, NBSP). *)
Definition space (c : ascii) : bool :=
  between 9 13 c || is_code 32 c || is_code 160 c.

(** [\n] *)
Definition newline : ascii -> bool := is_code 10.

(** [[A-Z0-9._%+-]] under the [i] flag. *)
Definition email_local (c : ascii) : bool :=
  letter_i c || digit c || is_code 46 c || is_code 95 c || is_code 37 c || is_code 43 c || is_code 45 c.

(** [[A-Z0-9.-]] under the [i] flag. *)
Definition email_domain (c : ascii) : bool :=
  letter_i c || digit c || is_code 46 c || is_code 45 c.

(** A literal character of a pattern. *)
Definition lit (x : ascii) (c : ascii) : bool := Ascii.eqb x c.

(** A literal letter under the [i] flag. *)
Definition lit_i (x : ascii) (c : ascii) : bool :=
  Ascii.eqb x c
  || (lower x && (code c =? code x - 32))
  || (upper x && (code c =? code x + 32)).

(** [toLowerCase] on one code unit: ASCII and Latin-1 capital letters. *)
Definition to_lower (c : ascii) : ascii :=
  if upper c || (between 192 222 c && negb (is_code 215 c))
  then ascii_of_nat (code c + 32) else c.

(** [toUpperCase] on one code unit whose capital is one code unit below
    256: the ASCII and Latin-1 small letters but 181, 223 and 255. *)
Definition to_upper (c : ascii) : ascii :=
  if lower c || (between 224 254 c && negb (is_code 247 c))
  then ascii_of_nat (code c - 32) else c.

(** The code units whose capital is made of code units below 256: all but
    the micro sign (181) and the y with diaeresis (255), whose capitals are
    the code units 924 and 376. *)
Definition capital_below_256 (c : ascii) : bool :=
  negb (is_code 181 c || is_code 255 c).

End Chars.

(** ** String operations of the JavaScript runtime *)

Fixpoint str_map (f : ascii -> ascii) (s : string) : string :=
  match s with
  | EmptyString => EmptyString
  | String c s' => String (f c) (str_map f s')
  end.

Definition toLowerCase : string -> string := str_map Chars.to_lower.

(** [s.toUpperCase()]: every code unit becomes its capital, and the sharp s
    (223) becomes the two code units [SS].  The capitals of 181 and 255 are
    not code units of the model, which keeps these two as they are: what is
    stated of capitals is stated of texts that hold neither
    ([Chars.capital_below_256]). *)
Fixpoint toUpperCase (s : string) : string :=
  match s with
  | EmptyString => EmptyString
  | String c s' =>
      if Chars.is_code 223 c then String "S" (String "S" (toUpperCase s'))
      else String (Chars.to_upper c) (toUpperCase s')
  end.

Fixpoint drop_while (p : ascii -> bool) (s : string) : string :=
  match s with
  | EmptyString => EmptyString
  | String c s' => if p c then drop_while p s' else s
  end.

Fixpoint str_rev_append (s acc : string) : string :=
  match s with
  | EmptyString => acc
  | String c s' => str_rev_append s' (String c acc)
  end.

Definition str_rev (s : string) : string := str_rev_append s EmptyString.

(** [String.prototype.trim] *)
Definition trim (s : string) : string :=
  str_rev (drop_while Chars.space (str_rev (drop_while Chars.space s))).

(** [a.includes(b)] *)
Fixpoint includes (s sub : string) : bool :=
  String.prefix sub s ||
  match s with
  | EmptyString => false
  | String _ s' => includes s' sub
  end.

(** [s.replace(sub, '')] with a string pattern: the first occurrence only. *)
Fixpoint remove_first (sub s : string) : string :=
  if String.prefix sub s then
    String.substring (String.length sub) (String.length s - String.length sub) s
  else
    match s with
    | EmptyString => EmptyString
    | String c s' => String c (remove_first sub s')
    end.

(** Truthiness of a string: the empty string is falsy. *)
Definition truthy (s : string) : bool :=
  match s with EmptyString => false | _ => true end.

Definition starts_with (p : ascii -> bool) (s : string) : bool :=
  match s with
  | String c _ => p c
  | EmptyString => false
  end.

(** Every code unit of the text is in the class. *)
Fixpoint str_all (p : ascii -> bool) (s : string) : bool :=
  match s with
  | EmptyString => true
  | String c s' => p c && str_all p s'
  end.

(** No two line feeds in a row: the text has no blank line. *)
Fixpoint no_blank_line (s : string) : bool :=
  match s with
  | EmptyString => true
  | String c s' =>
      negb (Chars.newline c && starts_with Chars.newline s') && no_blank_line s'
  end.

(** The text after its first [n] code units. *)
Fixpoint str_skip (n : nat) (s : string) : string :=
  match n, s with
  | 0, _ => s
  | S n', String _ s' => str_skip n' s'
  | S _, EmptyString => EmptyString
  end.

(** [String(n)] for a non-negative integer. *)
Definition string_of_nat (n : nat) : string :=
  NilZero.string_of_uint (Nat.to_uint n).

(** ** Regular expressions

    Every pattern of the source is a sequence of atoms, each a character
    class with a greedy quantifier [{lo,hi}] ([hi = None] is unbounded). *)

Module Regex.

Record atom := Atom {
  cls : ascii -> bool;
  lo : nat;
  hi : option nat
}.

Definition one (p : ascii -> bool) : atom := Atom p 1 (Some 1).
Definition plus (p : ascii -> bool) : atom := Atom p 1 None.
Definition star (p : ascii -> bool) : atom := Atom p 0 None.
Definition at_least (n : nat) (p : ascii -> bool) : atom := Atom p n None.

Definition regex := list atom.

(** The literal characters of [s], each exactly once. *)
Fixpoint lits (s : string) : regex :=
  match s with
  | EmptyString => []
  | String c s' => one (Chars.lit c) :: lits s'
  end.

Fixpoint lits_i (s : string) : regex :=
  match s with
  | EmptyString => []
  | String c s' => one (Chars.lit_i c) :: lits_i s'
  end.

Definition can_take (h : option nat) : bool :=
  match h with Some 0 => false | _ => true end.

Definition dec (h : option nat) : option nat :=
  match h with Some n => Some (pred n) | None => None end.

(** The result of a match at a position: the text each atom took, and the
    text left after the match. *)
Definition result := (list string * string)%type.

Definition cons_char (c : ascii) (r : result) : result :=
  match r with
  | (lex :: lexs, rest) => (String c lex :: lexs, rest)
  | ([], rest) => ([String c EmptyString], rest)
  end.

Definition open_lexeme (r : result) : result :=
  (EmptyString :: fst r, snd r).

(** One quantified class followed by the continuation [k]: take as many
    characters as allowed, and give back one at a time when [k] fails. *)
Fixpoint greedy (p : ascii -> bool) (k : string -> option result)
    (l : nat) (h : option nat) (s : string) : option result :=
  let stop := if l =? 0 then option_map open_lexeme (k s) else None in
  match s with
  | EmptyString => stop
  | String c s' =>
      if can_take h && p c then
        match greedy p k (pred l) (dec h) s' with
        | Some r => Some (cons_char c r)
        | None => stop
        end
      else stop
  end.

(** Match the whole pattern at the start of [s]. *)
Fixpoint match_here (re : regex) (s : string) : option result :=
  match re with
  | [] => Some ([], s)
  | a :: re' => greedy (cls a) (match_here re') (lo a) (hi a) s
  end.

Definition matched_length (s : string) (r : result) : nat :=
  String.length s - String.length (snd r).

Definition matched_text (s : string) (r : result) : string :=
  String.substring 0 (matched_length s r) s.

(** [re.test(s)]: a match at some position. *)
Fixpoint test (re : regex) (s : string) : bool :=
  match match_here re s with
  | Some _ => true
  | None =>
      match s with
      | EmptyString => false
      | String _ s' => test re s'
      end
  end.

(** [s.matchAll(re)] with the [g] flag: the matches from left to right, the
    search resuming where the previous match ended.  [skip] counts the
    characters of the current position that the previous match covers. *)
Fixpoint match_all_from (re : regex) (s : string) (skip : nat)
    : list (string * list string) :=
  match s with
  | EmptyString =>
      match skip, match_here re EmptyString with
      | 0, Some r => [(EmptyString, fst r)]
      | _, _ => []
      end
  | String c s' =>
      match skip with
      | S n => match_all_from re s' n
      | 0 =>
          match match_here re s with
          | Some r =>
              (matched_text s r, fst r)
                :: match_all_from re s' (pred (matched_length s r))
          | None => match_all_from re s' 0
          end
      end
  end.

Definition match_all (re : regex) (s : string) : list (string * list string) :=
  match_all_from re s 0.

(** [s.replace(re, rep)] with the [g] flag and a replacement without
    [$] patterns. *)
Fixpoint replace_from (re : regex) (rep : string) (s : string) (skip : nat)
    : string :=
  match s with
  | EmptyString =>
      match skip, match_here re EmptyString with
      | 0, Some _ => rep
      | _, _ => EmptyString
      end
  | String c s' =>
      match skip with
      | S n => replace_from re rep s' n
      | 0 =>
          match match_here re s with
          | Some r =>
              match matched_length s r with
              | 0 => rep ++ String c (replace_from re rep s' 0)
              | S n => rep ++ replace_from re rep s' n
              end
          | None => String c (replace_from re rep s' 0)
          end
      end
  end.

Definition replace_all (re : regex) (rep : string) (s : string) : string :=
  replace_from re rep s 0.

(** [s.split(re)] for a pattern that matches no empty text: the pieces
    between the matches.  [cur] is the piece being read, reversed. *)
Fixpoint split_from (re : regex) (s : string) (skip : nat) (cur : string)
    : list string :=
  match s with
  | EmptyString => [str_rev cur]
  | String c s' =>
      match skip with
      | S n => split_from re s' n cur
      | 0 =>
          match match_here re s with
          | Some r =>
              match matched_length s r with
              | 0 => split_from re s' 0 (String c cur)
              | S n => str_rev cur :: split_from re s' n EmptyString
              end
          | None => split_from re s' 0 (String c cur)
          end
      end
  end.

Definition split (re : regex) (s : string) : list string :=
  split_from re s 0 EmptyString.

End Regex.

Import Regex.

(** ** Text helpers of the scraper *)

Definition LF : string := String (ascii_of_nat 10) EmptyString.

(** [/\s+\n/g] *)
Definition re_space_newline : regex := [plus Chars.space; one Chars.newline].
(** [/\n\s+/g] *)
Definition re_newline_space : regex := [one Chars.newline; plus Chars.space].
(** [/\s{2,}/g] *)
Definition re_spaces : regex := [at_least 2 Chars.space].
(** [/\n{3,}/g] *)
Definition re_newlines3 : regex := [at_least 3 Chars.newline].

(** [cleanText] on a string value. *)
Definition cleanText (text : string) : string :=
  trim
    (replace_all re_newlines3 (LF ++ LF)
      (replace_all re_spaces " "
        (replace_all re_newline_space LF
          (replace_all re_space_newline LF text)))).

(** [cleanText] on a value that may be [undefined] or [null]. *)
Definition cleanText_opt (value : option string) : string :=
  match value with
  | Some s => cleanText s
  | None => cleanText EmptyString
  end.

(** A JavaScript [Set] of strings in insertion order. *)
Fixpoint set_mem (x : string) (l : list string) : bool :=
  match l with
  | [] => false
  | y :: l' => String.eqb x y || set_mem x l'
  end.

Definition set_add (l : list string) (x : string) : list string :=
  if set_mem x l then l else (l ++ [x])%list.

Definition set_of_list (l : list string) : list string :=
  fold_left set_add l [].

(** The first value kept under a key in a list of entries. *)
Fixpoint lookup {A : Type} (k : string) (l : list (string * A)) : option A :=
  match l with
  | [] => None
  | (k', v) :: l' => if String.eqb k k' then Some v else lookup k l'
  end.

(** [/[A-Z0-9._%+-]+@[A-Z0-9.-]+\.[A-Z]{2,}/gi] *)
Definition re_email : regex :=
  [plus Chars.email_local; one (Chars.lit "@"); plus Chars.email_domain;
   one (Chars.lit "."); at_least 2 Chars.letter_i].

Definition extractEmails (value : string) : list string :=
  if negb (truthy value) then []
  else set_of_list (map (fun m => trim (fst m)) (match_all re_email value)).

(** [/page=(\d+)/g] *)
Definition re_page : regex := (lits "page=" ++ [plus Chars.digit])%list.

(** The integer that a run of decimal digits writes. *)
Fixpoint number_of_digits (acc : Z) (s : string) : Z :=
  match s with
  | EmptyString => acc
  | String c s' =>
      number_of_digits (10 * acc + Z.of_nat (Chars.code c - 48))%Z s'
  end.

(** A number that is not negative and has no fraction, or [Infinity]: what
    [Number] gives on a run of digits. *)
Inductive number :=
  | Finite (n : Z)
  | Infinity.

(** The double nearest to an integer [n >= 0], ties to the even
    significand: [n] itself below [2^53]; above, [n] rounded to its 53
    leading bits; [Infinity] when that is [2^1024] or more. *)
Definition round_to_double (n : Z) : number :=
  if (n <? 2 ^ 53)%Z then Finite n
  else
    let e := (Z.log2 n - 52)%Z in
    let q := Z.shiftr n e in
    let r := (n - Z.shiftl q e)%Z in
    let half := Z.shiftl 1 (e - 1) in
    let q' :=
      if (half <? r)%Z || ((r =? half)%Z && Z.odd q) then (q + 1)%Z else q in
    let m := Z.shiftl q' e in
    if (m <? 2 ^ 1024)%Z then Finite m else Infinity.

(** [Number(s)] on a run of decimal digits. *)
Definition Number_digits (s : string) : number :=
  round_to_double (number_of_digits 0%Z s).

Definition number_leb (a b : number) : bool :=
  match a, b with
  | _, Infinity => true
  | Infinity, Finite _ => false
  | Finite x, Finite y => (x <=? y)%Z
  end.

Definition number_max (a b : number) : number :=
  if number_leb a b then b else a.

(** The numbers that [Number] gives on digits: none is negative. *)
Definition number_nonneg (t : number) : Prop :=
  match t with
  | Finite n => (0 <= n)%Z
  | Infinity => True
  end.

(** [Math.max(x, ...l)] *)
Definition Math_max (x : number) (l : list number) : number :=
  fold_left number_max l x.

(** The text of capture group 1 of [re_page]: the last atom's text. *)
Definition group1 (m : string * list string) : string :=
  last (snd m) EmptyString.

(** The page-number tokens of a page, as texts and as [Number] reads
    them. *)
Definition page_token_texts (html : string) : list string :=
  map group1 (match_all re_page html).

Definition page_tokens (html : string) : list number :=
  map Number_digits (page_token_texts html).

(** What a call of [parseMaxPage] gives: a number, or the [RangeError] of
    [Math.max(...pages)] when [pages] holds more elements than a call can
    take as arguments. *)
Inductive max_page :=
  | MaxPage (n : number)
  | RangeError.

(** [/semester\s*1/i] *)
Definition re_semester1 : regex :=
  (lits_i "semester" ++ [star Chars.space; one (Chars.lit "1")])%list.

(** [/\n\n+/] *)
Definition re_blank_lines : regex := [one Chars.newline; plus Chars.newline].

(** ** The fetcher

    One call of [fetchWithRetry] sends its requests one after the other; the
    network is what answers them.  [NetFail] stands for a rejected [fetch] or
    a body that cannot be read: both throw inside the [try] block. *)

Module Fetch.

Inductive response :=
  | NetFail
  | Resp (status : Z) (body : string).

Inductive error :=
  | NetworkError
  | HttpError (status : Z).

Inductive outcome :=
  | Returned (text : string)
  | Raised (e : error).

Inductive event :=
  | EvFetch (url : string)
  | EvSleep (ms : Z).

(** [response.ok] *)
Definition ok (status : Z) : bool := ((200 <=? status) && (status <=? 299))%Z.

(** The statuses on which the [try] block throws. *)
Definition retry_status (status : Z) : bool :=
  ((status >=? 500) || (status =? 429))%Z.

(** The body of the [try] block, given the answer to the request. *)
Definition try_block (r : response) : string + error :=
  match r with
  | NetFail => inr NetworkError
  | Resp status body =>
      if negb (ok status) then
        if retry_status status then inr (HttpError status) else inl body
      else inl body
  end.

Definition emit (evs : list event) (r : outcome * list event)
    : outcome * list event :=
  (fst r, (evs ++ snd r)%list).

Section Retry.

(** [respond k] answers the request number [k] of this call. *)
Variable respond : nat -> response.
Variable url : string.
Variable retries : Z.

(** The [while] loop; [sent] counts the requests made so far.  [n] bounds
    the iterations left; [fetchWithRetry] starts it with as many as the
    loop can make, so that at [n = 0] its condition is false. *)
Fixpoint retry_loop (n : nat) (attempt : Z) (sent : nat)
    : outcome * list event :=
  match n with
  | 0 => (Returned EmptyString, [])
  | S n' =>
      if (attempt <=? retries)%Z then
        match try_block (respond sent) with
        | inl text => (Returned text, [EvFetch url])
        | inr e =>
            let attempt' := (attempt + 1)%Z in
            if (attempt' >? retries)%Z then (Raised e, [EvFetch url])
            else
              emit [EvFetch url; EvSleep (500 * attempt')%Z]
                   (retry_loop n' attempt' (S sent))
        end
      else (Returned EmptyString, [])
  end.

End Retry.

Definition iterations (retries attempt : Z) : nat :=
  Z.to_nat (retries + 1 - attempt).

(** [fetchWithRetry(url, { retries })]: what the call returns or throws, and
    the requests and pauses it makes. *)
Definition fetchWithRetry (respond : nat -> response) (url : string)
    (retries : Z) : outcome * list event :=
  retry_loop respond url retries (iterations retries 0) 0%Z 0.

(** [fetchWithRetry(url)]: the default of 3 retries. *)
Definition fetchWithRetry_default (respond : nat -> response) (url : string)
    : outcome * list event :=
  fetchWithRetry respond url 3%Z.

Definition is_fetch (e : event) : bool :=
  match e with EvFetch _ => true | EvSleep _ => false end.

(** The number of requests in a trace. *)
Definition attempts (t : list event) : nat := List.length (filter is_fetch t).

(** The pauses of a trace, in order. *)
Definition delays (t : list event) : list Z :=
  flat_map (fun e => match e with EvSleep ms => [ms] | _ => [] end) t.

(** The answer to the last request of a trace, if there was one. *)
Definition last_response (respond : nat -> response) (t : list event)
    : option response :=
  match attempts t with
  | 0 => None
  | S k => Some (respond k)
  end.

(** A transport failure, or a status of 500 and above or exactly 429. *)
Definition retryable (r : response) : bool :=
  match r with
  | NetFail => true
  | Resp status _ => retry_status status
  end.

Definition raised (o : outcome) : bool :=
  match o with Raised _ => true | Returned _ => false end.

(** What a call does when every request fails in a retryable way: [k]
    requests, each followed by its pause, and a last request. *)
Fixpoint backoff (url : string) (k : nat) (attempt : Z) : list event :=
  match k with
  | 0 => [EvFetch url]
  | S k' =>
      EvFetch url :: EvSleep (500 * (attempt + 1))%Z
        :: backoff url k' (attempt + 1)%Z
  end.

End Fetch.

(** ** Documents

    A parsed page is a forest of nodes.  A selection is the list of the
    elements it holds, in document order. *)

Module Dom.

Inductive node :=
  | Text (s : string)
  | Elem (tag : string) (attrs : list (string * string)) (children : list node).

Definition document := list node.

Definition is_elem (n : node) : bool :=
  match n with Elem _ _ _ => true | Text _ => false end.

(** [$(n).is(tag)] *)
Definition is_tag (t : string) (n : node) : bool :=
  match n with Elem t' _ _ => String.eqb t t' | Text _ => false end.

Definition children (n : node) : list node :=
  match n with Elem _ _ ch => ch | Text _ => [] end.

Definition attr_of (name : string) (n : node) : option string :=
  match n with Elem _ a _ => lookup name a | Text _ => None end.

(** The white-space separated words of an attribute value; [cur] is the
    word being read, reversed. *)
Fixpoint words_from (s : string) (cur : string) : list string :=
  let close := if truthy cur then [str_rev cur] else [] in
  match s with
  | EmptyString => close
  | String c s' =>
      if Chars.space c then (close ++ words_from s' EmptyString)%list
      else words_from s' (String c cur)
  end.

(** [$(n).hasClass(c)], and the selector [.c] *)
Definition hasClass (c : string) (n : node) : bool :=
  match attr_of "class" n with
  | Some v => set_mem c (words_from v EmptyString)
  | None => false
  end.

Definition concat_strings (l : list string) : string :=
  fold_right String.append EmptyString l.

(** The text of a node: the text of its descendants, in order. *)
Fixpoint text_of (n : node) : string :=
  match n with
  | Text s => s
  | Elem _ _ ch =>
      (fix go (l : list node) : string :=
         match l with
         | [] => EmptyString
         | x :: r => text_of x ++ go r
         end) ch
  end.

(** [sel.text()]: the texts of the elements of a selection, joined. *)
Definition text (sel : list node) : string :=
  concat_strings (map text_of sel).

(** The elements of the tree of [n], [n] first, in document order. *)
Fixpoint subtree (n : node) : list node :=
  match n with
  | Text _ => []
  | Elem _ _ ch =>
      n :: (fix go (l : list node) : list node :=
              match l with
              | [] => []
              | x :: r => (subtree x ++ go r)%list
              end) ch
  end.

Definition forest (l : list node) : list node := flat_map subtree l.

Definition descendants (n : node) : list node := forest (children n).

(** [$(selector)] on a document, for a selector that tests one element. *)
Definition select (p : node -> bool) (doc : document) : list node :=
  filter p (forest doc).

(** [$(n).find(selector)] *)
Definition find (p : node -> bool) (n : node) : list node :=
  filter p (descendants n).

(** [$(n).find('anc p')]: the descendants of [n] that satisfy [p] and lie
    below a descendant of [n] that satisfies [anc]. *)
Fixpoint under (anc p : node -> bool) (inside : bool) (n : node) : list node :=
  match n with
  | Text _ => []
  | Elem _ _ ch =>
      (fix go (l : list node) : list node :=
         match l with
         | [] => []
         | x :: r =>
             ((if inside && p x then [x] else [])
                ++ under anc p (inside || anc x) x ++ go r)%list
         end) ch
  end.

Definition find_under (anc p : node -> bool) (n : node) : list node :=
  under anc p false n.

(** Every element of the tree of [n] with the elements that follow it among
    its siblings ([after] are the nodes that follow [n]). *)
Fixpoint located (n : node) (after : list node) : list (node * list node) :=
  match n with
  | Text _ => []
  | Elem _ _ ch =>
      (n, filter is_elem after)
        :: (fix go (l : list node) : list (node * list node) :=
              match l with
              | [] => []
              | x :: r => (located x r ++ go r)%list
              end) ch
  end.

Fixpoint located_forest (l : list node) : list (node * list node) :=
  match l with
  | [] => []
  | x :: r => (located x r ++ located_forest r)%list
  end.

(** [$(selector).filter(f).first()] followed by the chain of [.next()]:
    the elements after the first selected element, if there is one. *)
Definition next_siblings_of_first (p : node -> bool) (doc : document)
    : option (list node) :=
  match filter (fun x => p (fst x)) (located_forest doc) with
  | [] => None
  | (_, sibs) :: _ => Some sibs
  end.

End Dom.

Import Dom.

(** ** The parsers *)

Record SubjectStub := {
  stub_code : string;
  stub_name : string;
  stub_href : option string;
  stub_offered : string
}.

Record AssessmentTable := {
  columns : list string;
  rows : list (list (string * string))
}.

(** [a || b] on strings *)
Definition or_else (a b : string) : string := if truthy a then a else b.

Definition item_of (item : node) : list SubjectStub :=
  let code := cleanText (text (find (hasClass "search-result-item__code") item)) in
  if negb (truthy code) then []
  else
    let nameText :=
      cleanText (text (find (hasClass "search-result-item__name") item)) in
    let name := or_else (cleanText (remove_first code nameText)) nameText in
    let href :=
      match find (fun n => is_tag "a" n && hasClass "search-result-item__anchor" n)
                 item with
      | [] => None
      | a :: _ => attr_of "href" a
      end in
    let offered :=
      cleanText (text (find (hasClass "search-result-item__meta-primary") item)) in
    [ {| stub_code := toUpperCase code; stub_name := name;
         stub_href := href; stub_offered := offered |} ].

Definition parseSearchPage (doc : document) : list SubjectStub :=
  flat_map item_of (select (hasClass "search-result-item") doc).

Definition overview_of_child (element : node) : list string :=
  if hasClass "course__overview-box" element then []
  else
    let text := cleanText (text_of element) in
    if negb (truthy text) then []
    else filter truthy (map cleanText (Regex.split re_blank_lines text)).

Definition parseOverview (doc : document) : list string :=
  match select (hasClass "course__overview-wrapper") doc with
  | [] => []
  | wrapper :: _ => flat_map overview_of_child (filter is_elem (children wrapper))
  end.

Definition parseAvailability (doc : document) : string :=
  cleanText (text (select (hasClass "course__overview-box") doc)).

(** A heading whose text contains the label, whatever the case. *)
Definition mentions (label : string) (el : node) : bool :=
  includes (toLowerCase (text_of el)) (toLowerCase label).

(** ** Plain objects

    A plain object is kept as its own properties in the order in which
    [Object.keys] and [JSON.stringify] list them: the array indices in
    ascending order, then the other keys in the order of their first
    assignment. *)

(** A key that is an array index: the decimal form, without leading zeros,
    of an integer below [2^32 - 1]. *)
Definition is_array_index (k : string) : bool :=
  truthy k && str_all Chars.digit k
  && (String.eqb k "0" || negb (starts_with (Chars.is_code 48) k))
  && (number_of_digits 0 k <? 4294967295)%Z.

(** The place of a new array index among the properties: after the
    smaller indices and before everything else. *)
Fixpoint obj_add_index (o : list (string * string)) (k v : string)
    : list (string * string) :=
  match o with
  | [] => [(k, v)]
  | (k', v') :: o' =>
      if is_array_index k'
         && (number_of_digits 0 k' <? number_of_digits 0 k)%Z
      then (k', v') :: obj_add_index o' k v
      else (k, v) :: o
  end.

(** A new value for a property that the object has. *)
Fixpoint obj_update (o : list (string * string)) (k v : string)
    : list (string * string) :=
  match o with
  | [] => []
  | (k', v') :: o' =>
      if String.eqb k k' then (k, v) :: o' else (k', v') :: obj_update o' k v
  end.

(** [rowData[key] = value] for a string [value].  An assignment to
    [__proto__] runs the setter of [Object.prototype], which ignores a
    value that is not an object: the object gets no property. *)
Definition obj_set (o : list (string * string)) (k v : string)
    : list (string * string) :=
  if String.eqb k "__proto__" then o
  else
    match lookup k o with
    | Some _ => obj_update o k v
    | None =>
        if is_array_index k then obj_add_index o k v
        else (o ++ [(k, v)])%list
    end.

(** The keys that an object lists in the order of their assignment: not an
    array index, and not [__proto__]. *)
Definition plain_key (k : string) : bool :=
  negb (is_array_index k) && negb (String.eqb k "__proto__").

(** [headers[index] || `Column ${index + 1}`] *)
Definition column_key (headers : list string) (index : nat) : string :=
  or_else (nth index headers EmptyString)
          ("Column " ++ string_of_nat (index + 1)).

Fixpoint row_data (headers : list string) (cells : list node) (index : nat)
    (rowData : list (string * string)) : list (string * string) :=
  match cells with
  | [] => rowData
  | cell :: cells' =>
      row_data headers cells' (S index)
        (obj_set rowData (column_key headers index) (cleanText (text_of cell)))
  end.

Definition cell_texts (cells : list node) : list string :=
  map (fun c => cleanText (text_of c)) cells.

Definition table_headers (table : node) : list string :=
  match cell_texts (find_under (is_tag "thead") (is_tag "th") table) with
  | [] =>
      match find (is_tag "tr") table with
      | [] => []
      | tr :: _ => cell_texts (find (fun n => is_tag "th" n || is_tag "td" n) tr)
      end
  | headers => headers
  end.

Definition table_rows (headers : list string) (table : node)
    : list (list (string * string)) :=
  flat_map
    (fun row =>
       match find (is_tag "td") row with
       | [] => []
       | cells => [row_data headers cells 0 []]
       end)
    (find_under (is_tag "tbody") (is_tag "tr") table).

(** The body of the [if (node.is('table'))] block: the tables to push. *)
Definition table_of (table : node) : list AssessmentTable :=
  let headers := table_headers table in
  match table_rows headers table with
  | [] => []
  | rows => [ {| columns := headers; rows := rows |} ]
  end.

(** The [while (node.length)] loop of [parseAssessmentTables]. *)
Fixpoint tables_until_heading (nodes : list node) : list AssessmentTable :=
  match nodes with
  | [] => []
  | node :: rest =>
      if is_tag "h2" node || is_tag "h3" node || is_tag "h4" node then []
      else
        ((if is_tag "table" node then table_of node else [])
           ++ tables_until_heading rest)%list
  end.

Definition parseAssessmentTables (doc : document) (semesterLabel : string)
    : list AssessmentTable :=
  match next_siblings_of_first
          (fun el => (is_tag "h3" el || is_tag "h4" el) && mentions semesterLabel el)
          doc with
  | None => []
  | Some nodes => tables_until_heading nodes
  end.

(** The [while (node.length)] loop of [parseSemesterEmails]; [emails] is
    the set built so far. *)
Fixpoint emails_until_heading (nodes : list node) (emails : list string)
    : list string :=
  match nodes with
  | [] => emails
  | node :: rest =>
      if is_tag "h5" node || is_tag "h3" node || is_tag "h2" node then emails
      else
        emails_until_heading rest
          (fold_left set_add (extractEmails (text_of node)) emails)
  end.

Definition parseSemesterEmails (doc : document) (semesterLabel : string)
    : list string :=
  match next_siblings_of_first
          (fun el => is_tag "h5" el && mentions semesterLabel el) doc with
  | None => []
  | Some nodes => emails_until_heading nodes []
  end.

(** ** The crawl *)

Record SubjectRecord (num : Type) := {
  code : string;
  name : string;
  year : Z;
  studyPeriod : string;
  creditPoints : option num;
  overview : list string;
  assessment_tables : list AssessmentTable;
  instructorEmails : list string;
  availability : string;
  source_subjectUrl : string;
  source_assessmentUrl : string
}.

Arguments code {num} _.
Arguments name {num} _.
Arguments year {num} _.
Arguments studyPeriod {num} _.
Arguments creditPoints {num} _.
Arguments overview {num} _.
Arguments assessment_tables {num} _.
Arguments instructorEmails {num} _.
Arguments availability {num} _.
Arguments source_subjectUrl {num} _.
Arguments source_assessmentUrl {num} _.

(** What the scraper takes from its runtime and its libraries: numbers, the
    HTML parser, URLs, string collation, JSON and the hash. *)
Class Platform := {
  jsnum : Type;
  (** [Number(s)] *)
  Number : string -> jsnum;
  Number_isFinite : jsnum -> bool;
  (** [cheerio.load(html)] *)
  cheerio_load : string -> document;
  (** [new URL(href, baseUrl).toString()]; [None] when it throws *)
  URL_resolve : string -> option string;
  (** [u = new URL(s); u.searchParams.set('page', p); u.toString()];
      [None] when it throws *)
  URL_with_page : string -> string -> option string;
  (** [a.localeCompare(b)] *)
  localeCompare : string -> string -> Z;
  (** [JSON.stringify(results)] *)
  JSON_stringify : list (SubjectRecord jsnum) -> string;
  (** [crypto.createHash('sha256').update(s).digest('hex')] *)
  sha256_hex : string -> string;
  (** The number of arguments that the call [Math.max(...pages)] can take:
      with more, the engine raises [RangeError]. *)
  max_arguments : Z
}.

Definition parseMaxPage {P : Platform} (html : string) : max_page :=
  match page_tokens html with
  | [] => MaxPage (Finite 1)
  | page :: pages =>
      if (Z.of_nat (List.length (page :: pages)) <=? max_arguments)%Z
      then MaxPage (Math_max page pages)
      else RangeError
  end.

(** The command line and the environment, once read. *)
Record Config := {
  searchUrl : string;
  maxPagesArg : Z;
  concurrency : Z;
  delayMs : Z;
  onlySemester1 : bool
}.

(** The network during a crawl: [net url k] answers request number [k] of a
    [fetchWithRetry] call on [url]. *)
Definition network := string -> nat -> Fetch.response.

Record Stats := {
  totalFound : nat;
  totalSaved : nat;
  skipped : nat
}.

Record Snapshot (num : Type) := {
  generatedAt : string;
  version : string;
  source_searchUrl : string;
  stats : Stats;
  items : list (SubjectRecord num)
}.

Arguments generatedAt {num} _.
Arguments version {num} _.
Arguments source_searchUrl {num} _.
Arguments stats {num} _.
Arguments items {num} _.

(** How the work on one candidate ends. *)
Inductive worker_outcome (num : Type) :=
  | SkippedByHint
  | Abandoned
  | SkippedByAvailability
  | Saved (r : SubjectRecord num)
  | Threw.

Arguments SkippedByHint {num}.
Arguments Abandoned {num}.
Arguments SkippedByAvailability {num}.
Arguments Saved {num} r.
Arguments Threw {num}.

Inductive run_result (num : Type) :=
  | Failed
  | Done (s : Snapshot num).

Arguments Failed {num}.
Arguments Done {num} s.

(** [s.replace(/\/$/, '')] *)
Fixpoint strip_trailing_slash (s : string) : string :=
  match s with
  | EmptyString => EmptyString
  | String c s' =>
      match s' with
      | EmptyString => if Ascii.eqb c "/" then EmptyString else s
      | _ => String c (strip_trailing_slash s')
      end
  end.

(** The [Map] of the deduplication, as its entries in insertion order. *)
Fixpoint map_set (m : list (string * SubjectStub)) (k : string) (v : SubjectStub)
    : list (string * SubjectStub) :=
  match m with
  | [] => [(k, v)]
  | (k', v') :: m' =>
      if String.eqb k k' then (k, v) :: m' else (k', v') :: map_set m' k v
  end.

Definition add_unique (m : list (string * SubjectStub)) (item : SubjectStub)
    : list (string * SubjectStub) :=
  if truthy (stub_code item) then map_set m (stub_code item) item else m.

Definition uniqueItems (searchItems : list SubjectStub)
    : list (string * SubjectStub) :=
  fold_left add_unique searchItems [].

(** [[...uniqueItems.values()]] *)
Definition dedup (searchItems : list SubjectStub) : list SubjectStub :=
  map snd (uniqueItems searchItems).

Section Crawl.

Context {P : Platform}.
Variable cfg : Config.
Variable net : network.

(** [await fetchWithRetry(url)] *)
Definition fetch (url : string) : Fetch.outcome :=
  fst (Fetch.fetchWithRetry_default (net url) url).

(** The [for] loop over the search pages: the stubs of the pages read, or
    [None] when a page cannot be fetched.  [n] is the number of pages
    left up to [maxPage]. *)
Fixpoint paginate (searchConfig firstPageHtml : string) (n : nat) (page : Z)
    : option (list SubjectStub) :=
  match n with
  | 0 => Some []
  | S n' =>
      match URL_with_page searchConfig (string_of_nat (Z.to_nat page)) with
      | None => None
      | Some pageUrl =>
          let html :=
            if (page =? 1)%Z then Fetch.Returned firstPageHtml
            else fetch pageUrl in
          match html with
          | Fetch.Raised _ => None
          | Fetch.Returned html =>
              match parseSearchPage (cheerio_load html) with
              | [] => Some []
              | items =>
                  option_map (app items)
                    (paginate searchConfig firstPageHtml n' (page + 1)%Z)
              end
          end
      end
  end.

(** The search page number [page] as the loop reads it: parsed, or [None]
    when it cannot be fetched. *)
Definition search_page (searchConfig firstPageHtml : string) (page : Z)
    : option document :=
  match URL_with_page searchConfig (string_of_nat (Z.to_nat page)) with
  | None => None
  | Some pageUrl =>
      match (if (page =? 1)%Z then Fetch.Returned firstPageHtml
             else fetch pageUrl) with
      | Fetch.Returned html => Some (cheerio_load html)
      | Fetch.Raised _ => None
      end
  end.

(** The [k] search pages from [page] on, in page order. *)
Definition pages_from (searchConfig firstPageHtml : string) (k : nat) (page : Z)
    : list (option document) :=
  map (fun i => search_page searchConfig firstPageHtml (page + Z.of_nat i)%Z)
      (seq 0 k).

(** The number of search pages that the loop
    [for (page = 1; page <= maxPage; page += 1)] reads when no page stops
    it: [maxPage] of them below [2^53].  From [2^53] on the loop has no
    end of its own: the counter is a double, and [2^53 + 1] is [2^53]. *)
Definition page_limit (maxPage : number) : option nat :=
  match maxPage with
  | Finite n => if (n <? 2 ^ 53)%Z then Some (Z.to_nat n) else None
  | Infinity => None
  end.

(** One of the first [n] search pages ends the loop: it cannot be fetched,
    or it lists nothing. *)
Definition loop_ends (searchConfig firstPageHtml : string) (n : nat) : bool :=
  existsb (fun d => match d with
                    | None => true
                    | Some doc =>
                        match parseSearchPage doc with
                        | [] => true
                        | _ => false
                        end
                    end)
          (pages_from searchConfig firstPageHtml n 1%Z).

(** [searchItems] after the loop; [None] when the loop gives no list: a
    page cannot be fetched, or the loop has no end of its own and no page
    ends it. *)
Definition search_items (searchConfig firstPageHtml : string)
    (maxPage : number) : option (list SubjectStub) :=
  match page_limit maxPage with
  | Some n => paginate searchConfig firstPageHtml n 1%Z
  | None =>
      if loop_ends searchConfig firstPageHtml (Z.to_nat (2 ^ 53))
      then paginate searchConfig firstPageHtml (Z.to_nat (2 ^ 53)) 1%Z
      else None
  end.

(** The page of a candidate that has no link of its own. *)
Definition default_href (item : SubjectStub) : string :=
  "/2026/subjects/" ++ toLowerCase (stub_code item).

Definition href_or_default (item : SubjectStub) : string :=
  match stub_href item with
  | Some h => if truthy h then h else default_href item
  | None => default_href item
  end.

Definition points_meta (doc : document) : option string :=
  match select (fun n => is_tag "meta" n &&
                  match attr_of "name" n with
                  | Some v => String.eqb v "points"
                  | None => false
                  end) doc with
  | [] => None
  | m :: _ => attr_of "content" m
  end.

Definition finite_or_null (n : option jsnum) : option jsnum :=
  match n with
  | Some x => if Number_isFinite x then Some x else None
  | None => None
  end.

(** The tables and the emails of the assessment page. *)
Definition assessment_data (assessmentUrl : string)
    : list AssessmentTable * list string :=
  match fetch assessmentUrl with
  | Fetch.Returned assessmentHtml =>
      let doc := cheerio_load assessmentHtml in
      (parseAssessmentTables doc "Semester 1",
       parseSemesterEmails doc "Semester 1")
  | Fetch.Raised _ => ([], [])
  end.

(** The emails of the dates-and-times page, read when the assessment page
    gave none. *)
Definition emails_or_fallback (subjectUrl : string) (emails : list string)
    : list string :=
  match emails with
  | [] =>
      match fetch (strip_trailing_slash subjectUrl ++ "/dates-times") with
      | Fetch.Returned datesHtml =>
          parseSemesterEmails (cheerio_load datesHtml) "Semester 1"
      | Fetch.Raised _ => []
      end
  | _ => emails
  end.

(** The worker of the pool, on one candidate. *)
Definition worker (item : SubjectStub) : worker_outcome jsnum :=
  let sem1Hint := Regex.test re_semester1 (stub_offered item) in
  if onlySemester1 cfg && truthy (stub_offered item) && negb sem1Hint
  then SkippedByHint
  else
    match URL_resolve (href_or_default item) with
    | None => Threw
    | Some subjectUrl =>
        match fetch subjectUrl with
        | Fetch.Raised _ => Abandoned
        | Fetch.Returned subjectHtml =>
            let doc := cheerio_load subjectHtml in
            let availability := parseAvailability doc in
            let creditPoints :=
              match points_meta doc with
              | Some pointsMeta =>
                  if truthy pointsMeta then Some (Number pointsMeta) else None
              | None => None
              end in
            if onlySemester1 cfg && truthy availability
               && negb (Regex.test re_semester1 availability)
            then SkippedByAvailability
            else
              let overview := parseOverview doc in
              let assessmentUrl :=
                strip_trailing_slash subjectUrl ++ "/assessment" in
              let data := assessment_data assessmentUrl in
              Saved {|
                code := stub_code item;
                name := stub_name item;
                year := 2026%Z;
                studyPeriod := "Semester 1";
                creditPoints := finite_or_null creditPoints;
                overview := overview;
                assessment_tables := fst data;
                instructorEmails := emails_or_fallback subjectUrl (snd data);
                availability := availability;
                source_subjectUrl := subjectUrl;
                source_assessmentUrl := assessmentUrl
              |}
        end
    end.

(** [results.sort((a, b) => a.code.localeCompare(b.code))]: a stable sort
    by the comparison function. *)
Fixpoint insert_sorted (x : SubjectRecord jsnum) (l : list (SubjectRecord jsnum))
    : list (SubjectRecord jsnum) :=
  match l with
  | [] => [x]
  | y :: l' =>
      if (localeCompare (code x) (code y) <=? 0)%Z then x :: y :: l'
      else y :: insert_sorted x l'
  end.

Definition sort_by_code (l : list (SubjectRecord jsnum))
    : list (SubjectRecord jsnum) :=
  fold_right insert_sorted [] l.

(** The candidates: the stubs of the search pages without duplicates, or
    [None] when the crawl gets no list of them: [parseMaxPage] raises, or
    the loop over the search pages gives none. *)
Definition candidates : option (string * list SubjectStub) :=
  match URL_with_page (searchUrl cfg) "1" with
  | None => None
  | Some searchConfig =>
      match fetch searchConfig with
      | Fetch.Raised _ => None
      | Fetch.Returned firstPageHtml =>
          match (if (maxPagesArg cfg =? 0)%Z then parseMaxPage firstPageHtml
                 else MaxPage (Finite (maxPagesArg cfg))) with
          | RangeError => None
          | MaxPage maxPage =>
              match search_items searchConfig firstPageHtml maxPage with
              | None => None
              | Some searchItems => Some (searchConfig, dedup searchItems)
              end
          end
      end
  end.

Definition is_threw (o : worker_outcome jsnum) : bool :=
  match o with Threw => true | _ => false end.

Definition is_skipped (o : worker_outcome jsnum) : bool :=
  match o with
  | SkippedByHint | SkippedByAvailability => true
  | _ => false
  end.

Definition is_abandoned (o : worker_outcome jsnum) : bool :=
  match o with Abandoned => true | _ => false end.

Definition saved (o : worker_outcome jsnum) : list (SubjectRecord jsnum) :=
  match o with Saved r => [r] | _ => [] end.

(** [results] when the workers have finished: the records pushed, in the
    order in which the workers completed.  [completion] lists the
    positions of the candidates in that order. *)
Definition pushed (outcomes : list (worker_outcome jsnum))
    (completion : list nat) : list (SubjectRecord jsnum) :=
  flat_map (fun i => match nth_error outcomes i with
                     | Some o => saved o
                     | None => []
                     end) completion.

(** [run]: the snapshot written, or [Failed] when the crawl writes none: an
    error ends it, or the loop over the search pages does not end.
    [completion] is the order in which the workers completed and [now] the
    time stamp taken when the snapshot is assembled.  The limit of the pool
    and the pacing delays decide when a worker runs, not what it returns;
    they show only through [completion]. *)
Definition run (completion : list nat) (now : string) : run_result jsnum :=
  match candidates with
  | None => Failed
  | Some (searchConfig, itemsList) =>
      let outcomes := map worker itemsList in
      if existsb is_threw outcomes then Failed
      else
        let results := sort_by_code (pushed outcomes completion) in
        let version :=
          String.substring 0 12 (sha256_hex (JSON_stringify results)) in
        Done {|
          generatedAt := now;
          version := version;
          source_searchUrl := searchConfig;
          stats := {|
            totalFound := List.length itemsList;
            totalSaved := List.length results;
            skipped := List.length (filter is_skipped outcomes)
          |};
          items := results
        |}
  end.

(** The codes of the candidates, and how the work on each ends. *)
Definition candidate_codes : list string :=
  match candidates with
  | Some (_, itemsList) => map stub_code itemsList
  | None => []
  end.

Definition outcomes : list (worker_outcome jsnum) :=
  match candidates with
  | Some (_, itemsList) => map worker itemsList
  | None => []
  end.

(** On the given codes, [localeCompare] orders any two, tells different
    codes apart and is transitive. *)
Definition collation_sound (codes : list string) : bool :=
  let le a b := (localeCompare a b <=? 0)%Z in
  forallb (fun a =>
    forallb (fun b =>
      (le a b || le b a)
      && implb (le a b && le b a) (String.eqb a b)
      && forallb (fun c => implb (le a b && le b c) (le a c)) codes)
    codes) codes.

(** On the given codes, [localeCompare] orders any two and is transitive;
    it may take two different codes for equal. *)
Definition collation_preorder (codes : list string) : bool :=
  let le a b := (localeCompare a b <=? 0)%Z in
  forallb (fun a =>
    forallb (fun b =>
      (le a b || le b a)
      && forallb (fun c => implb (le a b && le b c) (le a c)) codes)
    codes) codes.

(** The order of the sort, and the lists whose codes are all among
    [codes]. *)
Definition le_code (x y : SubjectRecord jsnum) : Prop :=
  (localeCompare (code x) (code y) <= 0)%Z.

Definition coded (codes : list string) (l : list (SubjectRecord jsnum)) : Prop :=
  Forall (fun r => In (code r) codes) l.

End Crawl.

(** A run without what two runs may differ in: the time stamp is left
    out. *)
Definition observed {num : Type} (r : run_result num)
    : option (list (SubjectRecord num) * string * Stats) :=
  match r with
  | Done s => Some (items s, version s, stats s)
  | Failed => None
  end.

(** A completion order names each of the [n] candidates once. *)
Definition completion_order (n : nat) (completion : list nat) : bool :=
  (List.length completion =? n)
  && forallb (fun i => existsb (Nat.eqb i) completion) (seq 0 n).

(** The stubs with a code. *)
Definition has_code (c : string) (s : SubjectStub) : bool :=
  String.eqb (stub_code s) c.

(** Every entry of the map is kept under the code of its stub. *)
Definition keyed (m : list (string * SubjectStub)) : Prop :=
  Forall (fun e => fst e = stub_code (snd e)) m.

(** ** A small handbook for the examples

    The pages of a made-up handbook, kept with their parsed form, and a
    platform that serves them: the parser looks a page up, URLs are joined
    by concatenation, strings are compared by code unit. *)

Module Handbook.

Definition el (tag : string) (children : list node) : node :=
  Elem tag [] children.

Definition el_class (tag c : string) (children : list node) : node :=
  Elem tag [("class", c)] children.

Definition page (body : list node) : document :=
  [el "html" [el "head" []; el "body" body]].

Definition result_item (codeText nameText offered : string) (href : option string)
    : node :=
  el_class "div" "search-result-item"
    [ Elem "a"
        (("class", "search-result-item__anchor")
           :: match href with Some h => [("href", h)] | None => [] end)
        [ el_class "span" "search-result-item__code" [Text codeText];
          el_class "span" "search-result-item__name" [Text nameText] ];
      el_class "span" "search-result-item__meta-primary" [Text offered] ].

Definition search1_html : string := "<a href='/search?page=2'>2</a> results 1".
Definition search2_html : string := "<a href='/search?page=1'>1</a> results 2".

Definition search1 : document :=
  page [ result_item "MAST10006" "MAST10006 Calculus 2" "Semester 1"
           (Some "/2026/subjects/mast10006");
         result_item "COMP10001" "COMP10001 Foundations of Computing"
           "Semester 2" (Some "/2026/subjects/comp10001");
         result_item "mast20026" "mast20026 Real Analysis" "" None ].

Definition search2 : document :=
  page [ result_item "MAST10006" "MAST10006 Calculus 2 (revised)" "Semester 1"
           (Some "/2026/subjects/mast10006");
         result_item "PHYC10001" "PHYC10001 Physics 1" "Semester 1"
           (Some "/2026/subjects/phyc10001") ].

Definition subject (overviewText availabilityText points : string) : document :=
  [el "html"
     [ el "head" [Elem "meta" [("name", "points"); ("content", points)] []];
       el "body"
         [ el_class "div" "course__overview-wrapper"
             [ el_class "div" "course__overview-box" [Text availabilityText];
               el "p" [Text overviewText] ] ] ]].

Definition mast10006_html : string := "subject MAST10006".
Definition mast20026_html : string := "subject MAST20026".

Definition assessment_html : string := "assessment MAST10006".
Definition dates_html : string := "dates MAST20026".
Definition not_found_html : string := "not found".

Definition assessment : document :=
  page [ el "h3" [Text "Assessment: Semester 1"];
         el "table"
           [ el "thead"
               [el "tr" [ el "th" [Text "Assessment"]; el "th" [Text "Weight"];
                          el "th" [Text "Due"] ]];
             el "tbody"
               [el "tr" [ el "td" [Text "Essay"]; el "td" [Text "30%"];
                          el "td" [Text "Week 5"] ]] ];
         el "table" [el "tbody" [el "tr" [el "th" [Text "empty"]]]];
         el "h5" [Text "Semester 1"];
         el "p" [Text "Contact: Jane.Doe@Example.EDU.AU or jane.doe@example.edu.au"] ].

Definition dates : document :=
  page [ el "h5" [Text "Semester 1 contact"];
         el "p" [Text "a.b@unimelb.edu.au"] ].

(** A contacts page: the period's section, then a section of the same
    kind of heading as the tables' ([h4]) for the other period. *)
Definition contacts : document :=
  page [ el "h3" [Text "Contact information"];
         el "h5" [Text "Semester 1"];
         el "p" [Text "Coordinator: coordinator@unimelb.edu.au"];
         el "h4" [Text "Semester 2"];
         el "p" [Text "Tutor: tutor@unimelb.edu.au"];
         el "h5" [Text "Summer Term"];
         el "p" [Text "summer@unimelb.edu.au"] ].

Definition stored : list (string * document) :=
  [ (search1_html, search1); (search2_html, search2);
    (mast10006_html, subject "Calculus of one variable." "Semester 1" "12");
    (mast20026_html, subject "Rigorous analysis." "Semester 1, Semester 2" "12");
    (assessment_html, assessment); (dates_html, dates) ].

Definition load (html : string) : document :=
  match lookup html stored with
  | Some d => d
  | None => page []
  end.

Definition origin : string := "https://handbook.example".

(** The text before the query of a URL. *)
Fixpoint before_query (s : string) : string :=
  match s with
  | EmptyString => EmptyString
  | String c s' => if Ascii.eqb c "?" then EmptyString
                   else String c (before_query s')
  end.

Definition compare_code_units (a b : string) : Z :=
  match String.compare a b with
  | Lt => (-1)%Z
  | Eq => 0%Z
  | Gt => 1%Z
  end.

Definition digest_text : string :=
  "00000000000000000000000000000000000000000000000000000000000000".

(** A stand-in for the hash: 64 characters that depend on the text. *)
Definition digest (s : string) : string :=
  String.substring 0 64 (string_of_nat (String.length s) ++ "ab" ++ digest_text).

Definition codes_of (l : list (SubjectRecord Z)) : string :=
  concat_strings (map (fun r => code r ++ ";") l).

#[local] Instance platform : Platform := {|
  jsnum := Z;
  Number := number_of_digits 0%Z;
  Number_isFinite := fun _ => true;
  cheerio_load := load;
  URL_resolve := fun href => Some (origin ++ href);
  URL_with_page := fun s p => Some (before_query s ++ "?page=" ++ p);
  localeCompare := compare_code_units;
  JSON_stringify := codes_of;
  sha256_hex := digest;
  max_arguments := 100000
|}.

Definition always (r : Fetch.response) : nat -> Fetch.response := fun _ => r.

(** The site: every address answers the same at every request; the page of
    PHYC10001 is down, and MAST20026 has no assessment page. *)
Definition site : list (string * Fetch.response) :=
  [ (origin ++ "/search?page=1", Fetch.Resp 200 search1_html);
    (origin ++ "/search?page=2", Fetch.Resp 200 search2_html);
    (origin ++ "/2026/subjects/mast10006", Fetch.Resp 200 mast10006_html);
    (origin ++ "/2026/subjects/mast20026", Fetch.Resp 200 mast20026_html);
    (origin ++ "/2026/subjects/phyc10001", Fetch.Resp 503 "unavailable");
    (origin ++ "/2026/subjects/mast10006/assessment", Fetch.Resp 200 assessment_html);
    (origin ++ "/2026/subjects/mast20026/assessment", Fetch.Resp 404 not_found_html);
    (origin ++ "/2026/subjects/mast20026/dates-times", Fetch.Resp 200 dates_html) ].

Definition net : network :=
  fun url =>
    match lookup url site with
    | Some r => always r
    | None => always Fetch.NetFail
    end.

Definition cfg : Config := {|
  searchUrl := origin ++ "/search";
  maxPagesArg := 0;
  concurrency := 4;
  delayMs := 200;
  onlySemester1 := true
|}.

End Handbook.

(** ** Shapes of texts *)

(** No two code units in a row are both in the class. *)
Fixpoint no_adjacent (p : ascii -> bool) (s : string) : bool :=
  match s with
  | EmptyString => true
  | String c s' => negb (p c && starts_with p s') && no_adjacent p s'
  end.

Fixpoint ends_with (p : ascii -> bool) (s : string) : bool :=
  match s with
  | EmptyString => false
  | String c s' =>
      match s' with
      | EmptyString => p c
      | String _ _ => ends_with p s'
      end
  end.

(** The text without its white space. *)
Fixpoint strip (s : string) : string :=
  match s with
  | EmptyString => EmptyString
  | String c s' => if Chars.space c then strip s' else String c (strip s')
  end.

(** The first [n] code units of the text are in the class. *)
Fixpoint prefix_all (p : ascii -> bool) (n : nat) (s : string) : bool :=
  match n, s with
  | 0, _ => true
  | S n', String c s' => p c && prefix_all p n' s'
  | S _, EmptyString => false
  end.

(** Text as [cleanText] leaves it: no two white-space code units in a row
    and none at either end. *)
Definition clean (s : string) : bool :=
  no_adjacent Chars.space s
  && negb (starts_with Chars.space s)
  && negb (ends_with Chars.space s).

(** What the text taken by an atom satisfies: it is in the atom's class and
    its length is within the atom's bounds. *)
Definition lexeme_ok (a : atom) (lex : string) : Prop :=
  str_all (cls a) lex = true /\
  lo a <= String.length lex /\
  match hi a with
  | Some h => String.length lex <= h
  | None => True
  end.

(** The least length of a match. *)
Definition min_length (re : regex) : nat :=
  fold_right (fun a n => lo a + n) 0 re.

(** The classes of the pattern hold white space only. *)
Definition in_space (re : regex) : Prop :=
  Forall (fun a => forall c, cls a c = true -> Chars.space c = true) re.

(** The shape of an address: a local part, [@], a domain, a dot and a top
    level of two letters or more. *)
Definition email_shape (e : string) : Prop :=
  exists local domain tld,
    e = local ++ "@" ++ domain ++ "." ++ tld /\
    str_all Chars.email_local local = true /\ 1 <= String.length local /\
    str_all Chars.email_domain domain = true /\ 1 <= String.length domain /\
    str_all Chars.letter_i tld = true /\ 2 <= String.length tld.

(** [e] is a piece of [s]. *)
Definition piece_of (e s : string) : Prop :=
  exists before after, s = before ++ e ++ after.

(** The code of a result entry as the page has it, before it is put in
    capitals. *)
Definition code_text (item : node) : string :=
  cleanText (text (find (hasClass "search-result-item__code") item)).

(** What holds of every stub of a search page: a code that is not empty,
    in capitals and clean, and a clean name and offering text. *)
Definition stub_ok (s : SubjectStub) : Prop :=
  truthy (stub_code s) = true /\
  toUpperCase (stub_code s) = stub_code s /\
  clean (stub_code s) = true /\
  clean (stub_name s) = true /\
  clean (stub_offered s) = true.

(** The nodes before the first one that ends a walk. *)
Fixpoint before_first (stop : node -> bool) (nodes : list node) : list node :=
  match nodes with
  | [] => []
  | n :: rest => if stop n then [] else n :: before_first stop rest
  end.

(** The headings that end the walk over a section of tables, and over a
    section of addresses. *)
Definition ends_tables (n : node) : bool :=
  is_tag "h2" n || is_tag "h3" n || is_tag "h4" n.

Definition ends_emails (n : node) : bool :=
  is_tag "h5" n || is_tag "h3" n || is_tag "h2" n.

(** The keys of a row of [n] cells, by position. *)
Definition row_keys (headers : list string) (n : nat) : list string :=
  map (column_key headers) (seq 0 n).

(** What holds of every row: its keys are not empty, are not [__proto__]
    and are pairwise different, and its values are clean. *)
Definition row_ok (row : list (string * string)) : Prop :=
  NoDup (map fst row) /\
  Forall (fun kv => truthy (fst kv) = true /\ fst kv <> "__proto__" /\
                    clean (snd kv) = true) row.

Definition clean_true (s : string) : Prop := clean s = true.

(** The semester filter on a text: the crawl keeps all semesters, or the
    text is empty, or it mentions semester 1. *)
Definition passes (cfg : Config) (text : string) : bool :=
  negb (onlySemester1 cfg && truthy text && negb (Regex.test re_semester1 text)).

(** ** More of the example handbook *)

Module HandbookMore.

(** The example site with a third search page that lists nothing. *)
Definition net_empty_page3 : network :=
  fun url =>
    if String.eqb url (Handbook.origin ++ "/search?page=3")
    then Handbook.always (Fetch.Resp 200 "no results")
    else Handbook.net url.

(** A crawl asked to read ten search pages. *)
Definition cfg_ten_pages : Config := {|
  searchUrl := Handbook.origin ++ "/search";
  maxPagesArg := 10;
  concurrency := 4;
  delayMs := 200;
  onlySemester1 := true
|}.

(** A crawl of all semesters. *)
Definition cfg_all_semesters : Config := {|
  searchUrl := Handbook.origin ++ "/search";
  maxPagesArg := 0;
  concurrency := 4;
  delayMs := 200;
  onlySemester1 := false
|}.

End HandbookMore.

(** ** A handbook with two codes that the collation takes for equal

    The collation of the runtime gives no weight to the soft hyphen (code
    unit 173): [localeCompare] is 0 for two codes that differ by one only.
    The search page lists two such subjects. *)

Module Collation.

Definition soft_hyphen : ascii := ascii_of_nat 173.

Fixpoint without_soft_hyphens (s : string) : string :=
  match s with
  | EmptyString => EmptyString
  | String c s' =>
      if Ascii.eqb c soft_hyphen then without_soft_hyphens s'
      else String c (without_soft_hyphens s')
  end.

Definition compare_ignoring_soft_hyphens (a b : string) : Z :=
  Handbook.compare_code_units (without_soft_hyphens a) (without_soft_hyphens b).

Definition hyphenated : string := "MAST" ++ String soft_hyphen "10006".

Definition search_html : string := "results".

Definition search : document :=
  Handbook.page
    [ Handbook.result_item "MAST10006" "MAST10006 Calculus 2" "Semester 1"
        (Some "/2026/subjects/mast10006");
      Handbook.result_item hyphenated (hyphenated ++ " Calculus 2 (old)")
        "Semester 1" (Some "/2026/subjects/mast-10006") ].

Definition load (html : string) : document :=
  if String.eqb html search_html then search else Handbook.load html.

#[local] Instance platform : Platform := {|
  jsnum := Z;
  Number := number_of_digits 0%Z;
  Number_isFinite := fun _ => true;
  cheerio_load := load;
  URL_resolve := fun href => Some (Handbook.origin ++ href);
  URL_with_page :=
    fun s p => Some (Handbook.before_query s ++ "?page=" ++ p);
  localeCompare := compare_ignoring_soft_hyphens;
  JSON_stringify := Handbook.codes_of;
  sha256_hex := Handbook.digest;
  max_arguments := 100000
|}.

Definition net : network :=
  fun url =>
    if String.eqb url (Handbook.origin ++ "/search?page=1")
    then Handbook.always (Fetch.Resp 200 search_html)
    else if String.eqb url (Handbook.origin ++ "/2026/subjects/mast-10006")
    then Handbook.always (Fetch.Resp 200 Handbook.mast10006_html)
    else Handbook.net url.

End Collation.

(** The error that the answer to a request makes the call throw. *)
Definition error_of (r : Fetch.response) : option Fetch.error :=
  match Fetch.try_block r with
  | inr e => Some e
  | inl _ => None
  end.

(** ** The command line *)

(** A value of [argMap]: the argument that follows a flag, or [true]. *)
Inductive arg_value :=
  | ArgText (s : string)
  | ArgTrue.

(** [m.set(k, v)] on a [Map] kept as its entries in insertion order. *)
Fixpoint entries_set {A : Type} (m : list (string * A)) (k : string) (v : A)
    : list (string * A) :=
  match m with
  | [] => [(k, v)]
  | (k', v') :: m' =>
      if String.eqb k k' then (k, v) :: m' else (k', v') :: entries_set m' k v
  end.

(** [args[i + 1] && !args[i + 1].startsWith('--') ? args[i + 1] : true],
    where [rest] holds the arguments after [args[i]]. *)
Definition value_after (rest : list string) : arg_value :=
  match rest with
  | next :: _ =>
      if truthy next && negb (String.prefix "--" next) then ArgText next
      else ArgTrue
  | [] => ArgTrue
  end.

(** The loop over the arguments; [arg.replace(/^--/, '')] on an argument
    that starts with [--] drops these two code units. *)
Fixpoint parse_args (args : list string) (argMap : list (string * arg_value))
    : list (string * arg_value) :=
  match args with
  | [] => argMap
  | arg :: rest =>
      if negb (String.prefix "--" arg) then parse_args rest argMap
      else parse_args rest (entries_set argMap (str_skip 2 arg) (value_after rest))
  end.

Definition argMap_of (args : list string) : list (string * arg_value) :=
  parse_args args [].

(** [argMap.has(key)] *)
Definition has_key (key : string) (argMap : list (string * arg_value)) : bool :=
  match lookup key argMap with
  | Some _ => true
  | None => false
  end.

(** [onlySemester1 = !argMap.has('all-semesters')] *)
Definition onlySemester1_of (args : list string) : bool :=
  negb (has_key "all-semesters" (argMap_of args)).

(** The values that the loop can bind: [true], or a text that is not empty
    and does not start with [--]. *)
Definition value_ok (v : arg_value) : Prop :=
  match v with
  | ArgTrue => True
  | ArgText s => truthy s = true /\ String.prefix "--" s = false
  end.

(** ** The pool of workers

    [asyncPool] runs on one thread: between two points where it waits,
    its code is not interleaved with anything else.  Its run is a sequence
    of two kinds of steps: the loop takes the next item, starts its task
    and, when [executing.size >= limit], waits for [Promise.race]; or a task
    in [executing] settles and is deleted from the set, after which a
    waiting loop may go on.  Items and their tasks are named by their
    position in the list.  The limit is an integer.  A task that rejects is
    deleted from the set like one that fulfils
    ([promise.then(clean).catch(clean)]); the race then rejects and the
    loop ends where the relation lets it go on, so a run of the code is a
    run of this relation, cut short in that case. *)

Module Pool.

Record state := {
  next : nat;              (* the items taken so far *)
  executing : list nat;    (* the tasks in the set [executing] *)
  waiting : bool           (* the loop waits for [Promise.race(executing)] *)
}.

Definition start : state :=
  {| next := 0; executing := []; waiting := false |}.

(** One iteration of the [for] loop. *)
Definition take (limit : Z) (s : state) : state :=
  {| next := S (next s);
     executing := next s :: executing s;
     waiting := (Z.of_nat (List.length (next s :: executing s)) >=? limit)%Z |}.

(** The task [i] settles: [clean] deletes it, and the race is over. *)
Definition settle (i : nat) (s : state) : state :=
  {| next := next s;
     executing := List.remove Nat.eq_dec i (executing s);
     waiting := false |}.

Inductive step (limit : Z) (total : nat) : state -> state -> Prop :=
  | step_take (s : state) :
      waiting s = false -> next s < total -> step limit total s (take limit s)
  | step_settle (s : state) (i : nat) :
      In i (executing s) -> step limit total s (settle i s).

Inductive reachable (limit : Z) (total : nat) : state -> Prop :=
  | reach_start : reachable limit total start
  | reach_step (s s' : state) :
      reachable limit total s -> step limit total s s' ->
      reachable limit total s'.

(** All items are taken and all tasks have settled. *)
Definition finished (total : nat) (s : state) : Prop :=
  next s = total /\ executing s = [].

(** What holds along a run: the tasks in flight are different items
    already taken, within the limit, with room for one more whenever the
    loop is not waiting, and the loop waits only while a task is in
    flight. *)
Definition invariant (limit : Z) (total : nat) (s : state) : Prop :=
  NoDup (executing s) /\
  Forall (fun i => i < next s) (executing s) /\
  next s <= total /\
  (Z.of_nat (List.length (executing s)) <= Z.max limit 1)%Z /\
  (waiting s = false ->
   (Z.of_nat (List.length (executing s)) < Z.max limit 1)%Z) /\
  (waiting s = true -> executing s <> []).

End Pool.

(** * Properties *)

(** ** The fetcher *)

Module FetchFacts.

Import Fetch.

Lemma attempts_cons_fetch (u : string) (t : list event) :
  attempts (EvFetch u :: t) = S (attempts t).
Proof. reflexivity. Qed.

Lemma attempts_cons_sleep (ms : Z) (t : list event) :
  attempts (EvSleep ms :: t) = attempts t.
Proof. reflexivity. Qed.

Lemma attempts_backoff (u : string) (k : nat) (a : Z) :
  attempts (backoff u k a) = S k.
Proof.
  revert a; induction k as [|k IH]; intro a; simpl backoff.
  - reflexivity.
  - rewrite attempts_cons_fetch, attempts_cons_sleep, IH. reflexivity.
Qed.

Lemma delays_backoff (u : string) (k : nat) (a : Z) :
  delays (backoff u k a)
  = map (fun i => (500 * (a + Z.of_nat i))%Z) (seq 1 k).
Proof.
  revert a; induction k as [|k IH]; intro a.
  - reflexivity.
  - change (delays (backoff u (S k) a))
      with ((500 * (a + 1))%Z :: delays (backoff u k (a + 1))).
    rewrite IH. cbn [seq map]. f_equal.
    rewrite <- (seq_shift k 1), map_map.
    apply map_ext; intro i. f_equal. lia.
Qed.

(** The loop against answers that are all 503. *)
Lemma retry_loop_all_503 (respond : nat -> response) (u : string) (r : Z) :
  (forall k, exists body, respond k = Resp 503 body) ->
  forall (k : nat) (attempt : Z) (sent : nat),
    (0 <= attempt)%Z -> (attempt + Z.of_nat k = r)%Z ->
    retry_loop respond u r (S k) attempt sent
    = (Raised (HttpError 503), backoff u k attempt).
Proof.
  intros Hall k; induction k as [|k IH]; intros attempt sent Ha Hr.
  - cbn [retry_loop backoff].
    destruct (Hall sent) as [body ->]. cbn [try_block ok retry_status].
    replace (attempt <=? r)%Z with true by (symmetry; apply Z.leb_le; lia).
    simpl.
    replace (attempt + 1 >? r)%Z with true by (symmetry; apply Z.gtb_lt; lia).
    reflexivity.
  - cbn [backoff]. pose proof (IH (attempt + 1)%Z (S sent)) as IH'.
    remember (S k) as n eqn:En. cbn [retry_loop].
    destruct (Hall sent) as [body ->].
    replace (attempt <=? r)%Z with true by (symmetry; apply Z.leb_le; lia).
    cbn [try_block ok retry_status]. simpl negb. simpl orb. cbv iota.
    replace (attempt + 1 >? r)%Z with false
      by (symmetry; rewrite Z.gtb_ltb; apply Z.ltb_ge; lia).
    rewrite IH' by lia. reflexivity.
Qed.

Lemma try_block_error (resp : response) (e : error) :
  try_block resp = inr e -> retryable resp = true.
Proof.
  destruct resp as [|st body]; [reflexivity|]. cbn.
  destruct (negb (ok st)), (retry_status st); congruence.
Qed.

Lemma try_block_text (resp : response) (text : string) :
  try_block resp = inl text ->
  retryable resp = false /\ exists st, resp = Resp st text.
Proof.
  destruct resp as [|st body]; [discriminate|]. cbn.
  unfold retry_status, ok.
  destruct (200 <=? st)%Z eqn:E1, (st <=? 299)%Z eqn:E2,
           (st >=? 500)%Z eqn:E3, (st =? 429)%Z eqn:E4; cbn;
    intro H; inversion H; subst;
    try (split; [reflexivity|eexists; reflexivity]); exfalso; lia.
Qed.

(** A loop that may still iterate sends a request. *)
Lemma retry_loop_sends (respond : nat -> response) (u : string) (r : Z)
    (n : nat) (attempt : Z) (sent : nat) :
  (attempt <= r)%Z -> 0 < n ->
  0 < attempts (snd (retry_loop respond u r n attempt sent)).
Proof.
  intros Ha Hn. destruct n as [|n]; [lia|]. cbn [retry_loop].
  replace (attempt <=? r)%Z with true by (symmetry; apply Z.leb_le; lia).
  destruct (try_block (respond sent)); [cbn; lia|].
  destruct (attempt + 1 >? r)%Z; [cbn; lia|].
  unfold emit. cbn [fst snd app]. rewrite attempts_cons_fetch. lia.
Qed.

(** What the loop returns is decided by the answer to its last request, and
    every request before the last failed in a retryable way. *)
Lemma retry_loop_last (respond : nat -> response) (u : string) (r : Z) :
  forall (n : nat) (attempt : Z) (sent : nat),
    iterations r attempt <= n ->
    let res := retry_loop respond u r n attempt sent in
    match attempts (snd res) with
    | 0 => fst res = Returned EmptyString
    | S k =>
        (forall j, j < k -> retryable (respond (sent + j)) = true) /\
        fst res = match try_block (respond (sent + k)) with
                  | inl text => Returned text
                  | inr e => Raised e
                  end
    end.
Proof.
  induction n as [|n IH]; intros attempt sent Hn; cbn [retry_loop].
  - reflexivity.
  - destruct (attempt <=? r)%Z eqn:Ele; [|reflexivity].
    apply Z.leb_le in Ele.
    destruct (try_block (respond sent)) as [text|e] eqn:Et.
    + cbn. rewrite Nat.add_0_r, Et. split; [intros j Hj; lia|reflexivity].
    + destruct (attempt + 1 >? r)%Z eqn:Egt.
      * cbn. rewrite Nat.add_0_r, Et. split; [intros j Hj; lia|reflexivity].
      * rewrite Z.gtb_ltb in Egt. apply Z.ltb_ge in Egt.
        assert (Hn' : iterations r (attempt + 1) <= n)
          by (unfold iterations in *; lia).
        assert (Hpos : 0 < n) by (unfold iterations in *; lia).
        pose proof (retry_loop_sends respond u r n (attempt + 1) (S sent) Egt Hpos)
          as Hsend.
        specialize (IH (attempt + 1)%Z (S sent) Hn'). cbv zeta in IH.
        unfold emit. cbn [fst snd app].
        rewrite attempts_cons_fetch, attempts_cons_sleep.
        destruct (attempts (snd (retry_loop respond u r n (attempt + 1) (S sent))))
          as [|k] eqn:Ek; [lia|].
        destruct IH as [IHa IHb]. split.
        -- intros j Hj. destruct j as [|j].
           ++ rewrite Nat.add_0_r. exact (try_block_error _ _ Et).
           ++ replace (sent + S j) with (S sent + j) by lia.
              apply IHa. lia.
        -- replace (sent + S k) with (S sent + k) by lia. exact IHb.
Qed.

(** More iterations than the loop can make change nothing. *)
Lemma retry_loop_enough (respond : nat -> response) (u : string) (r : Z) :
  forall (n m : nat) (attempt : Z) (sent : nat),
    iterations r attempt <= n -> iterations r attempt <= m ->
    retry_loop respond u r n attempt sent = retry_loop respond u r m attempt sent.
Proof.
  induction n as [|n IH]; intros m attempt sent Hn Hm.
  - destruct m as [|m]; [reflexivity|]. cbn [retry_loop].
    replace (attempt <=? r)%Z with false; [reflexivity|].
    symmetry; apply Z.leb_gt. unfold iterations in Hn. lia.
  - destruct m as [|m]; cbn [retry_loop].
    + replace (attempt <=? r)%Z with false; [reflexivity|].
      symmetry; apply Z.leb_gt. unfold iterations in Hm. lia.
    + destruct (attempt <=? r)%Z eqn:Ele; [|reflexivity].
      apply Z.leb_le in Ele.
      destruct (try_block (respond sent)); [reflexivity|].
      destruct (attempt + 1 >? r)%Z; [reflexivity|].
      rewrite (IH m) by (unfold iterations in *; lia). reflexivity.
Qed.

(** C2.  Against an endpoint that answers 503 to every request, a call with
    [r >= 0] retries makes exactly [r + 1] requests and then throws the
    error of the last one; between the requests it pauses 500 ms times the
    number of the attempt.  With the default of 3 retries that is 4
    requests and pauses of 500, 1000 and 1500 ms. *)
Theorem fetchWithRetry_always_503 :
  forall (respond : nat -> response) (url : string) (r : Z),
    (0 <= r)%Z ->
    (forall k, exists body, respond k = Resp 503 body) ->
    (fst (fetchWithRetry respond url r) = Raised (HttpError 503) /\
     Z.of_nat (attempts (snd (fetchWithRetry respond url r))) = (r + 1)%Z /\
     snd (fetchWithRetry respond url r) = backoff url (Z.to_nat r) 0 /\
     delays (snd (fetchWithRetry respond url r))
     = map (fun attempt => (500 * Z.of_nat attempt)%Z) (seq 1 (Z.to_nat r))) /\
    (fst (fetchWithRetry_default respond url) = Raised (HttpError 503) /\
     attempts (snd (fetchWithRetry_default respond url)) = 4 /\
     delays (snd (fetchWithRetry_default respond url)) = [500; 1000; 1500]%Z).
Proof.
  intros respond url r Hr Hall.
  assert (Hgen : forall q, (0 <= q)%Z ->
            fetchWithRetry respond url q
            = (Raised (HttpError 503), backoff url (Z.to_nat q) 0)).
  { intros q Hq. unfold fetchWithRetry, iterations.
    replace (Z.to_nat (q + 1 - 0)) with (S (Z.to_nat q)) by lia.
    apply retry_loop_all_503; [exact Hall|lia|lia]. }
  split.
  - rewrite (Hgen r Hr). cbn [fst snd].
    rewrite attempts_backoff, delays_backoff.
    split; [reflexivity|]. split; [lia|]. split; [reflexivity|].
    apply map_ext; intro i. reflexivity.
  - unfold fetchWithRetry_default. rewrite (Hgen 3%Z) by lia.
    cbn [fst snd]. split; [reflexivity|]. split; reflexivity.
Qed.

(** The witness of C2: a server that is down, and two retries. *)
Lemma fetchWithRetry_always_503_witness :
  fst (fetchWithRetry (fun _ => Resp 503 "down") "https://h/x" 2)
  = Raised (HttpError 503) /\
  Z.of_nat (attempts (snd (fetchWithRetry (fun _ => Resp 503 "down") "https://h/x" 2)))
  = 3%Z.
Proof.
  pose proof (proj1 (fetchWithRetry_always_503
                       (fun _ => Resp 503 "down") "https://h/x" 2
                       ltac:(lia)
                       (fun _ => ex_intro _ "down" eq_refl))) as H.
  exact (conj (proj1 H) (proj1 (proj2 H))).
Defined.

(** C3.  A call throws exactly when the answer to its last request was a
    transport failure or had a status of 500 and above or exactly 429.  A
    request answered with any other status, 2xx or not, ends the call: it
    returns the body and sends nothing more. *)
Theorem fetchWithRetry_raises_iff_retryable :
  forall (respond : nat -> response) (url : string) (r : Z),
    (raised (fst (fetchWithRetry respond url r)) = true <->
     exists resp,
       last_response respond (snd (fetchWithRetry respond url r)) = Some resp /\
       retryable resp = true) /\
    (forall (k : nat) (status : Z) (body : string),
       (Z.of_nat k <= r)%Z ->
       (forall j, j < k -> retryable (respond j) = true) ->
       respond k = Resp status body ->
       retry_status status = false ->
       fst (fetchWithRetry respond url r) = Returned body /\
       attempts (snd (fetchWithRetry respond url r)) = S k).
Proof.
  intros respond url r.
  pose proof (retry_loop_last respond url r (iterations r 0) 0%Z 0 (le_n _)) as HL.
  cbv zeta in HL. fold (fetchWithRetry respond url r) in HL.
  split.
  - unfold last_response.
    destruct (attempts (snd (fetchWithRetry respond url r))) as [|k].
    + rewrite HL. cbn. split; [discriminate|].
      intros [resp [H _]]; discriminate.
    + destruct HL as [_ HL]. rewrite HL. cbn [Nat.add].
      destruct (try_block (respond k)) as [text|e] eqn:Et.
      * apply try_block_text in Et. destruct Et as [Et _].
        cbn. split; [discriminate|].
        intros [resp [H1 H2]]. inversion H1; subst. congruence.
      * apply try_block_error in Et. cbn. split; [|reflexivity].
        intros _. exists (respond k). split; [reflexivity|exact Et].
  - intros k status body Hk Hbefore Hresp Hstatus.
    assert (Hloop : forall (j : nat) (n : nat),
              j <= k -> iterations r (Z.of_nat j) <= n ->
              fst (retry_loop respond url r n (Z.of_nat j) j) = Returned body /\
              attempts (snd (retry_loop respond url r n (Z.of_nat j) j))
              = S (k - j)).
    { intros j n Hj. remember (k - j) as d eqn:Ed.
      revert j n Hj Ed. induction d as [|d IHd]; intros j n Hj Ed Hn.
      - assert (j = k) by lia. subst j.
        destruct n as [|n]; [unfold iterations in Hn; lia|].
        cbn [retry_loop].
        replace (Z.of_nat k <=? r)%Z with true by (symmetry; apply Z.leb_le; lia).
        rewrite Hresp. cbn [try_block]. rewrite Hstatus.
        destruct (negb (ok status)); cbn; split; reflexivity.
      - destruct n as [|n]; [unfold iterations in Hn; lia|].
        cbn [retry_loop].
        replace (Z.of_nat j <=? r)%Z with true by (symmetry; apply Z.leb_le; lia).
        assert (Hj' : j < k) by lia.
        pose proof (Hbefore j Hj') as Hre.
        destruct (try_block (respond j)) as [text|e] eqn:Et.
        + apply try_block_text in Et. destruct Et as [Et _]. congruence.
        + replace (Z.of_nat j + 1 >? r)%Z with false
            by (symmetry; rewrite Z.gtb_ltb; apply Z.ltb_ge; lia).
          unfold emit. cbn [fst snd app].
          rewrite attempts_cons_fetch, attempts_cons_sleep.
          replace (Z.of_nat j + 1)%Z with (Z.of_nat (S j)) by lia.
          destruct (IHd (S j) n) as [H1 H2]; [lia|lia|unfold iterations in *; lia|].
          split; [exact H1|rewrite H2; reflexivity]. }
    destruct (Hloop 0 (iterations r 0) (Nat.le_0_l _) (le_n _)) as [H1 H2].
    cbn [Z.of_nat] in H1, H2. unfold fetchWithRetry.
    split; [exact H1|].
    rewrite H2. f_equal. lia.
Qed.

(** The witness of C3: a page that is not there, asked for once. *)
Lemma fetchWithRetry_raises_iff_retryable_witness :
  fst (fetchWithRetry (fun _ => Resp 404 "not found") "https://h/x" 3)
  = Returned "not found" /\
  attempts (snd (fetchWithRetry (fun _ => Resp 404 "not found") "https://h/x" 3)) = 1.
Proof.
  apply (proj2 (fetchWithRetry_raises_iff_retryable
                  (fun _ => Resp 404 "not found") "https://h/x" 3)
               0 404%Z "not found").
  - lia.
  - intros j Hj. lia.
  - reflexivity.
  - reflexivity.
Defined.

End FetchFacts.

(** ** Text and documents *)

Module ParseFacts.

Lemma set_mem_In (x : string) (l : list string) :
  set_mem x l = true <-> In x l.
Proof.
  induction l as [|y l IH]; cbn.
  - split; [discriminate|tauto].
  - rewrite Bool.orb_true_iff, IH, String.eqb_eq. intuition congruence.
Qed.

Lemma set_add_NoDup (l : list string) (x : string) :
  NoDup l -> NoDup (set_add l x).
Proof.
  intro Hl. unfold set_add. destruct (set_mem x l) eqn:Hm; [exact Hl|].
  assert (Hx : ~ In x l).
  { intro Hin. apply set_mem_In in Hin. congruence. }
  clear Hm. induction Hl as [|y l Hy Hl IH]; cbn.
  - constructor; [tauto|constructor].
  - constructor.
    + rewrite in_app_iff. cbn. intros [H|[H|[]]]; [tauto|].
      subst. apply Hx. now left.
    + apply IH. intro H. apply Hx. now right.
Qed.

Lemma fold_set_add_NoDup (xs l : list string) :
  NoDup l -> NoDup (fold_left set_add xs l).
Proof.
  revert l; induction xs as [|x xs IH]; intros l Hl; cbn.
  - exact Hl.
  - apply IH, set_add_NoDup, Hl.
Qed.

Lemma set_of_list_NoDup (xs : list string) : NoDup (set_of_list xs).
Proof. apply fold_set_add_NoDup. constructor. Qed.

Lemma extractEmails_NoDup (value : string) : NoDup (extractEmails value).
Proof.
  unfold extractEmails. destruct (negb (truthy value)).
  - constructor.
  - apply set_of_list_NoDup.
Qed.

Lemma emails_until_heading_NoDup (nodes : list node) (emails : list string) :
  NoDup emails -> NoDup (emails_until_heading nodes emails).
Proof.
  revert emails; induction nodes as [|n nodes IH]; intros emails He; cbn.
  - exact He.
  - destruct (is_tag "h5" n || is_tag "h3" n || is_tag "h2" n); [exact He|].
    apply IH, fold_set_add_NoDup, He.
Qed.

(** The emails of a section are pairwise different strings. *)
Lemma parseSemesterEmails_NoDup (doc : document) (label : string) :
  NoDup (parseSemesterEmails doc label).
Proof.
  unfold parseSemesterEmails.
  destruct (next_siblings_of_first _ doc).
  - apply emails_until_heading_NoDup. constructor.
  - constructor.
Qed.

Lemma table_of_rows (table : node) :
  Forall (fun t => 1 <= List.length (rows t)) (table_of table).
Proof.
  unfold table_of. destruct (table_rows (table_headers table) table) eqn:E.
  - constructor.
  - constructor; [cbn; lia|constructor].
Qed.

Lemma tables_until_heading_rows (nodes : list node) :
  Forall (fun t => 1 <= List.length (rows t)) (tables_until_heading nodes).
Proof.
  induction nodes as [|n nodes IH]; cbn.
  - constructor.
  - destruct (is_tag "h2" n || is_tag "h3" n || is_tag "h4" n); [constructor|].
    apply Forall_app. split; [|exact IH].
    destruct (is_tag "table" n); [apply table_of_rows|constructor].
Qed.

(** Every table of a section has a row. *)
Lemma parseAssessmentTables_rows (doc : document) (label : string) :
  Forall (fun t => 1 <= List.length (rows t)) (parseAssessmentTables doc label).
Proof.
  unfold parseAssessmentTables.
  destruct (next_siblings_of_first _ doc).
  - apply tables_until_heading_rows.
  - constructor.
Qed.

(** A table whose body rows hold no cell is not pushed. *)
Lemma table_of_no_cells (table : node) :
  Forall (fun row => find (is_tag "td") row = [])
         (find_under (is_tag "tbody") (is_tag "tr") table) ->
  table_of table = [].
Proof.
  intro H. unfold table_of, table_rows.
  induction H as [|row l Hrow Hl IH]; cbn.
  - reflexivity.
  - rewrite Hrow. cbn. exact IH.
Qed.

Lemma number_of_digits_nonneg (s : string) (acc : Z) :
  (0 <= acc)%Z -> (0 <= number_of_digits acc s)%Z.
Proof.
  revert acc; induction s as [|c s IH]; intros acc Ha; cbn [number_of_digits].
  - exact Ha.
  - apply IH. pose proof (Nat2Z.is_nonneg (Chars.code c - 48)). lia.
Qed.

(** Above [2^53] the leading bits of [n] are not zero. *)
Lemma leading_bits_pos (n : Z) :
  (2 ^ 53 <= n)%Z -> (0 < Z.shiftr n (Z.log2 n - 52))%Z.
Proof.
  intro Hn.
  assert (Hpos : (0 < n)%Z) by (pose proof (Z.pow_pos_nonneg 2 53); lia).
  destruct (Z.log2_spec n Hpos) as [Hlo _].
  assert (Hlog : (53 <= Z.log2 n)%Z).
  { apply Z.log2_le_pow2; [exact Hpos|exact Hn]. }
  rewrite Z.shiftr_div_pow2 by lia.
  apply Z.div_str_pos. split; [apply Z.pow_pos_nonneg; lia|].
  apply Z.le_trans with (2 ^ Z.log2 n)%Z; [|exact Hlo].
  apply Z.pow_le_mono_r; lia.
Qed.

Lemma round_to_double_nonneg (n : Z) :
  (0 <= n)%Z -> number_nonneg (round_to_double n).
Proof.
  intro Hn. unfold round_to_double.
  destruct (n <? 2 ^ 53)%Z eqn:E; [exact Hn|].
  apply Z.ltb_ge in E. pose proof (leading_bits_pos n E) as Hq.
  cbv zeta. destruct (Z.shiftl _ _ <? 2 ^ 1024)%Z; [|exact I].
  cbn [number_nonneg]. apply Z.shiftl_nonneg.
  destruct (_ || _); lia.
Qed.

Lemma round_to_double_zero (n : Z) :
  (0 <= n)%Z -> round_to_double n = Finite 0 -> n = 0%Z.
Proof.
  intros Hn. unfold round_to_double.
  destruct (n <? 2 ^ 53)%Z eqn:E; [intro H; inversion H; reflexivity|].
  apply Z.ltb_ge in E. pose proof (leading_bits_pos n E) as Hq.
  assert (Hlog : (53 <= Z.log2 n)%Z).
  { apply Z.log2_le_pow2; [pose proof (Z.pow_pos_nonneg 2 53); lia|exact E]. }
  cbv zeta. destruct (Z.shiftl _ _ <? 2 ^ 1024)%Z; [|discriminate].
  intro H. inversion H as [H0]. exfalso.
  rewrite Z.shiftl_mul_pow2 in H0 by lia.
  assert (Hp : (0 < 2 ^ (Z.log2 n - 52))%Z) by (apply Z.pow_pos_nonneg; lia).
  destruct (_ || _); nia.
Qed.

Lemma page_tokens_nonneg (html : string) :
  Forall number_nonneg (page_tokens html).
Proof.
  unfold page_tokens. apply Forall_forall. intros t Ht.
  apply in_map_iff in Ht. destruct Ht as [m [<- _]].
  apply round_to_double_nonneg, number_of_digits_nonneg. lia.
Qed.

Lemma number_leb_refl (a : number) : number_leb a a = true.
Proof. destruct a; cbn; [apply Z.leb_refl|reflexivity]. Qed.

Lemma number_leb_trans (a b c : number) :
  number_leb a b = true -> number_leb b c = true -> number_leb a c = true.
Proof.
  destruct a, b, c; cbn; try congruence; try reflexivity.
  rewrite !Z.leb_le. lia.
Qed.

Lemma number_max_spec (a b : number) :
  (number_max a b = a \/ number_max a b = b) /\
  number_leb a (number_max a b) = true /\
  number_leb b (number_max a b) = true.
Proof.
  unfold number_max. destruct (number_leb a b) eqn:E.
  - split; [now right|]. split; [exact E|apply number_leb_refl].
  - split; [now left|]. split; [apply number_leb_refl|].
    destruct a, b; cbn in *; try congruence; try reflexivity.
    rewrite Z.leb_le. apply Z.leb_gt in E. lia.
Qed.

Lemma Math_max_spec (l : list number) (x : number) :
  In (Math_max x l) (x :: l) /\
  Forall (fun t => number_leb t (Math_max x l) = true) (x :: l).
Proof.
  unfold Math_max.
  revert x; induction l as [|y l IH]; intro x; cbn [fold_left].
  - split; [now left|constructor; [apply number_leb_refl|constructor]].
  - destruct (IH (number_max x y)) as [Hin Hall].
    destruct (number_max_spec x y) as [Hor [Hx Hy]]. split.
    + destruct Hin as [Hin|Hin].
      * rewrite <- Hin. destruct Hor as [-> | ->];
          [now left|right; now left].
      * right; now right.
    + inversion Hall as [|m l' Hm Hl]; subst.
      constructor; [exact (number_leb_trans _ _ _ Hx Hm)|].
      constructor; [exact (number_leb_trans _ _ _ Hy Hm)|exact Hl].
Qed.

Lemma number_leb_zero (t : number) :
  number_nonneg t -> number_leb t (Finite 0) = true -> t = Finite 0.
Proof.
  destruct t as [n|]; cbn; [|discriminate].
  rewrite Z.leb_le. intros H1 H2. f_equal. lia.
Qed.

(** C5, as the code has it.  [parseMaxPage] returns 1 when the page holds no
    page-number token.  When it holds tokens, and no more of them than a
    call can take as arguments, it returns the largest of them as [Number]
    reads them, which is one of them; with more tokens it raises
    [RangeError].  A number returned is never negative, and it is 0 exactly
    when there are tokens and all of them are 0.  [Number] reads a token
    below [2^53] exactly. *)
Theorem parseMaxPage_is_max :
  forall (P : Platform) (html : string),
    match page_tokens html with
    | [] => parseMaxPage html = MaxPage (Finite 1)
    | _ :: _ =>
        if (Z.of_nat (List.length (page_tokens html)) <=? max_arguments)%Z
        then exists m,
               parseMaxPage html = MaxPage m /\
               In m (page_tokens html) /\
               Forall (fun t => number_leb t m = true) (page_tokens html)
        else parseMaxPage html = RangeError
    end /\
    (forall n, parseMaxPage html = MaxPage (Finite n) -> (0 <= n)%Z) /\
    (parseMaxPage html = MaxPage (Finite 0) <->
     page_tokens html <> [] /\
     (Z.of_nat (List.length (page_tokens html)) <= max_arguments)%Z /\
     Forall (fun t => t = Finite 0) (page_tokens html)) /\
    Forall (fun s => (number_of_digits 0 s < 2 ^ 53)%Z ->
                     Number_digits s = Finite (number_of_digits 0 s))
           (page_token_texts html).
Proof.
  intros P html. pose proof (page_tokens_nonneg html) as Hnn.
  assert (Hexact : Forall (fun s => (number_of_digits 0 s < 2 ^ 53)%Z ->
                                    Number_digits s = Finite (number_of_digits 0 s))
                          (page_token_texts html)).
  { apply Forall_forall. intros s _ Hs. unfold Number_digits, round_to_double.
    apply Z.ltb_lt in Hs. rewrite Hs. reflexivity. }
  unfold parseMaxPage. destruct (page_tokens html) as [|x l] eqn:E.
  - split; [reflexivity|]. split; [intros n H; inversion H; lia|].
    split; [|exact Hexact]. split; [discriminate|]. intros [H _]. congruence.
  - destruct (Math_max_spec l x) as [Hin Hall].
    destruct (Z.of_nat (List.length (x :: l)) <=? max_arguments)%Z eqn:El.
    + split; [exists (Math_max x l); repeat split; assumption|].
      split.
      { intros n H. injection H as Hm.
        rewrite Forall_forall in Hnn. specialize (Hnn _ Hin).
        rewrite Hm in Hnn. exact Hnn. }
      split; [|exact Hexact]. split.
      * intro H. injection H as Hm. split; [discriminate|].
        split; [apply Z.leb_le, El|].
        rewrite Hm in Hall. apply Forall_forall. intros t Ht.
        apply number_leb_zero.
        -- exact (proj1 (Forall_forall _ _) Hnn t Ht).
        -- exact (proj1 (Forall_forall _ _) Hall t Ht).
      * intros [_ [_ Hz]]. f_equal.
        exact (proj1 (Forall_forall _ _) Hz _ Hin).
    + split; [reflexivity|]. split; [discriminate|].
      split; [|exact Hexact]. split; [discriminate|].
      intros [_ [Hle _]]. apply Z.leb_gt in El. lia.
Qed.

(** The witness of C5: the first search page of the example handbook has
    the one token 2, which is read exactly. *)
Lemma parseMaxPage_is_max_witness :
  Number_digits "2" = Finite (number_of_digits 0 "2").
Proof.
  refine (Forall_inv (a := "2") (l := [])
            (proj2 (proj2 (proj2
               (parseMaxPage_is_max Handbook.platform Handbook.search1_html))))
            _).
  vm_compute. reflexivity.
Defined.

(** [Number] on long tokens: a tie goes to the even significand, and from
    [2^1024 - 2^970] on the number is [Infinity]. *)
Example Number_digits_rounds :
  Number_digits "9007199254740993" = Finite 9007199254740992 /\
  Number_digits "9007199254740995" = Finite 9007199254740996 /\
  Number_digits "0009007199254740991" = Finite 9007199254740991 /\
  round_to_double (2 ^ 1024 - 2 ^ 970 - 1) = Finite (2 ^ 1024 - 2 ^ 971) /\
  round_to_double (2 ^ 1024 - 2 ^ 970) = Infinity /\
  round_to_double (10 ^ 309) = Infinity.
Proof. vm_compute. repeat split. Qed.

(** C5 as stated fails: a page whose only page-number token is 0 makes
    [parseMaxPage] return 0. *)
Lemma parseMaxPage_returns_zero :
  parseMaxPage (P := Handbook.platform) "<a href='/search?page=0'>first</a>"
  = MaxPage (Finite 0) /\
  ~ (forall html : string,
       parseMaxPage (P := Handbook.platform) html <> MaxPage (Finite 0)).
Proof.
  assert (H : parseMaxPage (P := Handbook.platform)
                "<a href='/search?page=0'>first</a>" = MaxPage (Finite 0))
    by (vm_compute; reflexivity).
  split; [exact H|].
  intro Hall. exact (Hall _ H).
Qed.

Lemma newline_space (c : ascii) : Chars.newline c = true -> Chars.space c = true.
Proof.
  unfold Chars.newline, Chars.space, Chars.between, Chars.is_code.
  intro H. apply Nat.eqb_eq in H. rewrite H. reflexivity.
Qed.

Lemma drop_while_length (p : ascii -> bool) (s : string) :
  String.length (drop_while p s) <= String.length s.
Proof.
  induction s as [|c s IH]; cbn; [lia|].
  destruct (p c); cbn; lia.
Qed.

Lemma drop_while_head (p : ascii -> bool) (s : string) :
  starts_with p (drop_while p s) = false.
Proof.
  induction s as [|c s IH]; cbn; [reflexivity|].
  destruct (p c) eqn:E; [exact IH|cbn; exact E].
Qed.

Lemma str_skip_drop_while (p : ascii -> bool) (s : string) :
  str_skip (String.length s - String.length (drop_while p s)) s = drop_while p s.
Proof.
  induction s as [|c s IH]; cbn [drop_while String.length]; [reflexivity|].
  destruct (p c).
  - pose proof (drop_while_length p s).
    replace (S (String.length s) - String.length (drop_while p s))
      with (S (String.length s - String.length (drop_while p s))) by lia.
    cbn [str_skip]. exact IH.
  - cbn [String.length]. rewrite Nat.sub_diag. reflexivity.
Qed.

Lemma snd_cons_char (c : ascii) (r : result) : snd (cons_char c r) = snd r.
Proof. destruct r as [[|lex lexs] rest]; reflexivity. Qed.

(** An unbounded class with nothing after it takes the whole run. *)
Lemma greedy_run (p : ascii -> bool) (s : string) :
  exists r,
    greedy p (match_here []) 0 None s = Some r /\ snd r = drop_while p s.
Proof.
  induction s as [|c s [r [IH1 IH2]]]; cbn [greedy drop_while].
  - eexists. split; reflexivity.
  - cbn [can_take andb dec pred Nat.eqb]. destruct (p c).
    + rewrite IH1. eexists. split; [reflexivity|].
      rewrite snd_cons_char. exact IH2.
    + eexists. split; reflexivity.
Qed.

Lemma greedy_plus (p : ascii -> bool) (s : string) :
  match greedy p (match_here []) 1 None s with
  | Some r => starts_with p s = true /\ snd r = drop_while p s
  | None => starts_with p s = false
  end.
Proof.
  destruct s as [|c s]; cbn [greedy starts_with drop_while Nat.eqb].
  - reflexivity.
  - cbn [can_take andb dec pred]. destruct (p c).
    + destruct (greedy_run p s) as [r [-> Hr]].
      split; [reflexivity|]. rewrite snd_cons_char. exact Hr.
    + reflexivity.
Qed.

(** A class taken exactly once. *)
Lemma greedy_one (p : ascii -> bool) (k : string -> option result) (s : string) :
  greedy p k 1 (Some 1) s
  = match s with
    | String c s' =>
        if p c then
          match option_map open_lexeme (k s') with
          | Some r => Some (cons_char c r)
          | None => None
          end
        else None
    | EmptyString => None
    end.
Proof.
  destruct s as [|c s']; cbn [greedy Nat.eqb]; [reflexivity|].
  cbn [can_take andb dec pred]. destruct (p c); [|reflexivity].
  destruct s' as [|c' s'']; reflexivity.
Qed.

(** [/\n\s+/] matches at a line feed that white space follows, and takes
    all of that white space. *)
Lemma match_newline_space (s : string) :
  match match_here re_newline_space s with
  | Some r =>
      exists c s', s = String c s' /\ Chars.newline c = true /\
                   starts_with Chars.space s' = true /\
                   snd r = drop_while Chars.space s'
  | None =>
      match s with
      | String c s' => Chars.newline c && starts_with Chars.space s' = false
      | EmptyString => True
      end
  end.
Proof.
  change (match_here re_newline_space s)
    with (greedy Chars.newline
            (greedy Chars.space (match_here []) 1 None) 1 (Some 1) s).
  rewrite greedy_one. destruct s as [|c s']; [exact I|].
  destruct (Chars.newline c) eqn:Ec; cbn [andb]; [|reflexivity].
  pose proof (greedy_plus Chars.space s') as H.
  destruct (greedy Chars.space (match_here []) 1 None s') as [r|];
    cbn [option_map].
  - destruct H as [H1 H2]. exists c, s'.
    split; [reflexivity|]. split; [exact Ec|]. split; [exact H1|].
    rewrite snd_cons_char. exact H2.
  - exact H.
Qed.

Lemma starts_replace_newline_space (s : string) (k : nat) :
  no_blank_line (replace_from re_newline_space LF s k) = true /\
  (starts_with Chars.newline (replace_from re_newline_space LF s k) = true ->
   starts_with Chars.newline (str_skip k s) = true).
Proof.
  revert k. induction s as [|c s IH]; intro k.
  - destruct k; cbn; split; auto.
  - destruct k as [|k]; cbn [replace_from str_skip].
    + pose proof (match_newline_space (String c s)) as Hm.
      destruct (match_here re_newline_space (String c s)) as [r|].
      * destruct Hm as [c0 [s0 [E [Hc [Hs Hr]]]]]. inversion E; subst c0 s0.
        unfold matched_length. rewrite Hr. cbn [String.length].
        pose proof (drop_while_length Chars.space s) as Hlen.
        replace (S (String.length s) - String.length (drop_while Chars.space s))
          with (S (String.length s - String.length (drop_while Chars.space s)))
          by lia.
        destruct (IH (String.length s - String.length (drop_while Chars.space s)))
          as [IH1 IH2].
        rewrite str_skip_drop_while in IH2.
        change (LF ++ ?x) with (String (ascii_of_nat 10) x).
        cbn [no_blank_line starts_with]. split; [|intros _; exact Hc].
        rewrite IH1, Bool.andb_true_r.
        destruct (starts_with Chars.newline
                    (replace_from re_newline_space LF s
                       (String.length s - String.length (drop_while Chars.space s))))
          eqn:Est; [|rewrite Bool.andb_false_r; reflexivity].
        specialize (IH2 eq_refl).
        pose proof (drop_while_head Chars.space s) as Hd.
        destruct (drop_while Chars.space s) as [|d ds]; [discriminate|].
        cbn [starts_with] in *. apply newline_space in IH2. congruence.
      * destruct (IH 0) as [IH1 IH2]. cbn [str_skip] in IH2.
        cbn [no_blank_line starts_with]. split; [|auto].
        rewrite IH1, Bool.andb_true_r.
        destruct (Chars.newline c) eqn:Ec; [|reflexivity].
        destruct (starts_with Chars.newline
                    (replace_from re_newline_space LF s 0)) eqn:Est;
          [|reflexivity].
        specialize (IH2 eq_refl). cbn [andb] in Hm.
        destruct s as [|c' s']; [discriminate|]. cbn [starts_with] in *.
        apply newline_space in IH2. congruence.
    + apply IH.
Qed.

(** After the second replacement no blank line is left, whatever the
    text. *)
Lemma replace_newline_space_no_blank_line (s : string) :
  no_blank_line (replace_all re_newline_space LF s) = true.
Proof. apply starts_replace_newline_space. Qed.

Lemma starts_replace_space (re : regex) (s : string) :
  starts_with Chars.newline (replace_from re " " s 0) = true ->
  starts_with Chars.newline s = true.
Proof.
  destruct s as [|c s]; cbn [replace_from].
  - destruct (match_here re EmptyString); cbn; auto.
  - destruct (match_here re (String c s)) as [r|].
    + destruct (matched_length (String c s) r); cbn; discriminate.
    + cbn. auto.
Qed.

(** Replacing matches by a space makes no blank line. *)
Lemma replace_space_no_blank_line (re : regex) (s : string) (k : nat) :
  no_blank_line s = true -> no_blank_line (replace_from re " " s k) = true.
Proof.
  revert k. induction s as [|c s IH]; intros k Hs.
  - destruct k; cbn; [destruct (match_here re EmptyString)|]; reflexivity.
  - cbn [no_blank_line] in Hs. apply andb_prop in Hs. destruct Hs as [Hc Hs].
    assert (Hkeep : no_blank_line (String c (replace_from re " " s 0)) = true).
    { cbn [no_blank_line]. rewrite (IH 0 Hs), Bool.andb_true_r.
      destruct (Chars.newline c); [|reflexivity]. cbn [andb] in *.
      destruct (starts_with Chars.newline (replace_from re " " s 0)) eqn:E;
        [|reflexivity].
      apply starts_replace_space in E. rewrite E in Hc. discriminate. }
    destruct k as [|k]; cbn [replace_from]; [|apply IH, Hs].
    destruct (match_here re (String c s)) as [r|]; [|exact Hkeep].
    destruct (matched_length (String c s) r) as [|n].
    + change (" " ++ ?x) with (String " "%char x).
      cbn [no_blank_line]. cbn [no_blank_line] in Hkeep. exact Hkeep.
    + change (" " ++ ?x) with (String " "%char x).
      cbn [no_blank_line]. rewrite (IH n Hs). reflexivity.
Qed.

(** [/\n{3,}/] finds nothing in a text without blank lines. *)
Lemma match_newlines3_none (s : string) :
  no_blank_line s = true -> match_here re_newlines3 s = None.
Proof.
  unfold re_newlines3, at_least. cbn [match_here cls lo hi].
  destruct s as [|c s]; cbn [greedy Nat.eqb]; [reflexivity|].
  cbn [no_blank_line can_take andb dec pred]. intro H.
  apply andb_prop in H. destruct H as [Hc _].
  destruct (Chars.newline c); [|reflexivity]. cbn [andb negb] in Hc.
  destruct s as [|c' s']; cbn [greedy Nat.eqb]; [reflexivity|].
  cbn [starts_with can_take andb] in *.
  destruct (Chars.newline c'); [discriminate|reflexivity].
Qed.

Lemma replace_newlines3_id (s : string) :
  no_blank_line s = true -> replace_all re_newlines3 (LF ++ LF) s = s.
Proof.
  unfold replace_all. induction s as [|c s IH]; intro H.
  - reflexivity.
  - cbn [replace_from]. rewrite (match_newlines3_none _ H).
    cbn [no_blank_line] in H. apply andb_prop in H. destruct H as [_ H].
    rewrite (IH H). reflexivity.
Qed.

Lemma drop_while_no_blank_line (p : ascii -> bool) (s : string) :
  no_blank_line s = true -> no_blank_line (drop_while p s) = true.
Proof.
  induction s as [|c s IH]; cbn [drop_while]; intro H; [reflexivity|].
  destruct (p c); [|exact H].
  cbn [no_blank_line] in H. apply andb_prop in H. apply IH, H.
Qed.

Lemma str_rev_append_no_blank_line (s acc : string) :
  no_blank_line s = true -> no_blank_line acc = true ->
  starts_with Chars.newline s && starts_with Chars.newline acc = false ->
  no_blank_line (str_rev_append s acc) = true.
Proof.
  revert acc. induction s as [|c s IH]; intros acc Hs Ha Hsa;
    cbn [str_rev_append]; [exact Ha|].
  cbn [no_blank_line] in Hs. apply andb_prop in Hs. destruct Hs as [Hc Hs].
  cbn [starts_with] in Hsa.
  apply IH; [exact Hs| |].
  - cbn [no_blank_line]. rewrite Ha, Hsa. reflexivity.
  - cbn [starts_with]. rewrite Bool.andb_comm.
    apply Bool.negb_true_iff, Hc.
Qed.

Lemma str_rev_no_blank_line (s : string) :
  no_blank_line s = true -> no_blank_line (str_rev s) = true.
Proof.
  intro H. apply str_rev_append_no_blank_line; [exact H|reflexivity|].
  cbn. apply Bool.andb_false_r.
Qed.

Lemma trim_no_blank_line (s : string) :
  no_blank_line s = true -> no_blank_line (trim s) = true.
Proof.
  intro H. unfold trim.
  apply str_rev_no_blank_line, drop_while_no_blank_line,
        str_rev_no_blank_line, drop_while_no_blank_line, H.
Qed.

Lemma includes_blank_line (s : string) :
  no_blank_line s = true -> includes s (LF ++ LF) = false.
Proof.
  induction s as [|c s IH]; intro H.
  - reflexivity.
  - cbn [no_blank_line] in H. apply andb_prop in H. destruct H as [Hc H].
    cbn [includes]. rewrite (IH H), Bool.orb_false_r.
    change (LF ++ LF) with (String (ascii_of_nat 10) (String (ascii_of_nat 10) "")).
    cbn [String.prefix].
    destruct (ascii_dec (ascii_of_nat 10) c) as [E|E]; [|reflexivity].
    subst c.
    destruct s as [|c' s']; [reflexivity|]. cbn [String.prefix].
    destruct (ascii_dec (ascii_of_nat 10) c') as [E'|E']; [|reflexivity].
    subst c'. cbn in Hc. discriminate.
Qed.

(** The text that [cleanText] returns never holds a blank line. *)
Lemma cleanText_no_blank_line (text : string) :
  no_blank_line (cleanText text) = true.
Proof.
  unfold cleanText. apply trim_no_blank_line.
  set (t := replace_all re_spaces " "
              (replace_all re_newline_space LF
                 (replace_all re_space_newline LF text))).
  assert (Ht : no_blank_line t = true).
  { apply replace_space_no_blank_line, replace_newline_space_no_blank_line. }
  rewrite (replace_newlines3_id t Ht). exact Ht.
Qed.

(** C4 fails on the code: the replacements on white space around line
    feeds, whose [\s+] takes line feeds too, remove every blank line, and
    nothing is left for the rule on three line feeds and more.  No text
    that [cleanText] returns holds two line feeds in a row; a paragraph
    break of three blank lines comes out as one line feed. *)
Theorem cleanText_removes_blank_lines :
  (forall text : string, includes (cleanText text) (LF ++ LF) = false) /\
  cleanText ("Aims" ++ LF ++ LF ++ LF ++ LF ++ "Topics")
  = "Aims" ++ LF ++ "Topics".
Proof.
  split.
  - intro text. apply includes_blank_line, cleanText_no_blank_line.
  - vm_compute. reflexivity.
Qed.

(** C6 fails on the code: an [h4] between the period heading and the next
    [h5] does not end the walk, and the emails after it are collected. *)
Theorem parseSemesterEmails_walks_past_h4 :
  parseSemesterEmails Handbook.contacts "Semester 1"
  = ["coordinator@unimelb.edu.au"; "tutor@unimelb.edu.au"].
Proof. vm_compute; reflexivity. Qed.

(** An address is kept as it is written. *)
Example extractEmails_keeps_case :
  extractEmails "Contact: Jane.Doe@Example.EDU.AU for questions"
  = ["Jane.Doe@Example.EDU.AU"].
Proof. vm_compute. reflexivity. Qed.

(** The codes of a search page come out in capitals. *)
Example parseSearchPage_upper_case :
  map stub_code (parseSearchPage Handbook.search1)
  = ["MAST10006"; "COMP10001"; "MAST20026"].
Proof. vm_compute. reflexivity. Qed.

(** One table with its header row and its body row; the table without a
    cell is dropped. *)
Example parseAssessmentTables_example :
  parseAssessmentTables Handbook.assessment "Semester 1"
  = [ {| columns := ["Assessment"; "Weight"; "Due"];
         rows := [[("Assessment", "Essay"); ("Weight", "30%");
                   ("Due", "Week 5")]] |} ].
Proof. vm_compute. reflexivity. Qed.

End ParseFacts.

(** ** Deduplication *)

Module DedupFacts.

Lemma lookup_map_set_same (m : list (string * SubjectStub)) (k : string)
    (v : SubjectStub) :
  lookup k (map_set m k v) = Some v.
Proof.
  induction m as [|[k' v'] m IH]; cbn.
  - rewrite String.eqb_refl. reflexivity.
  - destruct (String.eqb k k') eqn:E; cbn; rewrite ?String.eqb_refl, ?E; auto.
Qed.

Lemma lookup_map_set_other (m : list (string * SubjectStub)) (k k' : string)
    (v : SubjectStub) :
  k' <> k -> lookup k' (map_set m k v) = lookup k' m.
Proof.
  intro Hne. induction m as [|[k0 v0] m IH]; cbn.
  - destruct (String.eqb k' k) eqn:E; [apply String.eqb_eq in E; congruence|].
    reflexivity.
  - destruct (String.eqb k k0) eqn:E; cbn.
    + apply String.eqb_eq in E. subst k0.
      destruct (String.eqb k' k) eqn:E'; [apply String.eqb_eq in E'; congruence|].
      reflexivity.
    + rewrite IH. reflexivity.
Qed.

Lemma map_set_keys (m : list (string * SubjectStub)) (k : string)
    (v : SubjectStub) :
  map fst (map_set m k v)
  = if in_dec string_dec k (map fst m) then map fst m
    else (map fst m ++ [k])%list.
Proof.
  induction m as [|[k' v'] m IH]; cbn [map_set map fst].
  - reflexivity.
  - destruct (String.eqb k k') eqn:E.
    + apply String.eqb_eq in E. subst k'. cbn [map fst].
      destruct (in_dec string_dec k (k :: map fst m)) as [_|H];
        [reflexivity|exfalso; apply H; now left].
    + cbn [map fst]. rewrite IH.
      assert (k' <> k) by (intro; subst; rewrite String.eqb_refl in E; discriminate).
      destruct (in_dec string_dec k (map fst m)) as [Hin|Hin];
        destruct (in_dec string_dec k (k' :: map fst m)) as [Hin'|Hin'];
        try reflexivity.
      * exfalso. apply Hin'. now right.
      * exfalso. destruct Hin' as [Hin'|Hin']; [congruence|exact (Hin Hin')].
Qed.

Lemma map_set_NoDup (m : list (string * SubjectStub)) (k : string)
    (v : SubjectStub) :
  NoDup (map fst m) -> NoDup (map fst (map_set m k v)).
Proof.
  intro H. rewrite map_set_keys.
  destruct (in_dec string_dec k (map fst m)) as [Hin|Hin]; [exact H|].
  apply NoDup_app; [exact H|constructor; [tauto|constructor]|].
  intros x Hx [Hk|[]]. subst. tauto.
Qed.

Lemma map_set_keyed (m : list (string * SubjectStub)) (v : SubjectStub) :
  keyed m -> keyed (map_set m (stub_code v) v).
Proof.
  intro H. induction H as [|[k' v'] m He Hm IH]; cbn.
  - constructor; [reflexivity|constructor].
  - destruct (String.eqb (stub_code v) k').
    + constructor; [reflexivity|exact Hm].
    + constructor; [exact He|exact IH].
Qed.

Lemma add_unique_inv (m : list (string * SubjectStub)) (item : SubjectStub) :
  NoDup (map fst m) /\ keyed m ->
  NoDup (map fst (add_unique m item)) /\ keyed (add_unique m item).
Proof.
  intros [H1 H2]. unfold add_unique. destruct (truthy (stub_code item)).
  - split; [apply map_set_NoDup, H1|apply map_set_keyed, H2].
  - split; assumption.
Qed.

Lemma fold_add_unique_inv (l : list SubjectStub) (m : list (string * SubjectStub)) :
  NoDup (map fst m) /\ keyed m ->
  NoDup (map fst (fold_left add_unique l m)) /\ keyed (fold_left add_unique l m).
Proof.
  revert m; induction l as [|x l IH]; intros m H; cbn.
  - exact H.
  - apply IH, add_unique_inv, H.
Qed.

Lemma uniqueItems_inv (l : list SubjectStub) :
  NoDup (map fst (uniqueItems l)) /\ keyed (uniqueItems l).
Proof.
  apply fold_add_unique_inv. split; constructor.
Qed.

Lemma keyed_codes (m : list (string * SubjectStub)) :
  keyed m -> map stub_code (map snd m) = map fst m.
Proof.
  intro H. induction H as [|e m He Hm IH]; cbn.
  - reflexivity.
  - rewrite IH, He. reflexivity.
Qed.

(** The candidates have pairwise different codes. *)
Lemma dedup_NoDup_codes (l : list SubjectStub) :
  NoDup (map stub_code (dedup l)).
Proof.
  unfold dedup. destruct (uniqueItems_inv l) as [H1 H2].
  rewrite (keyed_codes _ H2). exact H1.
Qed.

Lemma lookup_fold_absent (c : string) (b : list SubjectStub)
    (m : list (string * SubjectStub)) :
  (forall t, In t b -> stub_code t <> c) ->
  lookup c (fold_left add_unique b m) = lookup c m.
Proof.
  revert m; induction b as [|x b IH]; intros m Hb; cbn.
  - reflexivity.
  - rewrite IH by (intros t Ht; apply Hb; now right).
    unfold add_unique. destruct (truthy (stub_code x)); [|reflexivity].
    apply lookup_map_set_other. intro E. apply (Hb x); [now left|congruence].
Qed.

(** The entry of a code is the last stub pushed with that code. *)
Lemma lookup_uniqueItems_last (c : string) (a b : list SubjectStub)
    (s : SubjectStub) :
  stub_code s = c -> truthy c = true ->
  (forall t, In t b -> stub_code t <> c) ->
  lookup c (uniqueItems (a ++ s :: b)) = Some s.
Proof.
  intros Hs Hc Hb. unfold uniqueItems.
  rewrite fold_left_app. cbn [fold_left].
  rewrite lookup_fold_absent by exact Hb.
  unfold add_unique. rewrite Hs, Hc. rewrite <- Hs at 1.
  rewrite Hs. subst c. apply lookup_map_set_same.
Qed.

Lemma lookup_absent (c : string) (m : list (string * SubjectStub)) :
  ~ In c (map fst m) -> lookup c m = None.
Proof.
  induction m as [|[k v] m IH]; cbn; intro H.
  - reflexivity.
  - destruct (String.eqb c k) eqn:E.
    + apply String.eqb_eq in E. exfalso. apply H. left. congruence.
    + apply IH. intro Hin. apply H. right. exact Hin.
Qed.

Lemma filter_has_code_absent (c : string) (m : list (string * SubjectStub)) :
  keyed m -> ~ In c (map fst m) -> filter (has_code c) (map snd m) = [].
Proof.
  intro H. induction H as [|[k v] m He Hm IH]; cbn; intro Hc.
  - reflexivity.
  - cbn in He. unfold has_code at 1.
    destruct (String.eqb (stub_code v) c) eqn:E.
    + apply String.eqb_eq in E. exfalso. apply Hc. left. congruence.
    + apply IH. intro Hin. apply Hc. right. exact Hin.
Qed.

(** One stub survives under a code that has an entry: the entry. *)
Lemma filter_has_code_lookup (c : string) (m : list (string * SubjectStub))
    (s : SubjectStub) :
  NoDup (map fst m) -> keyed m -> lookup c m = Some s ->
  filter (has_code c) (map snd m) = [s].
Proof.
  intros Hnd Hk. revert Hnd.
  induction Hk as [|[k v] m He Hm IH]; cbn; intros Hnd Hl.
  - discriminate.
  - change (k = stub_code v) in He.
    inversion Hnd as [|k0 ks Hnotin Hnd']; subst k0 ks.
    unfold has_code at 1.
    destruct (String.eqb c k) eqn:E.
    + apply String.eqb_eq in E. inversion Hl; subst v.
      replace (String.eqb (stub_code s) c) with true
        by (symmetry; apply String.eqb_eq; congruence).
      f_equal. apply filter_has_code_absent; [exact Hm|congruence].
    + replace (String.eqb (stub_code v) c) with false.
      * apply IH; assumption.
      * symmetry. rewrite String.eqb_sym, <- He. exact E.
Qed.

(** The last stub with a code in a list that has one. *)
Lemma last_occurrence (c : string) (l : list SubjectStub) :
  existsb (has_code c) l = true ->
  exists a s b, l = (a ++ s :: b)%list /\ stub_code s = c /\
                (forall t, In t b -> stub_code t <> c).
Proof.
  induction l as [|x l IH]; cbn; intro H.
  - discriminate.
  - destruct (existsb (has_code c) l) eqn:El.
    + destruct (IH eq_refl) as [a [s [b [-> [Hs Hb]]]]].
      exists (x :: a), s, b. repeat split; assumption.
    + rewrite Bool.orb_false_r in H. unfold has_code in H.
      apply String.eqb_eq in H.
      exists [], x, l. split; [reflexivity|]. split; [exact H|].
      intros t Ht E.
      assert (existsb (has_code c) l = true); [|congruence].
      apply existsb_exists. exists t. split; [exact Ht|].
      unfold has_code. apply String.eqb_eq. exact E.
Qed.

(** The last page that has a stub with the code, and the last such stub of
    that page. *)
Lemma last_page_occurrence (c : string) (pages : list (list SubjectStub)) :
  existsb (has_code c) (concat pages) = true ->
  exists pre page post a s b,
    pages = (pre ++ page :: post)%list /\ page = (a ++ s :: b)%list /\
    stub_code s = c /\
    (forall t, In t b -> stub_code t <> c) /\
    (forall q t, In q post -> In t q -> stub_code t <> c).
Proof.
  induction pages as [|p ps IH]; cbn [concat]; intro H.
  - discriminate.
  - destruct (existsb (has_code c) (concat ps)) eqn:Eps.
    + destruct (IH eq_refl) as [pre [page [post [a [s [b [-> H']]]]]]].
      exists (p :: pre), page, post, a, s, b. split; [reflexivity|exact H'].
    + rewrite existsb_app, Eps, Bool.orb_false_r in H.
      destruct (last_occurrence c p H) as [a [s [b [-> [Hs Hb]]]]].
      exists [], (a ++ s :: b)%list, ps, a, s, b.
      repeat split; try assumption.
      intros q t Hq Ht E.
      assert (existsb (has_code c) (concat ps) = true); [|congruence].
      apply existsb_exists. exists t. split.
      * apply in_concat. exists q. split; assumption.
      * unfold has_code. apply String.eqb_eq. exact E.
Qed.

Lemma item_of_truthy (item : node) :
  Forall (fun s => truthy (stub_code s) = true) (item_of item).
Proof.
  unfold item_of.
  destruct (cleanText (text (find (hasClass "search-result-item__code") item)))
    as [|ch rest]; cbn.
  - constructor.
  - constructor; [destruct (Chars.is_code 223 ch); reflexivity|constructor].
Qed.

(** No stub of a search page has an empty code. *)
Lemma parseSearchPage_truthy (doc : document) :
  Forall (fun s => truthy (stub_code s) = true) (parseSearchPage doc).
Proof.
  unfold parseSearchPage.
  induction (select (hasClass "search-result-item") doc) as [|x l IH]; cbn.
  - constructor.
  - apply Forall_app. split; [apply item_of_truthy|exact IH].
Qed.

(** C8.  For the stubs of the search pages in page order and a code that
    some stub has, deduplication keeps exactly one stub with that code: the
    last such stub of the last page that has one, so the entry of the
    highest-numbered page wins. *)
Theorem dedup_last_page_wins :
  forall (docs : list document) (c : string),
    (exists s, In s (concat (map parseSearchPage docs)) /\ stub_code s = c) ->
    exists s pre page post a b,
      filter (has_code c) (dedup (concat (map parseSearchPage docs))) = [s] /\
      map parseSearchPage docs = (pre ++ page :: post)%list /\
      page = (a ++ s :: b)%list /\
      stub_code s = c /\
      (forall t, In t b -> stub_code t <> c) /\
      (forall q t, In q post -> In t q -> stub_code t <> c).
Proof.
  intros docs c [s0 [Hin Hc]].
  assert (Htruthy : Forall (fun s => truthy (stub_code s) = true)
                      (concat (map parseSearchPage docs))).
  { apply Forall_concat. apply Forall_map. apply Forall_forall.
    intros d _. apply parseSearchPage_truthy. }
  assert (Hex : existsb (has_code c) (concat (map parseSearchPage docs)) = true).
  { apply existsb_exists. exists s0. split; [exact Hin|].
    unfold has_code. apply String.eqb_eq. exact Hc. }
  destruct (last_page_occurrence c _ Hex)
    as [pre [page [post [a [s [b [Hpages [Hpage [Hs [Hb Hpost]]]]]]]]]].
  exists s, pre, page, post, a, b.
  split; [|repeat split; assumption].
  assert (Hconcat : concat (map parseSearchPage docs)
                    = ((concat pre ++ a) ++ s :: b ++ concat post)%list).
  { rewrite Hpages, concat_app. cbn [concat]. rewrite Hpage.
    rewrite <- !app_assoc. reflexivity. }
  rewrite Hconcat in Htruthy. rewrite Hconcat.
  destruct (uniqueItems_inv ((concat pre ++ a) ++ s :: b ++ concat post))
    as [Hnd Hk].
  unfold dedup. apply filter_has_code_lookup; [exact Hnd|exact Hk|].
  apply lookup_uniqueItems_last.
  - exact Hs.
  - rewrite <- Hs. rewrite Forall_forall in Htruthy. apply Htruthy.
    apply in_or_app. right. now left.
  - intros t Ht. apply in_app_or in Ht. destruct Ht as [Ht|Ht].
    + apply Hb, Ht.
    + apply in_concat in Ht. destruct Ht as [q [Hq Ht]].
      exact (Hpost q t Hq Ht).
Qed.

(** The witness of C8: MAST10006 is on both search pages of the example
    handbook. *)
Lemma dedup_last_page_wins_witness :
  exists s pre page post a b,
    filter (has_code "MAST10006")
      (dedup (concat (map parseSearchPage [Handbook.search1; Handbook.search2])))
    = [s] /\
    map parseSearchPage [Handbook.search1; Handbook.search2]
    = (pre ++ page :: post)%list /\
    page = (a ++ s :: b)%list /\
    stub_code s = "MAST10006" /\
    (forall t, In t b -> stub_code t <> "MAST10006") /\
    (forall q t, In q post -> In t q -> stub_code t <> "MAST10006").
Proof.
  apply (dedup_last_page_wins [Handbook.search1; Handbook.search2] "MAST10006").
  eexists. split; [vm_compute; left; reflexivity|reflexivity].
Defined.

End DedupFacts.

(** ** The search pages *)

Module PageFacts.

Section Pages.

Context {P : Platform}.
Variable cfg : Config.
Variable net : network.

Lemma pages_from_S (searchConfig firstPageHtml : string) (k : nat) (page : Z) :
  pages_from net searchConfig firstPageHtml (S k) page
  = search_page net searchConfig firstPageHtml page
      :: pages_from net searchConfig firstPageHtml k (page + 1)%Z.
Proof.
  unfold pages_from. cbn [seq map]. f_equal.
  - f_equal. lia.
  - rewrite <- seq_shift, map_map. apply map_ext. intro i. f_equal. lia.
Qed.

(** The stubs that the loop accumulates are those of the search pages it
    read, in page order. *)
Lemma paginate_pages (searchConfig firstPageHtml : string) :
  forall (n : nat) (page : Z) (l : list SubjectStub),
    paginate net searchConfig firstPageHtml n page = Some l ->
    exists docs,
      l = concat (map parseSearchPage docs) /\
      List.length docs <= n /\
      map Some docs
      = pages_from net searchConfig firstPageHtml (List.length docs) page.
Proof.
  induction n as [|n IH]; intros page l H; cbn [paginate] in H.
  - inversion H; subst. exists []. repeat split. cbn; lia.
  - destruct (URL_with_page searchConfig (string_of_nat (Z.to_nat page)))
      as [pageUrl|] eqn:Eu; [|discriminate].
    destruct (if (page =? 1)%Z then Fetch.Returned firstPageHtml
              else fetch net pageUrl) as [html|e] eqn:Ef; [|discriminate].
    assert (Hsp : search_page net searchConfig firstPageHtml page
                  = Some (cheerio_load html)).
    { unfold search_page. rewrite Eu, Ef. reflexivity. }
    destruct (parseSearchPage (cheerio_load html)) as [|x items] eqn:Ei.
    + inversion H; subst. exists []. repeat split. cbn; lia.
    + destruct (paginate net searchConfig firstPageHtml n (page + 1))
        as [l'|] eqn:El; [|discriminate].
      cbn [option_map] in H. inversion H; subst l; clear H.
      destruct (IH _ _ El) as [docs [Hl [Hn Hd]]].
      exists (cheerio_load html :: docs). cbn [map concat List.length].
      split; [rewrite Ei, Hl; reflexivity|]. split; [lia|].
      rewrite pages_from_S, Hsp, Hd. reflexivity.
Qed.

(** The stubs after the loop are those of a loop over some number of
    pages. *)
Lemma search_items_paginate (searchConfig firstPageHtml : string)
    (maxPage : number) (l : list SubjectStub) :
  search_items net searchConfig firstPageHtml maxPage = Some l ->
  exists n, paginate net searchConfig firstPageHtml n 1%Z = Some l.
Proof.
  unfold search_items. destruct (page_limit maxPage) as [n|].
  - intro H. exists n. exact H.
  - destruct (loop_ends _ _ _ _); [|discriminate].
    intro H. eexists. exact H.
Qed.

(** What [candidates] is made of: the first page, the page limit and the
    stubs after the loop. *)
Lemma candidates_search_items (searchConfig : string)
    (itemsList : list SubjectStub) :
  candidates cfg net = Some (searchConfig, itemsList) ->
  exists firstPageHtml maxPage searchItems,
    search_items net searchConfig firstPageHtml maxPage = Some searchItems /\
    itemsList = dedup searchItems.
Proof.
  unfold candidates.
  destruct (URL_with_page (searchUrl cfg) "1") as [sc|]; [|discriminate].
  destruct (fetch net sc) as [html|]; [|discriminate].
  destruct (if (maxPagesArg cfg =? 0)%Z then parseMaxPage html
            else MaxPage (Finite (maxPagesArg cfg))) as [maxPage|];
    [|discriminate].
  destruct (search_items net sc html maxPage) as [searchItems|] eqn:Es;
    [|discriminate].
  intro H. inversion H; subst; clear H.
  exists html, maxPage, searchItems. split; [exact Es|reflexivity].
Qed.

(** The candidates are the deduplicated stubs of the search pages read,
    from page 1 on. *)
Lemma candidates_pages (searchConfig : string) (itemsList : list SubjectStub) :
  candidates cfg net = Some (searchConfig, itemsList) ->
  exists firstPageHtml docs,
    itemsList = dedup (concat (map parseSearchPage docs)) /\
    map Some docs
    = pages_from net searchConfig firstPageHtml (List.length docs) 1%Z.
Proof.
  intro H.
  destruct (candidates_search_items _ _ H) as [html [maxPage [l [Es ->]]]].
  destruct (search_items_paginate _ _ _ _ Es) as [n Ep].
  destruct (paginate_pages _ _ _ _ _ Ep) as [docs [Hl [_ Hd]]].
  exists html, docs. split; [rewrite Hl; reflexivity|exact Hd].
Qed.

End Pages.

End PageFacts.

(** ** The crawl *)

Module CrawlFacts.

Section Sorting.

Context {P : Platform}.

Lemma insert_sorted_perm (x : SubjectRecord jsnum) (l : list (SubjectRecord jsnum)) :
  Permutation (insert_sorted x l) (x :: l).
Proof.
  induction l as [|y l IH]; cbn.
  - apply Permutation_refl.
  - destruct (localeCompare (code x) (code y) <=? 0)%Z.
    + apply Permutation_refl.
    + apply Permutation_trans with (y :: x :: l).
      * apply perm_skip, IH.
      * apply perm_swap.
Qed.

(** Sorting keeps the records. *)
Lemma sort_by_code_perm (l : list (SubjectRecord jsnum)) : Permutation (sort_by_code l) l.
Proof.
  induction l as [|x l IH]; cbn.
  - apply perm_nil.
  - apply Permutation_trans with (x :: sort_by_code l).
    + apply insert_sorted_perm.
    + apply perm_skip, IH.
Qed.

Variable codes : list string.
Hypothesis sound : collation_sound codes = true.

Lemma sound_total (a b : string) :
  In a codes -> In b codes ->
  (localeCompare a b <= 0)%Z \/ (localeCompare b a <= 0)%Z.
Proof.
  intros Ha Hb. unfold collation_sound in sound.
  rewrite forallb_forall in sound. specialize (sound a Ha).
  rewrite forallb_forall in sound. specialize (sound b Hb).
  apply andb_prop in sound. destruct sound as [H _].
  apply andb_prop in H. destruct H as [H _].
  apply Bool.orb_true_iff in H. rewrite !Z.leb_le in H. exact H.
Qed.

Lemma sound_antisym (a b : string) :
  In a codes -> In b codes ->
  (localeCompare a b <= 0)%Z -> (localeCompare b a <= 0)%Z -> a = b.
Proof.
  intros Ha Hb Hab Hba. unfold collation_sound in sound.
  rewrite forallb_forall in sound. specialize (sound a Ha).
  rewrite forallb_forall in sound. specialize (sound b Hb).
  apply andb_prop in sound. destruct sound as [H _].
  apply andb_prop in H. destruct H as [_ H].
  apply Z.leb_le in Hab, Hba. rewrite Hab, Hba in H. cbn in H.
  apply String.eqb_eq, H.
Qed.

Lemma sound_trans (a b c : string) :
  In a codes -> In b codes -> In c codes ->
  (localeCompare a b <= 0)%Z -> (localeCompare b c <= 0)%Z ->
  (localeCompare a c <= 0)%Z.
Proof.
  intros Ha Hb Hc Hab Hbc. unfold collation_sound in sound.
  rewrite forallb_forall in sound. specialize (sound a Ha).
  rewrite forallb_forall in sound. specialize (sound b Hb).
  apply andb_prop in sound. destruct sound as [_ H].
  rewrite forallb_forall in H. specialize (H c Hc).
  apply Z.leb_le in Hab, Hbc. rewrite Hab, Hbc in H. cbn in H.
  apply Z.leb_le, H.
Qed.

Lemma insert_sorted_sorted (x : SubjectRecord jsnum) (l : list (SubjectRecord jsnum)) :
  In (code x) codes -> coded codes l ->
  StronglySorted le_code l -> StronglySorted le_code (insert_sorted x l).
Proof.
  intros Hx Hl Hs. induction Hs as [|y l Hs IH Hy]; cbn.
  - constructor; [constructor|constructor].
  - inversion Hl as [|y' l' Hyc Hlc]; subst.
    destruct (localeCompare (code x) (code y) <=? 0)%Z eqn:E.
    + apply Z.leb_le in E. constructor.
      * constructor; assumption.
      * constructor; [exact E|].
        rewrite Forall_forall in *. intros z Hz.
        apply (sound_trans (code x) (code y) (code z)); auto.
        apply Hy, Hz.
    + apply Z.leb_gt in E. constructor.
      * apply IH, Hlc.
      * apply (Permutation_Forall (Permutation_sym (insert_sorted_perm x l))).
        constructor; [|exact Hy].
        destruct (sound_total (code x) (code y) Hx Hyc) as [H|H];
          [lia|exact H].
Qed.

Lemma sort_by_code_sorted (l : list (SubjectRecord jsnum)) :
  coded codes l -> StronglySorted le_code (sort_by_code l).
Proof.
  intro Hl. induction Hl as [|x l Hx Hl IH]; cbn.
  - constructor.
  - apply insert_sorted_sorted; [exact Hx| |exact IH].
    apply (Permutation_Forall (Permutation_sym (sort_by_code_perm l))), Hl.
Qed.

Lemma NoDup_map_inj (l : list (SubjectRecord jsnum)) (a b : SubjectRecord jsnum) :
  NoDup (map code l) -> In a l -> In b l -> code a = code b -> a = b.
Proof.
  induction l as [|x l IH]; cbn; intros Hnd Ha Hb E.
  - contradiction.
  - inversion Hnd as [|c cs Hnotin Hnd']; subst.
    destruct Ha as [Ha|Ha], Hb as [Hb|Hb].
    + congruence.
    + subst x. exfalso. apply Hnotin. rewrite E. apply in_map, Hb.
    + subst x. exfalso. apply Hnotin. rewrite <- E. apply in_map, Ha.
    + apply IH; assumption.
Qed.

(** Two sorted lists of the same records, whose codes all differ, are the
    same list. *)
Lemma sorted_perm_unique (l1 l2 : list (SubjectRecord jsnum)) :
  coded codes l1 -> NoDup (map code l1) ->
  StronglySorted le_code l1 -> StronglySorted le_code l2 ->
  Permutation l1 l2 -> l1 = l2.
Proof.
  revert l2. induction l1 as [|a l1 IH]; intros l2 Hc Hnd Hs1 Hs2 Hp.
  - apply Permutation_nil in Hp. congruence.
  - destruct l2 as [|b l2];
      [apply Permutation_sym, Permutation_nil in Hp; discriminate|].
    inversion Hs1 as [|a' l1' Hs1' Ha]; subst.
    inversion Hs2 as [|b' l2' Hs2' Hb]; subst.
    assert (Hab : a = b).
    { assert (Hb1 : In b (a :: l1))
        by (apply (Permutation_in _ (Permutation_sym Hp)); now left).
      assert (Ha2 : In a (b :: l2))
        by (apply (Permutation_in _ Hp); now left).
      destruct Hb1 as [Hb1|Hb1]; [exact Hb1|].
      destruct Ha2 as [Ha2|Ha2]; [congruence|].
      unfold coded in Hc. rewrite Forall_forall in Ha, Hb, Hc.
      apply (NoDup_map_inj (a :: l1)); [exact Hnd|now left|now right|].
      apply sound_antisym.
      - apply Hc. now left.
      - apply Hc. now right.
      - apply Ha, Hb1.
      - apply Hb, Ha2. }
    subst b. f_equal.
    inversion Hc; subst. inversion Hnd; subst.
    apply IH; try assumption.
    apply Permutation_cons_inv with a. exact Hp.
Qed.

(** The sorted list does not depend on the order in which the records were
    pushed. *)
Lemma sort_by_code_unique (l1 l2 : list (SubjectRecord jsnum)) :
  coded codes l1 -> NoDup (map code l1) -> Permutation l1 l2 ->
  sort_by_code l1 = sort_by_code l2.
Proof.
  intros Hc Hnd Hp.
  assert (Hc2 : coded codes l2) by (apply (Permutation_Forall Hp), Hc).
  apply sorted_perm_unique.
  - apply (Permutation_Forall (Permutation_sym (sort_by_code_perm l1))), Hc.
  - apply (Permutation_NoDup
             (Permutation_map code (Permutation_sym (sort_by_code_perm l1)))).
    exact Hnd.
  - apply sort_by_code_sorted, Hc.
  - apply sort_by_code_sorted, Hc2.
  - apply Permutation_trans with l1; [apply sort_by_code_perm|].
    apply Permutation_trans with l2; [exact Hp|].
    apply Permutation_sym, sort_by_code_perm.
Qed.

End Sorting.

End CrawlFacts.

Module RunFacts.

Import CrawlFacts ParseFacts DedupFacts.

Section Run.

Context {P : Platform}.
Variable cfg : Config.
Variable net : network.

Lemma emails_or_fallback_NoDup (subjectUrl : string) (emails : list string) :
  NoDup emails -> NoDup (emails_or_fallback net subjectUrl emails).
Proof.
  intro H. unfold emails_or_fallback. destruct emails as [|e emails].
  - destruct (fetch net _).
    + apply parseSemesterEmails_NoDup.
    + constructor.
  - exact H.
Qed.

Lemma assessment_data_spec (assessmentUrl : string) :
  Forall (fun t => 1 <= List.length (rows t))
         (fst (assessment_data net assessmentUrl)) /\
  NoDup (snd (assessment_data net assessmentUrl)).
Proof.
  unfold assessment_data. destruct (fetch net assessmentUrl); cbn [fst snd].
  - split; [apply parseAssessmentTables_rows|apply parseSemesterEmails_NoDup].
  - split; constructor.
Qed.

(** What a saved record holds. *)
Lemma worker_saved (item : SubjectStub) (r : SubjectRecord jsnum) :
  worker cfg net item = Saved r ->
  code r = stub_code item /\
  NoDup (instructorEmails r) /\
  Forall (fun t => 1 <= List.length (rows t)) (assessment_tables r).
Proof.
  unfold worker.
  destruct (onlySemester1 cfg && truthy (stub_offered item)
            && negb (Regex.test re_semester1 (stub_offered item)));
    [discriminate|].
  destruct (URL_resolve (href_or_default item)) as [subjectUrl|]; [|discriminate].
  destruct (fetch net subjectUrl) as [subjectHtml|]; [|discriminate].
  destruct (onlySemester1 cfg && truthy (parseAvailability (cheerio_load subjectHtml))
            && negb (Regex.test re_semester1
                       (parseAvailability (cheerio_load subjectHtml))));
    [discriminate|].
  intro H. inversion H; subst r; clear H. cbn.
  destruct (assessment_data_spec (strip_trailing_slash subjectUrl ++ "/assessment"))
    as [Ht He].
  split; [reflexivity|]. split; [|exact Ht].
  apply emails_or_fallback_NoDup, He.
Qed.

Lemma pushed_In (outs : list (worker_outcome jsnum)) (completion : list nat)
    (r : SubjectRecord jsnum) :
  In r (pushed outs completion) -> In (Saved r) outs.
Proof.
  unfold pushed. rewrite in_flat_map. intros [i [_ Hr]].
  destruct (nth_error outs i) as [o|] eqn:E; [|contradiction].
  destruct o; cbn in Hr; try contradiction.
  destruct Hr as [->|[]]. eapply nth_error_In, E.
Qed.

Lemma pushed_in_order (outs : list (worker_outcome jsnum)) :
  pushed outs (seq 0 (List.length outs)) = flat_map saved outs.
Proof.
  unfold pushed. induction outs as [|o outs IH]; cbn [List.length seq flat_map].
  - reflexivity.
  - cbn [nth_error]. f_equal.
    rewrite <- seq_shift, flat_map_concat_map, map_map,
      <- flat_map_concat_map.
    exact IH.
Qed.

Lemma completion_order_perm (n : nat) (completion : list nat) :
  completion_order n completion = true -> Permutation (seq 0 n) completion.
Proof.
  unfold completion_order. intro H. apply andb_prop in H. destruct H as [Hl Hi].
  apply Nat.eqb_eq in Hl. rewrite forallb_forall in Hi.
  apply NoDup_Permutation_bis.
  - apply seq_NoDup.
  - rewrite length_seq. lia.
  - intros i Hin. specialize (Hi i Hin).
    apply existsb_exists in Hi. destruct Hi as [j [Hj E]].
    apply Nat.eqb_eq in E. subst j. exact Hj.
Qed.

(** The records pushed are the saved ones, whatever the order. *)
Lemma pushed_perm (outs : list (worker_outcome jsnum)) (completion : list nat) :
  completion_order (List.length outs) completion = true ->
  Permutation (pushed outs completion) (flat_map saved outs).
Proof.
  intro H. rewrite <- pushed_in_order. unfold pushed.
  apply Permutation_flat_map, Permutation_sym, completion_order_perm, H.
Qed.

(** Every candidate ends in exactly one way. *)
Lemma outcomes_partition (outs : list (worker_outcome jsnum)) :
  existsb is_threw outs = false ->
  List.length outs
  = List.length (flat_map saved outs) + List.length (filter is_skipped outs)
    + List.length (filter is_abandoned outs).
Proof.
  induction outs as [|o outs IH]; cbn [existsb]; intro H.
  - reflexivity.
  - apply Bool.orb_false_iff in H. destruct H as [Ho H]. specialize (IH H).
    destruct o; cbn in *; try discriminate; lia.
Qed.

Lemma saved_codes_in (l : list SubjectStub) (c : string) :
  In c (map code (flat_map saved (map (worker cfg net) l))) ->
  In c (map stub_code l).
Proof.
  induction l as [|x l IH]; cbn [map flat_map].
  - intros [].
  - rewrite map_app, in_app_iff. intros [H|H].
    + left. destruct (worker cfg net x) as [| | |r|] eqn:E; cbn in H;
        try contradiction.
      destruct H as [<-|[]]. symmetry. apply (worker_saved x r E).
    + right. apply IH, H.
Qed.

Lemma saved_codes_NoDup (l : list SubjectStub) :
  NoDup (map stub_code l) ->
  NoDup (map code (flat_map saved (map (worker cfg net) l))).
Proof.
  induction l as [|x l IH]; cbn [map flat_map]; intro H.
  - constructor.
  - inversion H as [|c cs Hnotin Hnd]; subst.
    rewrite map_app. specialize (IH Hnd).
    destruct (worker cfg net x) as [| | |r|] eqn:E; cbn [saved map app];
      try exact IH.
    constructor; [|exact IH].
    intro Hin. apply Hnotin. apply saved_codes_in.
    rewrite <- (proj1 (worker_saved x r E)). exact Hin.
Qed.

Lemma candidates_NoDup (searchConfig : string) (itemsList : list SubjectStub) :
  candidates cfg net = Some (searchConfig, itemsList) ->
  NoDup (map stub_code itemsList).
Proof.
  intro H.
  destruct (PageFacts.candidates_search_items cfg net _ _ H)
    as [html [maxPage [l [_ ->]]]].
  apply dedup_NoDup_codes.
Qed.

(** The sorted records of a crawl do not depend on the completion order. *)
Lemma results_unique (itemsList : list SubjectStub) (c1 c2 : list nat) :
  NoDup (map stub_code itemsList) ->
  collation_sound (map stub_code itemsList) = true ->
  completion_order (List.length itemsList) c1 = true ->
  completion_order (List.length itemsList) c2 = true ->
  sort_by_code (pushed (map (worker cfg net) itemsList) c1)
  = sort_by_code (pushed (map (worker cfg net) itemsList) c2).
Proof.
  intros Hnd Hsound H1 H2.
  set (outs := map (worker cfg net) itemsList).
  assert (Hlen : List.length outs = List.length itemsList)
    by apply length_map.
  rewrite <- Hlen in H1, H2.
  pose proof (pushed_perm outs c1 H1) as P1.
  pose proof (pushed_perm outs c2 H2) as P2.
  apply (sort_by_code_unique (map stub_code itemsList) Hsound).
  - apply (Permutation_Forall (Permutation_sym P1)).
    apply Forall_forall. intros r Hr. apply saved_codes_in.
    apply in_map, Hr.
  - apply (Permutation_NoDup (Permutation_map code (Permutation_sym P1))).
    apply saved_codes_NoDup, Hnd.
  - apply Permutation_trans with (flat_map saved outs);
      [exact P1|apply Permutation_sym, P2].
Qed.

End Run.




End RunFacts.

Module SnapshotFacts.

Import CrawlFacts ParseFacts DedupFacts RunFacts.

Section Snapshot.

Context {P : Platform}.
Variable cfg : Config.
Variable net : network.

(** The items of a snapshot are records that workers saved. *)
Lemma items_saved (completion : list nat) (now : string) (snap : Snapshot jsnum)
    (r : SubjectRecord jsnum) :
  run cfg net completion now = Done snap -> In r (items snap) ->
  exists item, worker cfg net item = Saved r.
Proof.
  unfold run.
  destruct (candidates cfg net) as [[searchConfig itemsList]|]; [|discriminate].
  destruct (existsb is_threw (map (worker cfg net) itemsList)); [discriminate|].
  intros H Hr. inversion H; subst snap; clear H. cbn [items] in Hr.
  apply (Permutation_in _ (sort_by_code_perm _)) in Hr.
  apply pushed_In in Hr. apply in_map_iff in Hr.
  destruct Hr as [item [E _]]. exists item. exact E.
Qed.

Lemma items_Forall (Q : SubjectRecord jsnum -> Prop) (completion : list nat)
    (now : string) :
  (forall item r, worker cfg net item = Saved r -> Q r) ->
  match run cfg net completion now with
  | Done snap => Forall Q (items snap)
  | Failed => True
  end.
Proof.
  intro HQ. destruct (run cfg net completion now) as [|snap] eqn:E; [exact I|].
  apply Forall_forall. intros r Hr.
  destruct (items_saved completion now snap r E Hr) as [item Hitem].
  exact (HQ item r Hitem).
Qed.

(** When the detail page of a candidate is fetched and what abandons it. *)
Lemma worker_abandoned (item : SubjectStub) :
  worker cfg net item = Abandoned <->
  (onlySemester1 cfg && truthy (stub_offered item)
   && negb (Regex.test re_semester1 (stub_offered item)) = false /\
   exists subjectUrl,
     URL_resolve (href_or_default item) = Some subjectUrl /\
     Fetch.raised (fetch net subjectUrl) = true).
Proof.
  unfold worker.
  destruct (onlySemester1 cfg && truthy (stub_offered item)
            && negb (Regex.test re_semester1 (stub_offered item))).
  - split; [discriminate|]. intros [H _]. discriminate.
  - destruct (URL_resolve (href_or_default item)) as [subjectUrl|].
    + destruct (fetch net subjectUrl) as [subjectHtml|e] eqn:Ef.
      * destruct (onlySemester1 cfg
                  && truthy (parseAvailability (cheerio_load subjectHtml))
                  && negb (Regex.test re_semester1
                             (parseAvailability (cheerio_load subjectHtml))));
          (split; [discriminate|]);
          intros [_ [u [Hu Hr]]]; inversion Hu; subst u;
          rewrite Ef in Hr; discriminate.
      * split; [|reflexivity]. intros _. split; [reflexivity|].
        exists subjectUrl. split; [reflexivity|]. rewrite Ef. reflexivity.
    + split; [discriminate|]. intros [_ [u [Hu _]]]. discriminate.
Qed.

(** The two checks of the semester filter, and nothing else, skip. *)
Lemma worker_skipped (item : SubjectStub) :
  is_skipped (worker cfg net item) = true <->
  onlySemester1 cfg = true /\
  ((truthy (stub_offered item) = true /\
    Regex.test re_semester1 (stub_offered item) = false) \/
   exists subjectUrl subjectHtml,
     URL_resolve (href_or_default item) = Some subjectUrl /\
     fetch net subjectUrl = Fetch.Returned subjectHtml /\
     truthy (parseAvailability (cheerio_load subjectHtml)) = true /\
     Regex.test re_semester1 (parseAvailability (cheerio_load subjectHtml))
     = false).
Proof.
  unfold worker.
  destruct (onlySemester1 cfg) eqn:Eo; cbn [andb].
  - destruct (truthy (stub_offered item)) eqn:Et,
             (Regex.test re_semester1 (stub_offered item)) eqn:Eh; cbn [andb negb].
    all: try (split; [intros _|reflexivity];
              split; [reflexivity|left; split; reflexivity]).
    all: destruct (URL_resolve (href_or_default item)) as [subjectUrl|];
      [destruct (fetch net subjectUrl) as [subjectHtml|e] eqn:Ef;
       [destruct (truthy (parseAvailability (cheerio_load subjectHtml))) eqn:Ea,
                 (Regex.test re_semester1
                    (parseAvailability (cheerio_load subjectHtml))) eqn:Es;
        cbn [andb negb is_skipped]|cbn [is_skipped]]
      |cbn [is_skipped]].
    all: split; [intro Hs|intros [_ [[H1 H2]|[u [h [Hu [Hf [H1 H2]]]]]]]].
    all: try discriminate.
    all: try reflexivity.
    all: try (inversion Hu; subst u; rewrite Ef in Hf; inversion Hf; subst h;
              congruence).
    all: split; [reflexivity|]; right; exists subjectUrl, subjectHtml.
    all: split; [reflexivity|]; split; [exact Ef|]; split; assumption.
  - split.
    + destruct (URL_resolve (href_or_default item)) as [subjectUrl|];
        [destruct (fetch net subjectUrl)|]; cbn; discriminate.
    + intros [H _]. discriminate.
Qed.

End Snapshot.

(** A candidate offered in another semester is skipped at the hint. *)
Example worker_skips_semester2 :
  worker (P := Handbook.platform) Handbook.cfg Handbook.net
    {| stub_code := "COMP10001"; stub_name := "Foundations of Computing";
       stub_href := Some "/2026/subjects/comp10001";
       stub_offered := "Semester 2" |}
  = SkippedByHint.
Proof. vm_compute. reflexivity. Qed.

(** C10.  In a completed crawl, [skipped] counts the candidates that one of
    the two semester checks rejected; a candidate whose detail page could
    not be fetched is in neither [totalSaved] nor [skipped].  So
    [totalFound] is [totalSaved + skipped] plus the number of abandoned
    candidates: never less than [totalSaved + skipped], and more as soon as
    one detail fetch fails. *)
Theorem stats_leave_out_abandoned :
  forall (P : Platform) (cfg : Config) (net : network)
         (completion : list nat) (now : string) (snap : Snapshot jsnum),
    run cfg net completion now = Done snap ->
    completion_order (List.length (candidate_codes cfg net)) completion = true ->
    skipped (stats snap) = List.length (filter is_skipped (outcomes cfg net)) /\
    totalFound (stats snap)
    = totalSaved (stats snap) + skipped (stats snap)
      + List.length (filter is_abandoned (outcomes cfg net)) /\
    totalFound (stats snap) >= totalSaved (stats snap) + skipped (stats snap) /\
    (existsb is_abandoned (outcomes cfg net) = true ->
     totalFound (stats snap) > totalSaved (stats snap) + skipped (stats snap)).
Proof.
  intros P cfg net completion now snap Hrun Hc.
  unfold run in Hrun. unfold candidate_codes in Hc. unfold outcomes.
  destruct (candidates cfg net) as [[searchConfig itemsList]|]; [|discriminate].
  destruct (existsb is_threw (map (worker cfg net) itemsList)) eqn:Et;
    [discriminate|].
  inversion Hrun; subst snap; clear Hrun. cbn [stats totalFound totalSaved skipped].
  rewrite length_map in Hc.
  set (outs := map (worker cfg net) itemsList) in *.
  assert (Hlen : List.length outs = List.length itemsList) by apply length_map.
  rewrite <- Hlen in Hc.
  rewrite (Permutation_length (sort_by_code_perm _)).
  rewrite (Permutation_length (pushed_perm outs completion Hc)).
  pose proof (outcomes_partition outs Et) as Hpart.
  split; [reflexivity|]. split; [lia|]. split; [lia|].
  intro Hab. apply existsb_exists in Hab. destruct Hab as [o [Ho Hab]].
  assert (Hpos : 0 < List.length (filter is_abandoned outs)).
  { assert (Hin : In o (filter is_abandoned outs))
      by (apply filter_In; split; assumption).
    destruct (filter is_abandoned outs); [contradiction|cbn; lia]. }
  lia.
Qed.

(** The witness of C10: in the example handbook PHYC10001 is abandoned:
    four candidates, two saved, one skipped. *)
Lemma stats_leave_out_abandoned_witness :
  exists snap : Snapshot (@jsnum Handbook.platform),
    run (P := Handbook.platform) Handbook.cfg Handbook.net [2; 3; 1; 0]
        "2026-02-01T00:00:00.000Z" = Done snap /\
    totalFound (stats snap) = 4 /\
    totalFound (stats snap) > totalSaved (stats snap) + skipped (stats snap).
Proof.
  eexists. split; [vm_compute; reflexivity|].
  split; [reflexivity|].
  refine (proj2 (proj2 (proj2
    (stats_leave_out_abandoned Handbook.platform Handbook.cfg Handbook.net
       [2; 3; 1; 0] "2026-02-01T00:00:00.000Z" _ _ _))) _).
  - vm_compute. reflexivity.
  - vm_compute. reflexivity.
  - vm_compute. reflexivity.
Defined.

(** C1, as the code has it.  The instructor emails of every record of a
    snapshot are pairwise different strings: the set that collects them
    compares strings exactly, letter case included. *)
Theorem instructorEmails_distinct :
  forall (P : Platform) (cfg : Config) (net : network)
         (completion : list nat) (now : string),
    (forall (doc : document) (label : string),
       NoDup (parseSemesterEmails doc label)) /\
    match run cfg net completion now with
    | Done snap => Forall (fun r => NoDup (instructorEmails r)) (items snap)
    | Failed => True
    end.
Proof.
  intros P cfg net completion now. split.
  - apply parseSemesterEmails_NoDup.
  - apply items_Forall. intros item r H.
    apply (worker_saved cfg net item r H).
Qed.

(** C1 as stated fails: the record of MAST10006 in the example handbook
    keeps an address twice, in two letter cases. *)
Lemma instructorEmails_differ_in_case_only :
  ~ (forall (snap : Snapshot (@jsnum Handbook.platform))
            (r : SubjectRecord (@jsnum Handbook.platform)),
       run (P := Handbook.platform) Handbook.cfg Handbook.net [0; 1; 2; 3]
           "2026-02-01T00:00:00.000Z" = Done snap ->
       In r (items snap) ->
       NoDup (map toLowerCase (instructorEmails r))).
Proof.
  intro H.
  eassert (E : run (P := Handbook.platform) Handbook.cfg Handbook.net [0; 1; 2; 3]
                 "2026-02-01T00:00:00.000Z" = Done _)
    by (vm_compute; reflexivity).
  specialize (H _ _ E (or_introl eq_refl)).
  vm_compute in H.
  inversion H as [|x l Hnotin _]. apply Hnotin. left. reflexivity.
Qed.

(** C7.  Every table that [parseAssessmentTables] returns has a row, and so
    has every table of every record of a snapshot. *)
Theorem assessment_tables_have_rows :
  forall (P : Platform) (cfg : Config) (net : network)
         (completion : list nat) (now : string),
    (forall (doc : document) (label : string),
       Forall (fun t => 1 <= List.length (rows t))
              (parseAssessmentTables doc label)) /\
    match run cfg net completion now with
    | Done snap =>
        Forall (fun r => Forall (fun t => 1 <= List.length (rows t))
                                (assessment_tables r))
               (items snap)
    | Failed => True
    end.
Proof.
  intros P cfg net completion now. split.
  - apply parseAssessmentTables_rows.
  - apply items_Forall. intros item r H.
    apply (worker_saved cfg net item r H).
Qed.

End SnapshotFacts.

(** ** The matcher *)

Module RegexFacts.

Lemma append_nil_r (s : string) : s ++ "" = s.
Proof. induction s as [|c s IH]; cbn; [reflexivity|rewrite IH; reflexivity]. Qed.

Lemma append_assoc (a b c : string) : (a ++ b) ++ c = a ++ b ++ c.
Proof. induction a as [|x a IH]; cbn; [reflexivity|rewrite IH; reflexivity]. Qed.

Lemma length_append (a b : string) :
  String.length (a ++ b) = String.length a + String.length b.
Proof. induction a as [|x a IH]; cbn; [reflexivity|rewrite IH; reflexivity]. Qed.

Lemma str_all_append (p : ascii -> bool) (a b : string) :
  str_all p (a ++ b) = str_all p a && str_all p b.
Proof.
  induction a as [|x a IH]; cbn; [reflexivity|].
  rewrite IH, Bool.andb_assoc. reflexivity.
Qed.

Lemma str_all_imp (p q : ascii -> bool) (s : string) :
  (forall c, p c = true -> q c = true) -> str_all p s = true -> str_all q s = true.
Proof.
  intro Hpq. induction s as [|c s IH]; cbn; [reflexivity|].
  intro H. apply andb_prop in H. destruct H as [Hc Hs].
  rewrite (Hpq c Hc), (IH Hs). reflexivity.
Qed.

(** What a quantified class takes, and where the rest of the pattern goes
    on. *)
Lemma greedy_sound (p : ascii -> bool) (k : string -> option result) :
  forall (s : string) (l : nat) (h : option nat) (r : result),
    greedy p k l h s = Some r ->
    exists lex tail r0,
      r = (lex :: fst r0, snd r0) /\ k tail = Some r0 /\
      s = lex ++ tail /\
      str_all p lex = true /\ l <= String.length lex /\
      match h with
      | Some n => String.length lex <= n
      | None => True
      end.
Proof.
  assert (Hstop : forall s l h r,
            (if l =? 0 then option_map open_lexeme (k s) else None) = Some r ->
            exists lex tail r0,
              r = (lex :: fst r0, snd r0) /\ k tail = Some r0 /\
              s = lex ++ tail /\
              str_all p lex = true /\ l <= String.length lex /\
              match h with
              | Some n => String.length lex <= n
              | None => True
              end).
  { intros s l h r H. destruct (l =? 0) eqn:El; [|discriminate].
    apply Nat.eqb_eq in El. subst l.
    destruct (k s) as [r0|] eqn:Ek; [|discriminate].
    cbn in H. inversion H; subst r; clear H.
    exists "", s, r0. unfold open_lexeme. cbn.
    split; [reflexivity|]. split; [exact Ek|]. split; [reflexivity|].
    split; [reflexivity|]. split; [lia|].
    destruct h; [lia|exact I]. }
  induction s as [|c s IH]; intros l h r H; cbn [greedy] in H.
  - apply (Hstop _ _ _ _ H).
  - destruct (can_take h && p c) eqn:Et; [|apply (Hstop _ _ _ _ H)].
    destruct (greedy p k (Init.Nat.pred l) (dec h) s) as [r1|] eqn:Er;
      [|apply (Hstop _ _ _ _ H)].
    inversion H; subst r; clear H.
    apply andb_prop in Et. destruct Et as [Hh Hc].
    destruct (IH _ _ _ Er) as [lex [tail [r0 [-> [Hk [-> [Hall [Hl Hb]]]]]]]].
    exists (String c lex), tail, r0. cbn [cons_char fst snd].
    split; [reflexivity|]. split; [exact Hk|]. split; [reflexivity|].
    split; [cbn; rewrite Hc, Hall; reflexivity|].
    split; [cbn; lia|].
    destruct h as [[|n]|]; cbn in *; [discriminate|lia|exact I].
Qed.

(** A match takes, atom by atom, a text of the atom's class and size; the
    texts taken and the rest make up the text matched against. *)
Lemma match_here_sound (re : regex) :
  forall (s : string) (r : result),
    match_here re s = Some r ->
    Forall2 lexeme_ok re (fst r) /\ s = concat_strings (fst r) ++ snd r.
Proof.
  induction re as [|a re IH]; intros s r H; cbn [match_here] in H.
  - inversion H; subst r. cbn. split; [constructor|reflexivity].
  - destruct (greedy_sound _ _ _ _ _ _ H)
      as [lex [tail [r0 [-> [Hk [-> [Hall [Hl Hb]]]]]]]].
    destruct (IH _ _ Hk) as [Hf Ht]. cbn [fst snd]. split.
    + constructor; [|exact Hf]. repeat split; assumption.
    + change (concat_strings (lex :: fst r0))
        with (lex ++ concat_strings (fst r0)).
      rewrite Ht at 1. rewrite append_assoc. reflexivity.
Qed.

Lemma matched_length_sound (re : regex) (s : string) (r : result) :
  match_here re s = Some r ->
  matched_length s r = String.length (concat_strings (fst r)).
Proof.
  intro H. destruct (match_here_sound re s r H) as [_ Hs].
  unfold matched_length. rewrite Hs at 1. rewrite length_append. lia.
Qed.

Lemma substring_append (a b : string) :
  String.substring 0 (String.length a) (a ++ b) = a.
Proof. induction a as [|x a IH]; cbn; [destruct b; reflexivity|rewrite IH; reflexivity]. Qed.

Lemma matched_text_sound (re : regex) (s : string) (r : result) :
  match_here re s = Some r -> matched_text s r = concat_strings (fst r).
Proof.
  intro H. unfold matched_text. rewrite (matched_length_sound re s r H).
  destruct (match_here_sound re s r H) as [_ Hs]. rewrite Hs at 1.
  apply substring_append.
Qed.

Lemma prefix_all_append (p : ascii -> bool) (a b : string) :
  str_all p a = true -> prefix_all p (String.length a) (a ++ b) = true.
Proof.
  induction a as [|x a IH]; cbn; [reflexivity|].
  intro H. apply andb_prop in H. destruct H as [Hx Ha].
  rewrite Hx, (IH Ha). reflexivity.
Qed.

Lemma lexemes_all (p : ascii -> bool) (re : regex) (lexs : list string) :
  Forall (fun a => forall c, cls a c = true -> p c = true) re ->
  Forall2 lexeme_ok re lexs ->
  str_all p (concat_strings lexs) = true.
Proof.
  intros Hre H. induction H as [|a lex re lexs Hok H2 IH].
  - reflexivity.
  - inversion Hre as [|a' re' Ha Hre']; subst.
    change (concat_strings (lex :: lexs)) with (lex ++ concat_strings lexs).
    rewrite str_all_append, (IH Hre'), Bool.andb_true_r.
    destruct Hok as [Hall _]. apply (str_all_imp _ _ _ Ha Hall).
Qed.

(** A pattern whose classes all lie in [p] matches text in [p] only. *)
Lemma match_here_prefix_all (p : ascii -> bool) (re : regex) (s : string)
    (r : result) :
  Forall (fun a => forall c, cls a c = true -> p c = true) re ->
  match_here re s = Some r ->
  prefix_all p (matched_length s r) s = true.
Proof.
  intros Hre H. rewrite (matched_length_sound re s r H).
  destruct (match_here_sound re s r H) as [Hf Hs]. rewrite Hs at 1.
  apply prefix_all_append, (lexemes_all p re); assumption.
Qed.

End RegexFacts.

(** ** Text normalization *)

Module TextFacts.

Import RegexFacts.

Lemma str_rev_append_spec (s acc : string) :
  str_rev_append s acc = str_rev s ++ acc.
Proof.
  unfold str_rev. revert acc. induction s as [|c s IH]; intro acc; cbn.
  - reflexivity.
  - rewrite (IH (String c acc)), (IH (String c "")), append_assoc. reflexivity.
Qed.

Lemma str_rev_cons (c : ascii) (s : string) :
  str_rev (String c s) = str_rev s ++ String c "".
Proof. unfold str_rev at 1. cbn. apply str_rev_append_spec. Qed.

Lemma str_rev_app (a b : string) : str_rev (a ++ b) = str_rev b ++ str_rev a.
Proof.
  induction a as [|c a IH]; cbn [append].
  - cbn. rewrite append_nil_r. reflexivity.
  - rewrite !str_rev_cons, IH, append_assoc. reflexivity.
Qed.

Lemma str_rev_involutive (s : string) : str_rev (str_rev s) = s.
Proof.
  induction s as [|c s IH]; [reflexivity|].
  rewrite str_rev_cons, str_rev_app, IH. reflexivity.
Qed.

Lemma starts_with_append (p : ascii -> bool) (a b : string) :
  starts_with p (a ++ b)
  = match a with EmptyString => starts_with p b | _ => starts_with p a end.
Proof. destruct a; reflexivity. Qed.

Lemma str_rev_empty (s : string) : str_rev s = "" -> s = "".
Proof.
  destruct s as [|c s]; [reflexivity|]. rewrite str_rev_cons.
  destruct (str_rev s); discriminate.
Qed.

Lemma starts_with_rev (p : ascii -> bool) (s : string) :
  starts_with p (str_rev s) = ends_with p s.
Proof.
  induction s as [|c s IH]; [reflexivity|].
  rewrite str_rev_cons, starts_with_append. cbn [ends_with].
  destruct s as [|c' s']; [reflexivity|].
  destruct (str_rev (String c' s')) eqn:E.
  - apply str_rev_empty in E. discriminate.
  - exact IH.
Qed.

Lemma ends_with_rev (p : ascii -> bool) (s : string) :
  ends_with p (str_rev s) = starts_with p s.
Proof. rewrite <- starts_with_rev, str_rev_involutive. reflexivity. Qed.

Lemma drop_while_id (p : ascii -> bool) (s : string) :
  starts_with p s = false -> drop_while p s = s.
Proof. destruct s as [|c s]; cbn; [reflexivity|]. intros ->. reflexivity. Qed.

Lemma ends_with_drop_while (p q : ascii -> bool) (s : string) :
  ends_with p (drop_while q s) = true -> ends_with p s = true.
Proof.
  induction s as [|c s IH]; cbn [drop_while]; [auto|].
  destruct (q c); [|auto]. intro H. specialize (IH H).
  cbn [ends_with]. destruct s; [discriminate|exact IH].
Qed.

Lemma trim_starts (s : string) : starts_with Chars.space (trim s) = false.
Proof.
  unfold trim. rewrite starts_with_rev.
  destruct (ends_with Chars.space
              (drop_while Chars.space (str_rev (drop_while Chars.space s))))
    eqn:E; [|reflexivity].
  apply ends_with_drop_while in E. rewrite ends_with_rev in E.
  rewrite ParseFacts.drop_while_head in E. discriminate.
Qed.

Lemma trim_ends (s : string) : ends_with Chars.space (trim s) = false.
Proof. unfold trim. rewrite ends_with_rev. apply ParseFacts.drop_while_head. Qed.

Lemma trim_id (s : string) :
  starts_with Chars.space s = false -> ends_with Chars.space s = false ->
  trim s = s.
Proof.
  intros H1 H2. unfold trim. rewrite (drop_while_id _ s H1).
  rewrite drop_while_id by (rewrite starts_with_rev; exact H2).
  apply str_rev_involutive.
Qed.

Lemma no_adjacent_tail (p : ascii -> bool) (c : ascii) (s : string) :
  no_adjacent p (String c s) = true -> no_adjacent p s = true.
Proof. cbn. intro H. apply andb_prop in H. apply H. Qed.

Lemma no_adjacent_drop_while (p q : ascii -> bool) (s : string) :
  no_adjacent p s = true -> no_adjacent p (drop_while q s) = true.
Proof.
  induction s as [|c s IH]; cbn [drop_while]; intro H; [reflexivity|].
  destruct (q c); [|exact H]. apply IH, (no_adjacent_tail p c s H).
Qed.

Lemma no_adjacent_rev_append (p : ascii -> bool) (s acc : string) :
  no_adjacent p s = true -> no_adjacent p acc = true ->
  starts_with p s && starts_with p acc = false ->
  no_adjacent p (str_rev_append s acc) = true.
Proof.
  revert acc. induction s as [|c s IH]; intros acc Hs Ha Hsa;
    cbn [str_rev_append]; [exact Ha|].
  cbn [no_adjacent] in Hs. apply andb_prop in Hs. destruct Hs as [Hc Hs].
  cbn [starts_with] in Hsa.
  apply IH; [exact Hs| |].
  - cbn [no_adjacent]. rewrite Ha, Hsa. reflexivity.
  - cbn [starts_with]. rewrite Bool.andb_comm.
    apply Bool.negb_true_iff, Hc.
Qed.

Lemma no_adjacent_rev (p : ascii -> bool) (s : string) :
  no_adjacent p s = true -> no_adjacent p (str_rev s) = true.
Proof.
  intro H. apply no_adjacent_rev_append; [exact H|reflexivity|].
  cbn. apply Bool.andb_false_r.
Qed.

Lemma no_adjacent_trim (s : string) :
  no_adjacent Chars.space s = true -> no_adjacent Chars.space (trim s) = true.
Proof.
  intro H. unfold trim.
  apply no_adjacent_rev, no_adjacent_drop_while,
        no_adjacent_rev, no_adjacent_drop_while, H.
Qed.

Lemma no_adjacent_no_blank_line (s : string) :
  no_adjacent Chars.space s = true -> no_blank_line s = true.
Proof.
  induction s as [|c s IH]; cbn; [reflexivity|]. intro H.
  apply andb_prop in H. destruct H as [Hc Hs]. rewrite (IH Hs), Bool.andb_true_r.
  destruct (Chars.newline c) eqn:Ec; [|reflexivity].
  rewrite (ParseFacts.newline_space c Ec) in Hc. cbn [andb] in *.
  destruct s as [|c' s']; [reflexivity|]. cbn [starts_with] in *.
  destruct (Chars.newline c') eqn:Ec'; [|reflexivity].
  rewrite (ParseFacts.newline_space c' Ec') in Hc. discriminate.
Qed.

(** [/\s{2,}/] matches where two white-space code units begin the text, and
    takes the whole run. *)
Lemma match_spaces (s : string) :
  match match_here re_spaces s with
  | Some r =>
      exists c s', s = String c s' /\ Chars.space c = true /\
                   starts_with Chars.space s' = true /\
                   snd r = drop_while Chars.space s'
  | None =>
      match s with
      | String c s' => Chars.space c && starts_with Chars.space s' = false
      | EmptyString => True
      end
  end.
Proof.
  change (match_here re_spaces s)
    with (greedy Chars.space (match_here []) 2 None s).
  destruct s as [|c s']; cbn [greedy Nat.eqb]; [exact I|].
  cbn [can_take andb dec Init.Nat.pred].
  destruct (Chars.space c) eqn:Ec; cbn [andb]; [|reflexivity].
  pose proof (ParseFacts.greedy_plus Chars.space s') as H.
  destruct (greedy Chars.space (match_here []) 1 None s') as [r|].
  - destruct H as [H1 H2]. exists c, s'.
    split; [reflexivity|]. split; [exact Ec|]. split; [exact H1|].
    rewrite ParseFacts.snd_cons_char. exact H2.
  - exact H.
Qed.

Lemma replace_spaces_invariant (s : string) (k : nat) :
  no_adjacent Chars.space (replace_from re_spaces " " s k) = true /\
  (starts_with Chars.space (replace_from re_spaces " " s k) = true ->
   starts_with Chars.space (str_skip k s) = true).
Proof.
  revert k. induction s as [|c s IH]; intro k.
  - destruct k; cbn; split; auto.
  - destruct k as [|k]; cbn [replace_from str_skip]; [|apply IH].
    pose proof (match_spaces (String c s)) as Hm.
    destruct (match_here re_spaces (String c s)) as [r|].
    + destruct Hm as [c0 [s0 [E [Hc [Hs Hr]]]]]. inversion E; subst c0 s0.
      unfold matched_length. rewrite Hr. cbn [String.length].
      pose proof (ParseFacts.drop_while_length Chars.space s) as Hlen.
      replace (S (String.length s) - String.length (drop_while Chars.space s))
        with (S (String.length s - String.length (drop_while Chars.space s)))
        by lia.
      destruct (IH (String.length s - String.length (drop_while Chars.space s)))
        as [IH1 IH2].
      rewrite ParseFacts.str_skip_drop_while in IH2.
      change (" " ++ ?x) with (String " "%char x).
      cbn [no_adjacent starts_with]. split; [|intros _; exact Hc].
      rewrite IH1, Bool.andb_true_r.
      destruct (starts_with Chars.space
                  (replace_from re_spaces " " s
                     (String.length s - String.length (drop_while Chars.space s))))
        eqn:Est; [|rewrite Bool.andb_false_r; reflexivity].
      specialize (IH2 eq_refl).
      rewrite ParseFacts.drop_while_head in IH2. discriminate.
    + destruct (IH 0) as [IH1 IH2]. cbn [str_skip] in IH2.
      cbn [no_adjacent starts_with]. split; [|auto].
      rewrite IH1, Bool.andb_true_r.
      destruct (Chars.space c) eqn:Ec; [|reflexivity].
      destruct (starts_with Chars.space (replace_from re_spaces " " s 0))
        eqn:Est; [|reflexivity].
      specialize (IH2 eq_refl). cbn [andb] in Hm. congruence.
Qed.

Lemma min_length_sound (re : regex) (lexs : list string) :
  Forall2 lexeme_ok re lexs ->
  min_length re <= String.length (concat_strings lexs).
Proof.
  intro H. induction H as [|a lex re lexs Hok H2 IH]; [cbn; lia|].
  change (concat_strings (lex :: lexs)) with (lex ++ concat_strings lexs).
  rewrite length_append. destruct Hok as [_ [Hl _]].
  unfold min_length in *. cbn [fold_right]. lia.
Qed.

(** A pattern of white space that takes two code units or more finds
    nothing in text without two white-space code units in a row. *)
Lemma match_here_none (re : regex) (s : string) :
  in_space re -> 2 <= min_length re ->
  no_adjacent Chars.space s = true -> match_here re s = None.
Proof.
  intros Hre Hmin Hs. destruct (match_here re s) as [r|] eqn:E; [|reflexivity].
  exfalso.
  pose proof (match_here_prefix_all Chars.space re s r Hre E) as Hp.
  pose proof (matched_length_sound re s r E) as Hl.
  destruct (match_here_sound re s r E) as [Hf _].
  pose proof (min_length_sound re _ Hf) as Hm.
  rewrite <- Hl in Hm. remember (matched_length s r) as m eqn:Em.
  destruct m as [|[|n]]; [lia|lia|].
  destruct s as [|c [|c' s']]; cbn in Hp; try discriminate.
  - rewrite Bool.andb_false_r in Hp. discriminate.
  - cbn in Hs. destruct (Chars.space c), (Chars.space c'); discriminate.
Qed.

Lemma replace_all_id (re : regex) (rep s : string) :
  in_space re -> 2 <= min_length re ->
  no_adjacent Chars.space s = true -> replace_all re rep s = s.
Proof.
  intros Hre Hmin. unfold replace_all. induction s as [|c s IH]; intro H.
  - cbn. rewrite (match_here_none re "" Hre Hmin eq_refl). reflexivity.
  - cbn [replace_from]. rewrite (match_here_none re _ Hre Hmin H).
    rewrite (IH (no_adjacent_tail _ c s H)). reflexivity.
Qed.

Lemma in_space_space_newline : in_space re_space_newline.
Proof.
  repeat constructor; cbn; auto. apply ParseFacts.newline_space.
Qed.

Lemma in_space_newline_space : in_space re_newline_space.
Proof.
  repeat constructor; cbn; auto. apply ParseFacts.newline_space.
Qed.

Lemma in_space_spaces : in_space re_spaces.
Proof. repeat constructor; cbn; auto. Qed.

Lemma in_space_newlines3 : in_space re_newlines3.
Proof. repeat constructor; cbn. apply ParseFacts.newline_space. Qed.

Lemma clean_cleanText (text : string) : clean (cleanText text) = true.
Proof.
  unfold clean, cleanText.
  rewrite trim_starts, trim_ends. cbn [negb]. rewrite !Bool.andb_true_r.
  apply no_adjacent_trim.
  set (t := replace_all re_spaces " " _).
  assert (Ht : no_adjacent Chars.space t = true)
    by apply replace_spaces_invariant.
  rewrite (replace_all_id re_newlines3 _ t in_space_newlines3); [exact Ht| |exact Ht].
  cbn. lia.
Qed.

(** Clean text is left as it is. *)
Lemma cleanText_fixed (s : string) : clean s = true -> cleanText s = s.
Proof.
  unfold clean. intro H. apply andb_prop in H. destruct H as [H H3].
  apply andb_prop in H. destruct H as [H1 H2].
  apply Bool.negb_true_iff in H2, H3.
  unfold cleanText.
  rewrite (replace_all_id re_space_newline LF s in_space_space_newline)
    by (cbn; lia || exact H1).
  rewrite (replace_all_id re_newline_space LF s in_space_newline_space)
    by (cbn; lia || exact H1).
  rewrite (replace_all_id re_spaces " " s in_space_spaces)
    by (cbn; lia || exact H1).
  rewrite (replace_all_id re_newlines3 (LF ++ LF) s in_space_newlines3)
    by (cbn; lia || exact H1).
  apply trim_id; assumption.
Qed.

Lemma cleanText_twice (text : string) :
  cleanText (cleanText text) = cleanText text.
Proof. apply cleanText_fixed, clean_cleanText. Qed.

(** X1.  The text that [cleanText] returns has no two white-space code units
    in a row and none at its ends. *)
Theorem cleanText_clean :
  forall text : string, clean (cleanText text) = true.
Proof. intro text. apply clean_cleanText. Qed.

(** X2.  [cleanText] is idempotent. *)
Theorem cleanText_idempotent :
  forall text : string, cleanText (cleanText text) = cleanText text.
Proof. intro text. apply cleanText_twice. Qed.

End TextFacts.

Module StripFacts.

Import RegexFacts TextFacts.

Lemma strip_append (a b : string) : strip (a ++ b) = strip a ++ strip b.
Proof.
  induction a as [|c a IH]; cbn; [reflexivity|].
  destruct (Chars.space c); cbn; rewrite IH; reflexivity.
Qed.

Lemma strip_rev (s : string) : strip (str_rev s) = str_rev (strip s).
Proof.
  induction s as [|c s IH]; [reflexivity|].
  rewrite str_rev_cons, strip_append, IH. cbn [strip].
  destruct (Chars.space c).
  - cbn. apply append_nil_r.
  - rewrite str_rev_cons. reflexivity.
Qed.

Lemma strip_drop_while (s : string) : strip (drop_while Chars.space s) = strip s.
Proof.
  induction s as [|c s IH]; cbn; [reflexivity|].
  destruct (Chars.space c) eqn:E; [exact IH|]. cbn. rewrite E. reflexivity.
Qed.

Lemma strip_trim (s : string) : strip (trim s) = strip s.
Proof.
  unfold trim.
  rewrite strip_rev, strip_drop_while, strip_rev, strip_drop_while.
  apply str_rev_involutive.
Qed.

Lemma strip_all_space (s : string) : str_all Chars.space s = true <-> strip s = "".
Proof.
  induction s as [|c s IH]; cbn; [tauto|].
  destruct (Chars.space c); cbn; [exact IH|]. split; discriminate.
Qed.

Lemma strip_no_space (s : string) : str_all (fun c => negb (Chars.space c)) (strip s) = true.
Proof.
  induction s as [|c s IH]; cbn; [reflexivity|].
  destruct (Chars.space c) eqn:E; [exact IH|]. cbn. rewrite E, IH. reflexivity.
Qed.

(** Replacing white space by white space keeps the rest of the text.  The
    [k] code units that a match still covers are white space. *)
Lemma strip_replace (re : regex) (rep : string) :
  in_space re -> str_all Chars.space rep = true ->
  forall (s : string) (k : nat),
    prefix_all Chars.space k s = true ->
    strip (replace_from re rep s k) = strip s.
Proof.
  intros Hre Hrep.
  assert (Hr : strip rep = "") by (apply strip_all_space, Hrep).
  induction s as [|c s IH]; intros k Hk.
  - destruct k; [|discriminate]. cbn.
    destruct (match_here re ""); [exact Hr|reflexivity].
  - destruct k as [|k]; cbn [replace_from].
    + destruct (match_here re (String c s)) as [r|] eqn:Em.
      * pose proof (match_here_prefix_all Chars.space re _ r Hre Em) as Hp.
        destruct (matched_length (String c s) r) as [|n].
        -- rewrite strip_append, Hr. cbn [append strip].
           rewrite (IH 0 eq_refl). reflexivity.
        -- cbn [prefix_all] in Hp. apply andb_prop in Hp.
           destruct Hp as [Hc Hp].
           rewrite strip_append, Hr. cbn [append strip]. rewrite Hc.
           apply IH, Hp.
      * cbn [strip]. rewrite (IH 0 eq_refl). reflexivity.
    + cbn [prefix_all] in Hk. apply andb_prop in Hk. destruct Hk as [Hc Hk].
      cbn [strip]. rewrite Hc. apply IH, Hk.
Qed.

Lemma strip_replace_all (re : regex) (rep s : string) :
  in_space re -> str_all Chars.space rep = true ->
  strip (replace_all re rep s) = strip s.
Proof. intros Hre Hrep. apply strip_replace; auto. Qed.

Lemma strip_cleanText (text : string) : strip (cleanText text) = strip text.
Proof.
  unfold cleanText. rewrite strip_trim.
  rewrite (strip_replace_all re_newlines3) by (apply in_space_newlines3 || reflexivity).
  rewrite (strip_replace_all re_spaces) by (apply in_space_spaces || reflexivity).
  rewrite (strip_replace_all re_newline_space)
    by (apply in_space_newline_space || reflexivity).
  rewrite (strip_replace_all re_space_newline)
    by (apply in_space_space_newline || reflexivity).
  reflexivity.
Qed.

Lemma clean_all_space_empty (s : string) :
  clean s = true -> str_all Chars.space s = true -> s = "".
Proof.
  unfold clean. intros H Ha. destruct s as [|c s]; [reflexivity|].
  cbn in Ha. apply andb_prop in Ha. destruct Ha as [Hc _].
  cbn [starts_with] in H. rewrite Hc in H. cbn in H.
  rewrite Bool.andb_false_r in H. discriminate.
Qed.

Lemma cleanText_empty (text : string) :
  cleanText text = "" <-> str_all Chars.space text = true.
Proof.
  split; intro H.
  - apply strip_all_space. rewrite <- strip_cleanText, H. reflexivity.
  - apply clean_all_space_empty; [apply clean_cleanText|].
    apply strip_all_space. rewrite strip_cleanText.
    apply strip_all_space, H.
Qed.

(** X3.  [cleanText] changes white space only: without white space, the text
    it returns is the text it was given. *)
Theorem cleanText_keeps_text :
  forall text : string, strip (cleanText text) = strip text.
Proof. intro text. apply strip_cleanText. Qed.

(** X4.  [cleanText] returns the empty text exactly for a text of white space
    only (the empty text among them). *)
Theorem cleanText_empty_iff :
  forall text : string,
    cleanText text = "" <-> str_all Chars.space text = true.
Proof. intro text. apply cleanText_empty. Qed.

End StripFacts.

(** ** Addresses *)

Module EmailFacts.

Import RegexFacts TextFacts.

(** Every match of a global search is a match at some place of the text. *)
Lemma match_all_from_sound (re : regex) :
  forall (s : string) (k : nat) (m : string) (lexs : list string),
    In (m, lexs) (match_all_from re s k) ->
    exists before t r,
      s = before ++ t /\ match_here re t = Some r /\
      m = matched_text t r /\ lexs = fst r.
Proof.
  induction s as [|c s IH]; intros k m lexs H.
  - destruct k; cbn in H; [|contradiction].
    destruct (match_here re "") as [r|] eqn:E; [|contradiction].
    destruct H as [H|[]]. inversion H; subst.
    exists "", "", r. split; [reflexivity|]. split; [exact E|].
    split; reflexivity.
  - assert (Htail : forall n, In (m, lexs) (match_all_from re s n) ->
              exists before t r,
                String c s = before ++ t /\ match_here re t = Some r /\
                m = matched_text t r /\ lexs = fst r).
    { intros n Hn. destruct (IH n m lexs Hn) as [b [t [r [-> Hr]]]].
      exists (String c b), t, r. split; [reflexivity|exact Hr]. }
    destruct k as [|k]; cbn [match_all_from] in H; [|apply (Htail _ H)].
    destruct (match_here re (String c s)) as [r|] eqn:E; [|apply (Htail _ H)].
    destruct H as [H|H]; [|apply (Htail _ H)].
    inversion H; subst. exists "", (String c s), r.
    split; [reflexivity|]. split; [exact E|]. split; reflexivity.
Qed.

Lemma lit_eq (x c : ascii) : Chars.lit x c = true -> c = x.
Proof. unfold Chars.lit. intro H. apply Ascii.eqb_eq in H. congruence. Qed.

Lemma lexeme_one_lit (x : ascii) (lex : string) :
  lexeme_ok (one (Chars.lit x)) lex -> lex = String x "".
Proof.
  intros [Hall [Hlo Hhi]]. cbn in *.
  destruct lex as [|c [|c' lex]]; cbn in *; try lia.
  rewrite Bool.andb_true_r in Hall. apply lit_eq in Hall. congruence.
Qed.

(** What [/[A-Z0-9._%+-]+@[A-Z0-9.-]+\.[A-Z]{2,}/i] matches. *)
Lemma match_email_shape (t : string) (r : result) :
  match_here re_email t = Some r -> email_shape (matched_text t r).
Proof.
  intro H. rewrite (matched_text_sound _ _ _ H).
  destruct (match_here_sound _ _ _ H) as [Hf _].
  unfold re_email in Hf.
  inversion Hf as [|a1 local re1 l1 Hlocal F1 E1 E1']; subst a1 re1; clear Hf.
  inversion F1 as [|a2 at_ re2 l2 Hat F2 E2 E2']; subst a2 re2 l1; clear F1.
  inversion F2 as [|a3 domain re3 l3 Hdomain F3 E3 E3']; subst a3 re3 l2; clear F2.
  inversion F3 as [|a4 dot re4 l4 Hdot F4 E4 E4']; subst a4 re4 l3; clear F3.
  inversion F4 as [|a5 tld re5 l5 Htld F5 E5 E5']; subst a5 re5 l4; clear F4.
  inversion F5 as [E6|]; subst l5; clear F5.
  apply lexeme_one_lit in Hat, Hdot. subst at_ dot.
  destruct Hlocal as [Hl1 [Hl2 _]], Hdomain as [Hd1 [Hd2 _]],
    Htld as [Ht1 [Ht2 _]]. cbn in Hl1, Hl2, Hd1, Hd2, Ht1, Ht2.
  exists local, domain, tld. unfold concat_strings. cbn [fold_right].
  rewrite append_nil_r.
  split; [reflexivity|]. split; [exact Hl1|]. split; [exact Hl2|].
  split; [exact Hd1|]. split; [exact Hd2|]. split; [exact Ht1|exact Ht2].
Qed.

Lemma email_local_no_space (c : ascii) :
  Chars.email_local c = true -> Chars.space c = false.
Proof.
  destruct c as [b0 b1 b2 b3 b4 b5 b6 b7].
  destruct b0, b1, b2, b3, b4, b5, b6, b7; vm_compute; congruence.
Qed.

Lemma letter_no_space (c : ascii) :
  Chars.letter_i c = true -> Chars.space c = false.
Proof.
  destruct c as [b0 b1 b2 b3 b4 b5 b6 b7].
  destruct b0, b1, b2, b3, b4, b5, b6, b7; vm_compute; congruence.
Qed.

Lemma ends_with_append_nonempty (p : ascii -> bool) (a b : string) :
  b <> "" -> ends_with p (a ++ b) = ends_with p b.
Proof.
  intro Hb. induction a as [|c a IH]; [reflexivity|].
  cbn [append ends_with]. rewrite IH.
  destruct (a ++ b) eqn:E; [|reflexivity].
  destruct a; cbn in E; [congruence|discriminate].
Qed.

Lemma ends_with_all (p q : ascii -> bool) (s : string) :
  (forall c, q c = true -> p c = false) -> str_all q s = true ->
  ends_with p s = false.
Proof.
  intro Hq. induction s as [|c s IH]; [reflexivity|].
  cbn [str_all ends_with]. intro H. apply andb_prop in H. destruct H as [Hc Hs].
  destruct s; [apply Hq, Hc|apply IH, Hs].
Qed.

(** An address has no white space at its ends: trimming keeps it. *)
Lemma email_shape_trim (e : string) : email_shape e -> trim e = e.
Proof.
  intros [local [domain [tld [-> [Hl [Hl1 [_ [_ [Ht Ht2]]]]]]]]].
  apply trim_id.
  - destruct local as [|c local]; [cbn in Hl1; lia|].
    cbn in Hl |- *. apply andb_prop in Hl. apply email_local_no_space, Hl.
  - rewrite <- !append_assoc. rewrite ends_with_append_nonempty.
    + apply (ends_with_all _ Chars.letter_i); [apply letter_no_space|exact Ht].
    + destruct tld; [cbn in Ht2; lia|discriminate].
Qed.

Lemma fold_set_add_In (xs l : list string) (x : string) :
  In x (fold_left set_add xs l) -> In x l \/ In x xs.
Proof.
  revert l; induction xs as [|y xs IH]; intros l H; cbn in H.
  - now left.
  - destruct (IH _ H) as [H'|H']; [|right; now right].
    unfold set_add in H'. destruct (set_mem y l); [now left|].
    apply in_app_or in H'. destruct H' as [H'|[H'|[]]]; [now left|].
    right. left. exact H'.
Qed.

Lemma piece_of_match (s before t : string) (r : result) (re : regex) :
  s = before ++ t -> match_here re t = Some r ->
  piece_of (matched_text t r) s.
Proof.
  intros -> H. rewrite (matched_text_sound _ _ _ H).
  destruct (match_here_sound _ _ _ H) as [_ Ht].
  exists before, (snd r). rewrite <- Ht. reflexivity.
Qed.

(** X5.  Every address that [extractEmails] returns is a piece of the text
    it was given and has the shape local part, [@], domain, dot, top level
    of two letters or more; no address is returned twice, and the empty
    text gives none. *)
Theorem extractEmails_shape :
  forall value : string,
    Forall (fun e => email_shape e /\ piece_of e value) (extractEmails value) /\
    NoDup (extractEmails value) /\
    extractEmails "" = [].
Proof.
  intro value. split; [|split; [apply ParseFacts.extractEmails_NoDup|reflexivity]].
  unfold extractEmails. destruct (negb (truthy value)); [constructor|].
  apply Forall_forall. intros e He.
  unfold set_of_list in He. apply fold_set_add_In in He.
  destruct He as [[]|He]. apply in_map_iff in He.
  destruct He as [[m lexs] [Hm Hin]]. cbn [fst] in Hm.
  destruct (match_all_from_sound re_email value 0 m lexs Hin)
    as [before [t [r [Hs [Hr [Hmt _]]]]]].
  pose proof (match_email_shape t r Hr) as Hshape. rewrite <- Hmt in Hshape.
  rewrite (email_shape_trim m Hshape) in Hm. subst e.
  split; [exact Hshape|]. rewrite Hmt. apply (piece_of_match _ _ _ _ _ Hs Hr).
Qed.

End EmailFacts.

(** ** Search pages and overviews *)

Module PageParseFacts.

Import RegexFacts TextFacts StripFacts.

Lemma to_upper_idempotent (c : ascii) :
  Chars.to_upper (Chars.to_upper c) = Chars.to_upper c.
Proof.
  destruct c as [b0 b1 b2 b3 b4 b5 b6 b7].
  destruct b0, b1, b2, b3, b4, b5, b6, b7; vm_compute; reflexivity.
Qed.

Lemma to_upper_space (c : ascii) :
  Chars.space (Chars.to_upper c) = Chars.space c.
Proof.
  destruct c as [b0 b1 b2 b3 b4 b5 b6 b7].
  destruct b0, b1, b2, b3, b4, b5, b6, b7; vm_compute; reflexivity.
Qed.

Lemma to_upper_sharp_s (c : ascii) :
  Chars.is_code 223 c = false -> Chars.is_code 223 (Chars.to_upper c) = false.
Proof.
  destruct c as [b0 b1 b2 b3 b4 b5 b6 b7].
  destruct b0, b1, b2, b3, b4, b5, b6, b7; vm_compute; auto.
Qed.

Lemma sharp_s_space (c : ascii) :
  Chars.is_code 223 c = true -> Chars.space c = false.
Proof.
  destruct c as [b0 b1 b2 b3 b4 b5 b6 b7].
  destruct b0, b1, b2, b3, b4, b5, b6, b7; vm_compute; auto.
Qed.

Lemma toUpperCase_idempotent (s : string) :
  toUpperCase (toUpperCase s) = toUpperCase s.
Proof.
  induction s as [|c s IH]; cbn [toUpperCase]; [reflexivity|].
  destruct (Chars.is_code 223 c) eqn:E.
  - cbn. rewrite IH. reflexivity.
  - cbn [toUpperCase]. rewrite (to_upper_sharp_s c E), to_upper_idempotent, IH.
    reflexivity.
Qed.

Lemma starts_with_upper (s : string) :
  starts_with Chars.space (toUpperCase s) = starts_with Chars.space s.
Proof.
  destruct s as [|c s]; cbn [toUpperCase]; [reflexivity|].
  destruct (Chars.is_code 223 c) eqn:E; cbn [starts_with].
  - rewrite (sharp_s_space c E). reflexivity.
  - apply to_upper_space.
Qed.

Lemma ends_with_upper (s : string) :
  ends_with Chars.space (toUpperCase s) = ends_with Chars.space s.
Proof.
  induction s as [|c s IH]; [reflexivity|].
  cbn [toUpperCase]. destruct (Chars.is_code 223 c) eqn:E.
  - destruct s as [|c' s'].
    + cbn. rewrite (sharp_s_space c E). reflexivity.
    + change (ends_with Chars.space (String c (String c' s')))
        with (ends_with Chars.space (String c' s')).
      rewrite <- IH. cbn [ends_with].
      destruct (toUpperCase (String c' s')) eqn:Eu; [|reflexivity].
      cbn [toUpperCase] in Eu. destruct (Chars.is_code 223 c'); discriminate.
  - destruct s as [|c' s'].
    + cbn. apply to_upper_space.
    + change (ends_with Chars.space (String c (String c' s')))
        with (ends_with Chars.space (String c' s')).
      rewrite <- IH. cbn [ends_with].
      destruct (toUpperCase (String c' s')) eqn:Eu; [|reflexivity].
      cbn [toUpperCase] in Eu. destruct (Chars.is_code 223 c'); discriminate.
Qed.

Lemma no_adjacent_upper (s : string) :
  no_adjacent Chars.space (toUpperCase s) = no_adjacent Chars.space s.
Proof.
  induction s as [|c s IH]; [reflexivity|].
  cbn [toUpperCase]. destruct (Chars.is_code 223 c) eqn:E.
  - cbn [no_adjacent starts_with]. rewrite IH, (sharp_s_space c E).
    reflexivity.
  - cbn [no_adjacent]. rewrite IH, to_upper_space, starts_with_upper.
    reflexivity.
Qed.

(** Capitals keep text clean. *)
Lemma clean_upper (s : string) : clean (toUpperCase s) = clean s.
Proof.
  unfold clean. rewrite no_adjacent_upper, starts_with_upper, ends_with_upper.
  reflexivity.
Qed.


(** The sharp s becomes [SS]. *)
Example toUpperCase_sharp_s :
  toUpperCase ("stra" ++ String (ascii_of_nat 223) "e 1") = "STRASSE 1".
Proof. vm_compute. reflexivity. Qed.

Lemma to_upper_below_256 (c : ascii) :
  Chars.capital_below_256 c = true ->
  Chars.capital_below_256 (Chars.to_upper c) = true.
Proof.
  destruct c as [b0 b1 b2 b3 b4 b5 b6 b7].
  destruct b0, b1, b2, b3, b4, b5, b6, b7; vm_compute; auto.
Qed.

Lemma toUpperCase_below_256 (s : string) :
  str_all Chars.capital_below_256 s = true ->
  str_all Chars.capital_below_256 (toUpperCase s) = true.
Proof.
  induction s as [|c s IH]; [reflexivity|].
  cbn [str_all toUpperCase]. intro H. apply andb_prop in H.
  destruct H as [Hc Hs]. destruct (Chars.is_code 223 c).
  - cbn [str_all]. rewrite (IH Hs). reflexivity.
  - cbn [str_all]. rewrite (to_upper_below_256 c Hc), (IH Hs). reflexivity.
Qed.

Lemma toUpperCase_truthy (s : string) : truthy (toUpperCase s) = truthy s.
Proof.
  destruct s as [|c s]; [reflexivity|].
  cbn [toUpperCase]. destruct (Chars.is_code 223 c); reflexivity.
Qed.

Lemma item_of_ok (item : node) : Forall stub_ok (item_of item).
Proof.
  unfold item_of.
  set (code := cleanText (text (find (hasClass "search-result-item__code") item))).
  set (nameText := cleanText (text (find (hasClass "search-result-item__name") item))).
  assert (Hcode : clean code = true) by apply clean_cleanText.
  assert (Hname : clean nameText = true) by apply clean_cleanText.
  destruct (truthy code) eqn:Et; cbn [negb]; [|constructor].
  constructor; [|constructor]. unfold stub_ok.
  cbn [stub_code stub_name stub_offered].
  split; [rewrite toUpperCase_truthy; exact Et|].
  split; [apply toUpperCase_idempotent|].
  split; [rewrite clean_upper; exact Hcode|].
  split; [|apply clean_cleanText].
  unfold or_else. destruct (truthy (cleanText (remove_first code nameText)));
    [apply clean_cleanText|exact Hname].
Qed.

Lemma item_of_below_256 (item : node) :
  str_all Chars.capital_below_256 (code_text item) = true ->
  Forall (fun s => str_all Chars.capital_below_256 (stub_code s) = true)
         (item_of item).
Proof.
  unfold item_of, code_text. intro H.
  destruct (negb (truthy _)); constructor; [|constructor].
  cbn [stub_code]. apply toUpperCase_below_256, H.
Qed.

Lemma item_of_length (item : node) : List.length (item_of item) <= 1.
Proof. unfold item_of. destruct (negb _); cbn; lia. Qed.

(** X6.  On a search page whose codes hold no code unit with a capital above
    255, every stub has a code that is not empty, is in capitals (and again
    holds no such code unit) and is clean, and a clean name and offering
    text; a page gives no more stubs than it has result entries. *)
Theorem parseSearchPage_stubs :
  forall doc : document,
    Forall (fun item => str_all Chars.capital_below_256 (code_text item) = true)
           (select (hasClass "search-result-item") doc) ->
    Forall (fun s => stub_ok s /\
                     str_all Chars.capital_below_256 (stub_code s) = true)
           (parseSearchPage doc) /\
    List.length (parseSearchPage doc)
    <= List.length (select (hasClass "search-result-item") doc).
Proof.
  intro doc. unfold parseSearchPage.
  induction (select (hasClass "search-result-item") doc) as [|x l IH];
    intro H.
  - split; [constructor|cbn; lia].
  - inversion H as [|x' l' Hx Hl]; subst.
    destruct (IH Hl) as [IH1 IH2].
    cbn [flat_map List.length]. split.
    + apply Forall_app. split; [|exact IH1].
      pose proof (item_of_ok x) as H1.
      pose proof (item_of_below_256 x Hx) as H2.
      rewrite Forall_forall in *. intros s Hs. split; auto.
    + rewrite length_app. pose proof (item_of_length x). lia.
Qed.

(** The witness: the first search page of the example handbook. *)
Lemma parseSearchPage_stubs_witness :
  List.length (parseSearchPage Handbook.search1)
  <= List.length (select (hasClass "search-result-item") Handbook.search1).
Proof.
  refine (proj2 (parseSearchPage_stubs Handbook.search1 _)).
  vm_compute. repeat constructor.
Defined.

(** X7.  A result entry is dropped exactly when the text of its code element
    is white space only (no code element among the cases). *)
Theorem item_of_dropped_iff :
  forall item : node,
    item_of item = [] <->
    str_all Chars.space
      (text (find (hasClass "search-result-item__code") item)) = true.
Proof.
  intro item. rewrite <- cleanText_empty. unfold item_of.
  destruct (cleanText (text (find (hasClass "search-result-item__code") item)))
    as [|c s]; cbn; split; intro H; try reflexivity; discriminate.
Qed.

Lemma split_from_no_match (re : regex) :
  forall (s cur : string),
    (forall before t, s = before ++ t -> match_here re t = None) ->
    split_from re s 0 cur = [str_rev (str_rev_append s cur)].
Proof.
  induction s as [|c s IH]; intros cur H; [reflexivity|].
  cbn [split_from str_rev_append].
  rewrite (H "" (String c s) eq_refl). apply IH.
  intros before t ->. apply (H (String c before)). reflexivity.
Qed.

Lemma no_adjacent_suffix (p : ascii -> bool) (before t : string) :
  no_adjacent p (before ++ t) = true -> no_adjacent p t = true.
Proof.
  induction before as [|c b IH]; cbn [append]; [auto|].
  intro H. apply IH, (no_adjacent_tail p c _ H).
Qed.

Lemma in_space_blank_lines : in_space re_blank_lines.
Proof. repeat constructor; cbn; apply ParseFacts.newline_space. Qed.

(** Clean text has no blank line to split at. *)
Lemma split_clean (s : string) :
  clean s = true -> Regex.split re_blank_lines s = [s].
Proof.
  intro H. unfold clean in H. apply andb_prop in H. destruct H as [H _].
  apply andb_prop in H. destruct H as [H _].
  unfold Regex.split. rewrite split_from_no_match.
  - rewrite str_rev_append_spec, append_nil_r, str_rev_involutive. reflexivity.
  - intros before t ->. apply match_here_none.
    + apply in_space_blank_lines.
    + cbn. lia.
    + apply (no_adjacent_suffix _ before t H).
Qed.

(** One block of the overview gives its clean text, if it has any. *)
Lemma overview_of_child_spec (element : node) :
  overview_of_child element
  = if hasClass "course__overview-box" element then []
    else filter truthy [cleanText (text_of element)].
Proof.
  unfold overview_of_child.
  destruct (hasClass "course__overview-box" element); [reflexivity|].
  destruct (truthy (cleanText (text_of element))) eqn:Et; cbn [negb filter].
  - rewrite (split_clean _ (clean_cleanText _)). cbn [map filter].
    rewrite cleanText_twice, Et. reflexivity.
  - rewrite Et. reflexivity.
Qed.

(** X8.  The overview holds one paragraph for each block of the overview
    container that is not the box and has text: the clean text of the
    block, never split at blank lines; every paragraph is clean and not
    empty. *)
Theorem parseOverview_blocks :
  forall doc : document,
    parseOverview doc
    = match select (hasClass "course__overview-wrapper") doc with
      | [] => []
      | wrapper :: _ =>
          filter truthy
            (map (fun el => cleanText (text_of el))
               (filter (fun el => negb (hasClass "course__overview-box" el))
                  (filter is_elem (children wrapper))))
      end /\
    Forall (fun p => truthy p = true /\ clean p = true) (parseOverview doc).
Proof.
  intro doc.
  assert (E : parseOverview doc
    = match select (hasClass "course__overview-wrapper") doc with
      | [] => []
      | wrapper :: _ =>
          filter truthy
            (map (fun el => cleanText (text_of el))
               (filter (fun el => negb (hasClass "course__overview-box" el))
                  (filter is_elem (children wrapper))))
      end).
  { unfold parseOverview.
    destruct (select (hasClass "course__overview-wrapper") doc) as [|w ws];
      [reflexivity|].
    induction (filter is_elem (children w)) as [|el els IH]; [reflexivity|].
    cbn [flat_map filter]. rewrite IH, overview_of_child_spec.
    destruct (hasClass "course__overview-box" el); cbn [negb map filter app];
      [reflexivity|].
    destruct (truthy (cleanText (text_of el))); reflexivity. }
  split; [exact E|]. rewrite E.
  destruct (select (hasClass "course__overview-wrapper") doc) as [|w ws];
    [constructor|].
  apply Forall_forall. intros p Hp. apply filter_In in Hp.
  destruct Hp as [Hin Ht]. split; [exact Ht|].
  apply in_map_iff in Hin. destruct Hin as [el [<- _]]. apply clean_cleanText.
Qed.

End PageParseFacts.

(** ** Sections of a page *)

Module SectionFacts.

Import RegexFacts TextFacts StripFacts.

Lemma tables_until_heading_spec (nodes : list node) :
  tables_until_heading nodes
  = flat_map table_of (filter (is_tag "table") (before_first ends_tables nodes)).
Proof.
  induction nodes as [|n rest IH]; [reflexivity|].
  cbn [tables_until_heading before_first]. unfold ends_tables at 1.
  destruct (is_tag "h2" n || is_tag "h3" n || is_tag "h4" n); [reflexivity|].
  cbn [filter]. rewrite IH.
  destruct (is_tag "table" n); reflexivity.
Qed.

Lemma fold_set_add_app (xs ys l : list string) :
  fold_left set_add (xs ++ ys) l = fold_left set_add ys (fold_left set_add xs l).
Proof. apply fold_left_app. Qed.

Lemma emails_until_heading_spec (nodes : list node) (emails : list string) :
  emails_until_heading nodes emails
  = fold_left set_add
      (flat_map (fun n => extractEmails (text_of n))
                (before_first ends_emails nodes))
      emails.
Proof.
  revert emails. induction nodes as [|n rest IH]; intro emails; [reflexivity|].
  cbn [emails_until_heading before_first]. unfold ends_emails at 1.
  destruct (is_tag "h5" n || is_tag "h3" n || is_tag "h2" n); [reflexivity|].
  cbn [flat_map]. rewrite fold_set_add_app. apply IH.
Qed.

(** X9.  The tables of a section are those of the [table] elements among
    the siblings that follow the heading, up to the first [h2], [h3] or
    [h4] sibling, in order; a table that is not itself such a sibling (one
    inside another element) and anything after that heading is left
    out. *)
Theorem parseAssessmentTables_section :
  forall (doc : document) (label : string),
    parseAssessmentTables doc label
    = match next_siblings_of_first
              (fun el => (is_tag "h3" el || is_tag "h4" el) && mentions label el)
              doc with
      | None => []
      | Some nodes =>
          flat_map table_of
            (filter (is_tag "table") (before_first ends_tables nodes))
      end /\
    forall nodes before heading after,
      nodes = (before ++ heading :: after)%list ->
      ends_tables heading = true ->
      tables_until_heading nodes = tables_until_heading before.
Proof.
  intros doc label. split.
  - unfold parseAssessmentTables.
    destruct (next_siblings_of_first _ doc); [|reflexivity].
    apply tables_until_heading_spec.
  - intros nodes before heading after -> Hh.
    induction before as [|n before IH]; cbn [app tables_until_heading].
    + unfold ends_tables in Hh. rewrite Hh. reflexivity.
    + destruct (is_tag "h2" n || is_tag "h3" n || is_tag "h4" n); [reflexivity|].
      rewrite IH. reflexivity.
Qed.

(** The witness: a table after the next heading is not read. *)
Lemma parseAssessmentTables_section_witness :
  tables_until_heading
    ([Handbook.el "p" [Text "intro"]]
       ++ Handbook.el "h3" [Text "Semester 2"]
       :: [Handbook.el "table"
             [Handbook.el "tbody"
                [Handbook.el "tr" [Handbook.el "td" [Text "Exam"]]]]])%list
  = tables_until_heading [Handbook.el "p" [Text "intro"]].
Proof.
  apply (proj2 (parseAssessmentTables_section [] "")
           _ [Handbook.el "p" [Text "intro"]]
           (Handbook.el "h3" [Text "Semester 2"])
           [Handbook.el "table"
              [Handbook.el "tbody"
                 [Handbook.el "tr" [Handbook.el "td" [Text "Exam"]]]]]).
  - reflexivity.
  - reflexivity.
Defined.

(** X10.  The addresses of a period are those found in the texts of the
    siblings that follow the [h5] heading, up to the first [h5], [h3] or
    [h2] sibling, each kept once, in the order of first appearance. *)
Theorem parseSemesterEmails_section :
  forall (doc : document) (label : string),
    parseSemesterEmails doc label
    = match next_siblings_of_first
              (fun el => is_tag "h5" el && mentions label el) doc with
      | None => []
      | Some nodes =>
          set_of_list
            (flat_map (fun n => extractEmails (text_of n))
                      (before_first ends_emails nodes))
      end.
Proof.
  intros doc label. unfold parseSemesterEmails.
  destruct (next_siblings_of_first _ doc); [|reflexivity].
  apply emails_until_heading_spec.
Qed.

Lemma lookup_None_keys {A : Type} (k : string) (o : list (string * A)) :
  lookup k o = None <-> ~ In k (map fst o).
Proof.
  induction o as [|[k' v'] o IH]; cbn [lookup map fst].
  - split; [intros _ []|reflexivity].
  - destruct (String.eqb k k') eqn:E.
    + apply String.eqb_eq in E. subst k'. split; [discriminate|].
      intro H. exfalso. apply H. now left.
    + apply String.eqb_neq in E. rewrite IH. cbn [In]. split.
      * intros H [H'|H']; [congruence|exact (H H')].
      * intros H H'. apply H. now right.
Qed.

Lemma obj_update_keys (o : list (string * string)) (k v : string) :
  map fst (obj_update o k v) = map fst o.
Proof.
  induction o as [|[k' v'] o IH]; cbn [obj_update map fst]; [reflexivity|].
  destruct (String.eqb k k') eqn:E; cbn [map fst].
  - apply String.eqb_eq in E. subst k'. reflexivity.
  - rewrite IH. reflexivity.
Qed.

Lemma obj_update_Forall (Q : string * string -> Prop)
    (o : list (string * string)) (k v : string) :
  Q (k, v) -> Forall Q o -> Forall Q (obj_update o k v).
Proof.
  intros Hk H. induction H as [|[k' v'] o He Ho IH]; cbn [obj_update].
  - constructor.
  - destruct (String.eqb k k'); constructor; assumption.
Qed.

Lemma obj_add_index_perm (o : list (string * string)) (k v : string) :
  Permutation ((k, v) :: o) (obj_add_index o k v).
Proof.
  induction o as [|[k' v'] o IH]; cbn [obj_add_index].
  - apply Permutation_refl.
  - destruct (is_array_index k' && _).
    + apply Permutation_trans with ((k', v') :: (k, v) :: o);
        [apply perm_swap|apply perm_skip, IH].
    + apply Permutation_refl.
Qed.

(** A new key that is not [__proto__] is added to the properties. *)
Lemma obj_set_new (o : list (string * string)) (k v : string) :
  k <> "__proto__" -> ~ In k (map fst o) ->
  Permutation ((k, v) :: o) (obj_set o k v).
Proof.
  intros Hp Hin. unfold obj_set.
  rewrite (proj2 (String.eqb_neq _ _) Hp).
  rewrite (proj2 (lookup_None_keys k o) Hin).
  destruct (is_array_index k).
  - apply obj_add_index_perm.
  - apply Permutation_cons_append.
Qed.

Lemma obj_set_ok (o : list (string * string)) (k v : string) :
  truthy k = true -> clean v = true -> row_ok o -> row_ok (obj_set o k v).
Proof.
  intros Hk Hv [Hnd Hall].
  destruct (String.eqb k "__proto__") eqn:Ep.
  { unfold obj_set. rewrite Ep. split; assumption. }
  apply String.eqb_neq in Ep.
  destruct (in_dec string_dec k (map fst o)) as [Hin|Hin].
  - unfold obj_set. rewrite (proj2 (String.eqb_neq _ _) Ep).
    destruct (lookup k o) eqn:El;
      [|apply lookup_None_keys in El; contradiction].
    split; [rewrite obj_update_keys; exact Hnd|].
    apply obj_update_Forall; [|exact Hall]. cbn. repeat split; assumption.
  - pose proof (obj_set_new o k v Ep Hin) as Hperm. split.
    + apply (Permutation_NoDup (Permutation_map fst Hperm)).
      cbn [map fst]. constructor; assumption.
    + apply (Permutation_Forall Hperm).
      constructor; [cbn; repeat split; assumption|exact Hall].
Qed.

Lemma column_key_truthy (headers : list string) (index : nat) :
  truthy (column_key headers index) = true.
Proof.
  unfold column_key, or_else.
  destruct (truthy (nth index headers "")) eqn:E; [exact E|reflexivity].
Qed.

Lemma row_data_ok (headers : list string) :
  forall (cells : list node) (index : nat) (rowData : list (string * string)),
    row_ok rowData -> row_ok (row_data headers cells index rowData).
Proof.
  induction cells as [|cell cells IH]; intros index rowData Hinv;
    cbn [row_data]; [exact Hinv|].
  apply IH, obj_set_ok;
    [apply column_key_truthy|apply clean_cleanText|exact Hinv].
Qed.

(** An object lists its array indices first, in ascending order, and an
    assignment to [__proto__] leaves it without the property. *)
Example row_data_object_order :
  row_data ["Task"; "2026"; "10"; "007"]
    [Handbook.el "td" [Text "Essay"]; Handbook.el "td" [Text "a"];
     Handbook.el "td" [Text "b"]; Handbook.el "td" [Text "c"]] 0 []
  = [("10", "b"); ("2026", "a"); ("Task", "Essay"); ("007", "c")] /\
  row_data ["__proto__"] [Handbook.el "td" [Text "Essay"]] 0 [] = [].
Proof. vm_compute. split; reflexivity. Qed.

Lemma table_of_ok (table : node) :
  Forall (fun t => Forall clean_true (columns t) /\ Forall row_ok (rows t))
         (table_of table).
Proof.
  unfold table_of.
  assert (Hh : Forall clean_true (table_headers table)).
  { unfold table_headers, cell_texts.
    destruct (map _ (find_under (is_tag "thead") (is_tag "th") table)) eqn:E.
    - destruct (find (is_tag "tr") table); [constructor|].
      apply Forall_forall. intros x Hx. apply in_map_iff in Hx.
      destruct Hx as [c [<- _]]. apply clean_cleanText.
    - rewrite <- E. apply Forall_forall. intros x Hx. apply in_map_iff in Hx.
      destruct Hx as [c [<- _]]. apply clean_cleanText. }
  assert (Hr : Forall row_ok (table_rows (table_headers table) table)).
  { unfold table_rows. apply Forall_flat_map, Forall_forall. intros row _.
    destruct (find (is_tag "td") row) as [|c cs] eqn:Ec; [constructor|].
    constructor; [|constructor].
    apply row_data_ok. split; constructor. }
  destruct (table_rows (table_headers table) table) eqn:E; [constructor|].
  constructor; [|constructor]. cbn. split; assumption.
Qed.

(** X11.  In every table returned, the column labels are clean, and every row
    has keys that are not empty, are not [__proto__] and are pairwise
    different, and clean values. *)
Theorem parseAssessmentTables_rows_ok :
  forall (doc : document) (label : string),
    Forall (fun t => Forall clean_true (columns t) /\ Forall row_ok (rows t))
           (parseAssessmentTables doc label).
Proof.
  intros doc label. unfold parseAssessmentTables.
  destruct (next_siblings_of_first _ doc); [|constructor].
  rewrite tables_until_heading_spec.
  apply Forall_flat_map, Forall_forall. intros t _. apply table_of_ok.
Qed.

End SectionFacts.

Module RowFacts.

Import RegexFacts TextFacts SectionFacts.

Lemma obj_set_fresh (o : list (string * string)) (k v : string) :
  plain_key k = true -> ~ In k (map fst o) ->
  obj_set o k v = (o ++ [(k, v)])%list.
Proof.
  unfold plain_key, obj_set. intros Hp Hin.
  apply andb_prop in Hp. destruct Hp as [Hi Hp].
  apply Bool.negb_true_iff in Hi, Hp. rewrite Hp, Hi.
  rewrite (proj2 (lookup_None_keys k o) Hin). reflexivity.
Qed.

(** When the keys of the cells are new, pairwise different and listed in
    the order of their assignment, the row holds them in order, each with
    the text of its cell. *)
Lemma row_data_combine (headers : list string) :
  forall (cells : list node) (index : nat) (rowData : list (string * string)),
    NoDup (map fst rowData
             ++ map (column_key headers) (seq index (List.length cells)))%list ->
    Forall (fun k => plain_key k = true)
           (map (column_key headers) (seq index (List.length cells))) ->
    row_data headers cells index rowData
    = (rowData
         ++ combine (map (column_key headers) (seq index (List.length cells)))
                    (cell_texts cells))%list.
Proof.
  induction cells as [|cell cells IH]; intros index rowData Hnd Hp;
    cbn [row_data List.length seq map combine cell_texts].
  - rewrite app_nil_r. reflexivity.
  - cbn [List.length seq map] in Hnd, Hp.
    inversion Hp as [|k ks Hk Hks]; subst.
    rewrite obj_set_fresh.
    + rewrite IH.
      * rewrite <- app_assoc. reflexivity.
      * rewrite map_app. cbn [map fst]. rewrite <- app_assoc. exact Hnd.
      * exact Hks.
    + exact Hk.
    + apply NoDup_remove_2 in Hnd. intro Hin. apply Hnd.
      apply in_or_app. left. exact Hin.
Qed.

Lemma map_nth_seq (headers : list string) :
  forall n : nat,
    n <= List.length headers ->
    map (fun i => nth i headers "") (seq 0 n) = firstn n headers.
Proof.
  induction headers as [|h headers IH]; intros n Hn.
  - cbn in Hn. assert (n = 0) by lia. subst. reflexivity.
  - destruct n as [|n]; [reflexivity|].
    cbn [seq map nth firstn]. f_equal.
    rewrite <- seq_shift, map_map. cbn [nth]. apply IH. cbn in Hn. lia.
Qed.

Lemma row_keys_headers (headers : list string) (n : nat) :
  Forall (fun h => truthy h = true) headers ->
  n <= List.length headers ->
  row_keys headers n = firstn n headers.
Proof.
  intros Ht Hn. unfold row_keys.
  rewrite <- (map_nth_seq headers n Hn).
  apply map_ext_in. intros i Hi. apply in_seq in Hi.
  unfold column_key, or_else.
  assert (Hin : In (nth i headers "") headers) by (apply nth_In; lia).
  rewrite Forall_forall in Ht. rewrite (Ht _ Hin). reflexivity.
Qed.

Lemma combine_firstn_length {A B : Type} (l : list A) (l' : list B) :
  combine (firstn (List.length l') l) l' = combine l l'.
Proof.
  revert l'. induction l as [|x l IH]; intros [|y l']; cbn; try reflexivity.
  rewrite IH. reflexivity.
Qed.

Lemma In_firstn {A : Type} (n : nat) (l : list A) (x : A) :
  In x (firstn n l) -> In x l.
Proof.
  revert n. induction l as [|y l IH]; intros [|n] H; cbn in *; try contradiction.
  destruct H as [H|H]; [now left|right; apply (IH n H)].
Qed.

Lemma NoDup_firstn {A : Type} (n : nat) (l : list A) :
  NoDup l -> NoDup (firstn n l).
Proof.
  revert n. induction l as [|x l IH]; intros [|n] H; cbn; try constructor.
  - inversion H; subst. intro Hin. apply In_firstn in Hin. contradiction.
  - inversion H; subst. apply IH. assumption.
Qed.

(** X12.  When the header labels are not empty, pairwise different and
    plain keys (none is an array index or [__proto__]) and the row has no
    more cells than there are labels, the row pairs each label, in the
    order of the labels, with the clean text of the cell at its position. *)
Theorem row_data_aligned :
  forall (headers : list string) (cells : list node),
    NoDup headers ->
    Forall (fun h => truthy h = true) headers ->
    Forall (fun h => plain_key h = true) headers ->
    List.length cells <= List.length headers ->
    row_data headers cells 0 [] = combine headers (cell_texts cells).
Proof.
  intros headers cells Hnd Ht Hp Hn.
  pose proof (row_keys_headers headers _ Ht Hn) as Hk. unfold row_keys in Hk.
  rewrite row_data_combine; cbn [map fst app]; rewrite Hk.
  - replace (List.length cells) with (List.length (cell_texts cells))
      by apply length_map.
    apply combine_firstn_length.
  - apply NoDup_firstn, Hnd.
  - apply Forall_forall. intros h Hh. apply In_firstn in Hh.
    rewrite Forall_forall in Hp. apply Hp, Hh.
Qed.

(** The witness: three labels and a row of three cells. *)
Lemma row_data_aligned_witness :
  row_data ["Assessment"; "Weight"; "Due"]
    [Handbook.el "td" [Text " Essay "]; Handbook.el "td" [Text "30%"];
     Handbook.el "td" [Text "Week 5"]] 0 []
  = combine ["Assessment"; "Weight"; "Due"]
      (cell_texts [Handbook.el "td" [Text " Essay "]; Handbook.el "td" [Text "30%"];
                   Handbook.el "td" [Text "Week 5"]]).
Proof.
  apply (row_data_aligned ["Assessment"; "Weight"; "Due"]).
  - repeat constructor; cbn; intuition discriminate.
  - repeat constructor.
  - repeat constructor.
  - cbn. lia.
Defined.

Lemma to_uint_nonnil (n : nat) : Nat.to_uint n <> Decimal.Nil.
Proof.
  pose proof (DecimalNat.Unsigned.to_of (Nat.to_uint n)) as H.
  rewrite DecimalNat.Unsigned.of_to in H. rewrite H.
  apply DecimalFacts.unorm_nonnil.
Qed.

(** Different numbers are written differently. *)
Lemma string_of_nat_inj (n m : nat) : string_of_nat n = string_of_nat m -> n = m.
Proof.
  unfold string_of_nat. intro H.
  apply DecimalNat.Unsigned.to_uint_inj.
  pose proof (NilZero.usu _ (to_uint_nonnil n)) as Hn.
  pose proof (NilZero.usu _ (to_uint_nonnil m)) as Hm.
  rewrite H in Hn. congruence.
Qed.

Lemma append_inj_l (a x y : string) : a ++ x = a ++ y -> x = y.
Proof. induction a as [|c a IH]; cbn; intro H; [exact H|]. inversion H. auto. Qed.

Lemma NoDup_map_injective {A B : Type} (f : A -> B) (l : list A) :
  (forall x y, f x = f y -> x = y) -> NoDup l -> NoDup (map f l).
Proof.
  intros Hf H. induction H as [|x l Hx Hl IH]; cbn; constructor; [|exact IH].
  intro Hin. apply in_map_iff in Hin. destruct Hin as [y [E Hy]].
  apply Hf in E. subst y. contradiction.
Qed.

Lemma column_keys_NoDup (index n : nat) :
  NoDup (map (column_key []) (seq index n)).
Proof.
  apply NoDup_map_injective; [|apply seq_NoDup].
  intros i j H. unfold column_key, or_else in H.
  destruct i, j; cbn [nth truthy] in H;
    apply append_inj_l, string_of_nat_inj in H; lia.
Qed.

(** X13.  Without header labels, the cells of a row are kept in order under
    the keys [Column 1], [Column 2], ... *)
Theorem row_data_numbered :
  forall cells : list node,
    row_data [] cells 0 []
    = combine (map (fun i => "Column " ++ string_of_nat (i + 1))
                   (seq 0 (List.length cells)))
              (cell_texts cells).
Proof.
  intro cells. rewrite row_data_combine; cbn [map fst app].
  - f_equal. apply map_ext. intro i. unfold column_key, or_else.
    destruct i; reflexivity.
  - apply column_keys_NoDup.
  - apply Forall_forall. intros k Hk. apply in_map_iff in Hk.
    destruct Hk as [i [<- _]]. unfold column_key, or_else.
    destruct i; reflexivity.
Qed.

End RowFacts.

(** ** The candidates *)

Module CandidateFacts.

Import DedupFacts.

Lemma set_add_in_dec (l : list string) (k : string) :
  set_add l k = if in_dec string_dec k l then l else (l ++ [k])%list.
Proof.
  unfold set_add. destruct (set_mem k l) eqn:E.
  - apply ParseFacts.set_mem_In in E.
    destruct (in_dec string_dec k l); [reflexivity|contradiction].
  - destruct (in_dec string_dec k l) as [Hin|]; [|reflexivity].
    apply ParseFacts.set_mem_In in Hin. congruence.
Qed.

Lemma fold_add_unique_keys (l : list SubjectStub) :
  forall m : list (string * SubjectStub),
    map fst (fold_left add_unique l m)
    = fold_left set_add (filter truthy (map stub_code l)) (map fst m).
Proof.
  induction l as [|x l IH]; intro m; [reflexivity|].
  cbn [fold_left map filter]. rewrite IH. unfold add_unique.
  destruct (truthy (stub_code x)); [|reflexivity].
  cbn [fold_left]. rewrite map_set_keys, set_add_in_dec. reflexivity.
Qed.

(** X14.  The codes of the candidates are the codes of the stubs that have
    one, each once, in the order in which the codes first appear. *)
Theorem dedup_codes_in_first_order :
  forall searchItems : list SubjectStub,
    map stub_code (dedup searchItems)
    = set_of_list (filter truthy (map stub_code searchItems)).
Proof.
  intro l. unfold dedup.
  rewrite (keyed_codes _ (proj2 (uniqueItems_inv l))).
  unfold uniqueItems. rewrite fold_add_unique_keys. reflexivity.
Qed.

(** The values of the map are stubs that were pushed. *)
Lemma fold_add_unique_values (l : list SubjectStub) :
  forall (m : list (string * SubjectStub)) (s : SubjectStub),
    In s (map snd (fold_left add_unique l m)) ->
    In s (map snd m) \/ (In s l /\ truthy (stub_code s) = true).
Proof.
  assert (Hset : forall (m : list (string * SubjectStub)) k v s,
            In s (map snd (map_set m k v)) -> In s (map snd m) \/ s = v).
  { induction m as [|[k' v'] m IHm]; intros k v s H; cbn in H.
    - destruct H as [H|[]]. right. congruence.
    - destruct (String.eqb k k'); cbn in H.
      + destruct H as [H|H]; [right; congruence|left; right; exact H].
      + destruct H as [H|H]; [left; left; exact H|].
        destruct (IHm _ _ _ H) as [H'|H']; [left; right; exact H'|right; exact H']. }
  induction l as [|x l IH]; intros m s H; cbn [fold_left] in H.
  - left. exact H.
  - destruct (IH _ _ H) as [H'|[H' Ht]].
    + unfold add_unique in H'. destruct (truthy (stub_code x)) eqn:Et.
      * destruct (Hset _ _ _ _ H') as [H''|E]; [left; exact H''|subst s].
        right. split; [now left|exact Et].
      * left. exact H'.
    + right. split; [now right|exact Ht].
Qed.

Lemma fold_add_unique_fresh (l : list SubjectStub) :
  forall m : list (string * SubjectStub),
    NoDup (map fst m ++ map stub_code l)%list ->
    Forall (fun s => truthy (stub_code s) = true) l ->
    fold_left add_unique l m
    = (m ++ map (fun s => (stub_code s, s)) l)%list.
Proof.
  induction l as [|x l IH]; intros m Hnd Ht; cbn [fold_left map].
  - rewrite List.app_nil_r. reflexivity.
  - inversion Ht as [|x' l' Hx Hl]; subst.
    unfold add_unique. rewrite Hx.
    assert (Hfresh : ~ In (stub_code x) (map fst m)).
    { cbn [map] in Hnd. apply NoDup_remove_2 in Hnd. intro Hin. apply Hnd.
      apply in_or_app. left. exact Hin. }
    assert (Hset : map_set m (stub_code x) x = (m ++ [(stub_code x, x)])%list).
    { clear - Hfresh. induction m as [|[k' v'] m IHm]; cbn; [reflexivity|].
      destruct (String.eqb (stub_code x) k') eqn:E.
      - apply String.eqb_eq in E. exfalso. apply Hfresh. left. symmetry. exact E.
      - rewrite IHm; [reflexivity|]. intro Hin. apply Hfresh. right. exact Hin. }
    rewrite Hset, IH.
    + rewrite <- app_assoc. reflexivity.
    + rewrite map_app. cbn [map fst]. rewrite <- app_assoc. exact Hnd.
    + exact Hl.
Qed.

(** Stubs with codes that are not empty and pairwise different are all
    kept, in order. *)
Lemma dedup_fixed (l : list SubjectStub) :
  NoDup (map stub_code l) ->
  Forall (fun s => truthy (stub_code s) = true) l ->
  dedup l = l.
Proof.
  intros Hnd Ht. unfold dedup, uniqueItems.
  rewrite fold_add_unique_fresh by assumption.
  cbn [app]. rewrite map_map. cbn [snd]. apply map_id.
Qed.

(** X15.  Every candidate is one of the stubs and has a code that is not
    empty; no two candidates share a code; there are no more candidates
    than stubs; and deduplicating the candidates again changes nothing. *)
Theorem dedup_candidates :
  forall searchItems : list SubjectStub,
    Forall (fun s => In s searchItems /\ truthy (stub_code s) = true)
           (dedup searchItems) /\
    NoDup (map stub_code (dedup searchItems)) /\
    List.length (dedup searchItems) <= List.length searchItems /\
    dedup (dedup searchItems) = dedup searchItems.
Proof.
  intro l.
  assert (Hin : Forall (fun s => In s l /\ truthy (stub_code s) = true) (dedup l)).
  { apply Forall_forall. intros s Hs. unfold dedup, uniqueItems in Hs.
    destruct (fold_add_unique_values _ _ _ Hs) as [[]|H]. exact H. }
  pose proof (dedup_NoDup_codes l) as Hnd.
  split; [exact Hin|]. split; [exact Hnd|]. split.
  - rewrite <- (length_map stub_code (dedup l)), <- (length_map stub_code l).
    apply NoDup_incl_length; [exact Hnd|].
    intros c Hc. apply in_map_iff in Hc. destruct Hc as [s [<- Hs]].
    rewrite Forall_forall in Hin. apply in_map, (Hin s Hs).
  - apply dedup_fixed; [exact Hnd|].
    apply Forall_forall. intros s Hs. rewrite Forall_forall in Hin.
    apply (Hin s Hs).
Qed.

End CandidateFacts.

(** ** More on the crawl *)

Module CrawlMore.

Import CrawlFacts RunFacts SnapshotFacts PageFacts.

Section Preorder.

Context {P : Platform}.
Variable codes : list string.
Hypothesis preorder : collation_preorder codes = true.

Lemma preorder_total (a b : string) :
  In a codes -> In b codes ->
  (localeCompare a b <= 0)%Z \/ (localeCompare b a <= 0)%Z.
Proof.
  intros Ha Hb. pose proof preorder as H. unfold collation_preorder in H.
  rewrite forallb_forall in H. specialize (H a Ha).
  rewrite forallb_forall in H. specialize (H b Hb).
  apply andb_prop in H. destruct H as [H _].
  apply Bool.orb_true_iff in H. rewrite !Z.leb_le in H. exact H.
Qed.

Lemma preorder_trans (a b c : string) :
  In a codes -> In b codes -> In c codes ->
  (localeCompare a b <= 0)%Z -> (localeCompare b c <= 0)%Z ->
  (localeCompare a c <= 0)%Z.
Proof.
  intros Ha Hb Hc Hab Hbc. pose proof preorder as H.
  unfold collation_preorder in H.
  rewrite forallb_forall in H. specialize (H a Ha).
  rewrite forallb_forall in H. specialize (H b Hb).
  apply andb_prop in H. destruct H as [_ H].
  rewrite forallb_forall in H. specialize (H c Hc).
  apply Z.leb_le in Hab, Hbc. rewrite Hab, Hbc in H. cbn in H.
  apply Z.leb_le, H.
Qed.

Lemma insert_sorted_preorder (x : SubjectRecord jsnum)
    (l : list (SubjectRecord jsnum)) :
  In (code x) codes -> coded codes l ->
  StronglySorted le_code l -> StronglySorted le_code (insert_sorted x l).
Proof.
  intros Hx Hl Hs. induction Hs as [|y l Hs IH Hy]; cbn [insert_sorted].
  - constructor; constructor.
  - inversion Hl as [|y' l' Hyc Hlc]; subst.
    destruct (localeCompare (code x) (code y) <=? 0)%Z eqn:E.
    + apply Z.leb_le in E.
      constructor; [constructor; assumption|].
      constructor; [exact E|].
      rewrite Forall_forall in *. intros z Hz.
      apply (preorder_trans (code x) (code y) (code z)); auto.
      apply Hy, Hz.
    + apply Z.leb_gt in E. constructor; [apply IH, Hlc|].
      apply (Permutation_Forall (Permutation_sym (insert_sorted_perm x l))).
      constructor; [|exact Hy].
      destruct (preorder_total (code x) (code y) Hx Hyc) as [H|H];
        [lia|exact H].
Qed.

Lemma sort_by_code_preorder (l : list (SubjectRecord jsnum)) :
  coded codes l -> StronglySorted le_code (sort_by_code l).
Proof.
  intro Hl. induction Hl as [|x l Hx Hl IH]; cbn [sort_by_code fold_right].
  - constructor.
  - apply insert_sorted_preorder; [exact Hx| |exact IH].
    apply (Permutation_Forall (Permutation_sym (sort_by_code_perm l))), Hl.
Qed.

End Preorder.

Section Workers.

Context {P : Platform}.
Variable cfg : Config.
Variable net : network.

Lemma worker_saved_iff (item : SubjectStub) :
  (exists r, worker cfg net item = Saved r) <->
  passes cfg (stub_offered item) = true /\
  exists subjectUrl subjectHtml,
    URL_resolve (href_or_default item) = Some subjectUrl /\
    fetch net subjectUrl = Fetch.Returned subjectHtml /\
    passes cfg (parseAvailability (cheerio_load subjectHtml)) = true.
Proof.
  unfold worker, passes.
  destruct (onlySemester1 cfg && truthy (stub_offered item)
            && negb (Regex.test re_semester1 (stub_offered item))); cbn [negb].
  - split; [intros [r H]; discriminate|intros [H _]; discriminate].
  - destruct (URL_resolve (href_or_default item)) as [subjectUrl|].
    + destruct (fetch net subjectUrl) as [subjectHtml|e] eqn:Ef.
      * destruct (onlySemester1 cfg
                  && truthy (parseAvailability (cheerio_load subjectHtml))
                  && negb (Regex.test re_semester1
                             (parseAvailability (cheerio_load subjectHtml))))
          eqn:Ea.
        -- split; [intros [r H]; discriminate|].
           intros [_ [u [h [Hu [Hf Hp]]]]]. inversion Hu; subst u.
           rewrite Ef in Hf. inversion Hf; subst h. rewrite Ea in Hp.
           discriminate.
        -- split; [|intros _; eexists; reflexivity].
           intros _. split; [reflexivity|].
           exists subjectUrl, subjectHtml. rewrite Ea.
           split; [reflexivity|]. split; [exact Ef|reflexivity].
      * split; [intros [r H]; discriminate|].
        intros [_ [u [h [Hu [Hf _]]]]]. inversion Hu; subst u.
        rewrite Ef in Hf. discriminate.
    + split; [intros [r H]; discriminate|].
      intros [_ [u [h [Hu _]]]]. discriminate.
Qed.

Lemma worker_saved_passes (item : SubjectStub) (r : SubjectRecord jsnum) :
  worker cfg net item = Saved r ->
  passes cfg (stub_offered item) = true /\ passes cfg (availability r) = true.
Proof.
  unfold worker, passes.
  destruct (onlySemester1 cfg && truthy (stub_offered item)
            && negb (Regex.test re_semester1 (stub_offered item)));
    [discriminate|].
  destruct (URL_resolve (href_or_default item)) as [subjectUrl|]; [|discriminate].
  destruct (fetch net subjectUrl) as [subjectHtml|]; [|discriminate].
  destruct (onlySemester1 cfg && truthy (parseAvailability (cheerio_load subjectHtml))
            && negb (Regex.test re_semester1
                       (parseAvailability (cheerio_load subjectHtml)))) eqn:Ea;
    [discriminate|].
  intro H. inversion H; subst r; clear H. cbn [availability].
  rewrite Ea. split; reflexivity.
Qed.

Lemma worker_never_skips (item : SubjectStub) :
  onlySemester1 cfg = false -> is_skipped (worker cfg net item) = false.
Proof.
  intro H. unfold worker. rewrite H. cbn [andb].
  destruct (URL_resolve (href_or_default item)) as [subjectUrl|]; [|reflexivity].
  destruct (fetch net subjectUrl); reflexivity.
Qed.

Lemma items_coded (completion : list nat) (now : string) (snap : Snapshot jsnum) :
  run cfg net completion now = Done snap ->
  coded (candidate_codes cfg net) (items snap).
Proof.
  unfold run, candidate_codes.
  destruct (candidates cfg net) as [[searchConfig itemsList]|]; [|discriminate].
  destruct (existsb is_threw (map (worker cfg net) itemsList)); [discriminate|].
  intro H. inversion H; subst snap; clear H. cbn [items].
  apply (Permutation_Forall (Permutation_sym (sort_by_code_perm _))).
  apply Forall_forall. intros r Hr. apply pushed_In in Hr.
  apply in_map_iff in Hr. destruct Hr as [item [E Hitem]].
  rewrite (proj1 (worker_saved cfg net item r E)). apply in_map, Hitem.
Qed.

(** The stubs of the pages read, with what stopped the loop. *)
Lemma paginate_stop (searchConfig firstPageHtml : string) :
  forall (n : nat) (page : Z) (l : list SubjectStub),
    paginate net searchConfig firstPageHtml n page = Some l ->
    exists docs,
      l = concat (map parseSearchPage docs) /\
      map Some docs
      = pages_from net searchConfig firstPageHtml (List.length docs) page /\
      Forall (fun d => parseSearchPage d <> []) docs /\
      (List.length docs = n \/
       (List.length docs < n /\
        exists d,
          search_page net searchConfig firstPageHtml
            (page + Z.of_nat (List.length docs))%Z = Some d /\
          parseSearchPage d = [])).
Proof.
  induction n as [|n IH]; intros page l H; cbn [paginate] in H.
  - inversion H; subst. exists []. split; [reflexivity|].
    split; [reflexivity|]. split; [constructor|left; reflexivity].
  - destruct (URL_with_page searchConfig (string_of_nat (Z.to_nat page)))
      as [pageUrl|] eqn:Eu; [|discriminate].
    destruct (if (page =? 1)%Z then Fetch.Returned firstPageHtml
              else fetch net pageUrl) as [html|e] eqn:Ef; [|discriminate].
    assert (Hsp : search_page net searchConfig firstPageHtml page
                  = Some (cheerio_load html)).
    { unfold search_page. rewrite Eu, Ef. reflexivity. }
    destruct (parseSearchPage (cheerio_load html)) as [|x items] eqn:Ei.
    + inversion H; subst. exists []. split; [reflexivity|].
      split; [reflexivity|]. split; [constructor|]. right.
      split; [cbn; lia|]. exists (cheerio_load html).
      cbn [List.length Z.of_nat]. rewrite Z.add_0_r. split; assumption.
    + destruct (paginate net searchConfig firstPageHtml n (page + 1))
        as [l'|] eqn:El; [|discriminate].
      cbn [option_map] in H. inversion H; subst l; clear H.
      destruct (IH _ _ El) as [docs [Hl [Hd [Hne Hend]]]].
      exists (cheerio_load html :: docs). cbn [map concat List.length].
      split; [rewrite Ei, Hl; reflexivity|].
      split; [rewrite pages_from_S, Hsp, Hd; reflexivity|].
      split; [constructor; [rewrite Ei; discriminate|exact Hne]|].
      destruct Hend as [Hend|[Hlt [d [Hd1 Hd2]]]]; [left; lia|].
      right. split; [lia|]. exists d. split; [|exact Hd2].
      rewrite <- Hd1. f_equal. lia.
Qed.

(** The loop fails exactly at a page that cannot be fetched, reached
    through pages that all list something. *)
Lemma paginate_fails (searchConfig firstPageHtml : string) :
  forall (n : nat) (page : Z),
    paginate net searchConfig firstPageHtml n page = None <->
    exists k,
      k < n /\
      search_page net searchConfig firstPageHtml (page + Z.of_nat k)%Z = None /\
      forall j, j < k ->
        exists d,
          search_page net searchConfig firstPageHtml (page + Z.of_nat j)%Z
          = Some d /\
          parseSearchPage d <> [].
Proof.
  induction n as [|n IH]; intro page; cbn [paginate].
  - split; [discriminate|]. intros [k [Hk _]]. lia.
  - assert (Hsp : search_page net searchConfig firstPageHtml page
                  = match URL_with_page searchConfig
                            (string_of_nat (Z.to_nat page)) with
                    | None => None
                    | Some pageUrl =>
                        match (if (page =? 1)%Z then Fetch.Returned firstPageHtml
                               else fetch net pageUrl) with
                        | Fetch.Returned html => Some (cheerio_load html)
                        | Fetch.Raised _ => None
                        end
                    end) by reflexivity.
    assert (Hzero : forall k, k = 0 -> (page + Z.of_nat k)%Z = page)
      by (intros k ->; lia).
    destruct (URL_with_page searchConfig (string_of_nat (Z.to_nat page)))
      as [pageUrl|].
    + destruct (if (page =? 1)%Z then Fetch.Returned firstPageHtml
                else fetch net pageUrl) as [html|e].
      * destruct (parseSearchPage (cheerio_load html)) as [|x items] eqn:Ei.
        -- split; [discriminate|]. intros [k [Hk [Hnone Hbefore]]].
           destruct k as [|k].
           ++ rewrite (Hzero 0 eq_refl), Hsp in Hnone. discriminate.
           ++ destruct (Hbefore 0 (Nat.lt_0_succ _)) as [d [Hd Hne]].
              rewrite (Hzero 0 eq_refl), Hsp in Hd. inversion Hd; subst d.
              contradiction.
        -- specialize (IH (page + 1)%Z).
           destruct (paginate net searchConfig firstPageHtml n (page + 1))
             as [l'|]; cbn [option_map].
           ++ split; [discriminate|]. intros [k [Hk [Hnone Hbefore]]].
              destruct k as [|k].
              ** rewrite (Hzero 0 eq_refl), Hsp in Hnone. discriminate.
              ** assert (Hex : exists k0, k0 < n /\
                           search_page net searchConfig firstPageHtml
                             (page + 1 + Z.of_nat k0) = None /\
                           forall j, j < k0 ->
                             exists d,
                               search_page net searchConfig firstPageHtml
                                 (page + 1 + Z.of_nat j) = Some d /\
                               parseSearchPage d <> []).
                 { exists k. split; [lia|]. split.
                   - rewrite <- Hnone. f_equal. lia.
                   - intros j Hj. destruct (Hbefore (S j)) as [d Hd]; [lia|].
                     exists d. rewrite <- (proj1 Hd). split; [f_equal; lia|].
                     exact (proj2 Hd). }
                 apply IH in Hex. discriminate.
           ++ split; [|reflexivity]. intros _.
              destruct (proj1 IH eq_refl) as [k [Hk [Hnone Hbefore]]].
              exists (S k). split; [lia|]. split.
              ** rewrite <- Hnone. f_equal. lia.
              ** intros j Hj. destruct j as [|j].
                 --- exists (cheerio_load html).
                     rewrite (Hzero 0 eq_refl), Hsp, Ei.
                     split; [reflexivity|discriminate].
                 --- destruct (Hbefore j) as [d Hd]; [lia|].
                     exists d. rewrite <- (proj1 Hd).
                     split; [f_equal; lia|exact (proj2 Hd)].
      * split; [|reflexivity]. intros _. exists 0. split; [lia|].
        split; [rewrite (Hzero 0 eq_refl); exact Hsp|]. intros j Hj. lia.
    + split; [|reflexivity]. intros _. exists 0. split; [lia|].
      split; [rewrite (Hzero 0 eq_refl); exact Hsp|]. intros j Hj. lia.
Qed.

End Workers.

End CrawlMore.

Module SnapshotMore.

Import CrawlFacts RunFacts SnapshotFacts PageFacts CrawlMore.

(** X16.  When [localeCompare] orders any two codes of the candidates and
    is transitive on them, the items of a snapshot are in ascending order
    of code, also where it takes different codes for equal. *)
Theorem items_sorted :
  forall (P : Platform) (cfg : Config) (net : network)
         (completion : list nat) (now : string) (snap : Snapshot jsnum),
    run cfg net completion now = Done snap ->
    collation_preorder (candidate_codes cfg net) = true ->
    StronglySorted le_code (items snap).
Proof.
  intros P cfg net completion now snap Hrun Hsound.
  pose proof (items_coded cfg net completion now snap Hrun) as Hcoded.
  unfold run in Hrun.
  destruct (candidates cfg net) as [[searchConfig itemsList]|]; [|discriminate].
  destruct (existsb is_threw (map (worker cfg net) itemsList)); [discriminate|].
  inversion Hrun; subst snap; clear Hrun. cbn [items] in *.
  apply (sort_by_code_preorder (candidate_codes cfg net) Hsound).
  apply (Permutation_Forall (sort_by_code_perm _)), Hcoded.
Qed.

(** The witness: the handbook with two codes that the collation takes for
    equal. *)
Lemma items_sorted_witness :
  exists snap : Snapshot (@jsnum Collation.platform),
    run (P := Collation.platform) Handbook.cfg Collation.net [1; 0]
        "2026-02-01T00:00:00.000Z" = Done snap /\
    StronglySorted le_code (items snap).
Proof.
  eexists. split; [vm_compute; reflexivity|].
  refine (items_sorted Collation.platform Handbook.cfg Collation.net
            [1; 0] "2026-02-01T00:00:00.000Z" _ _ _).
  - vm_compute. reflexivity.
  - vm_compute. reflexivity.
Defined.

(** X17.  No two items of a snapshot have the same code, and every item has
    the code of a candidate. *)
Theorem items_codes_distinct :
  forall (P : Platform) (cfg : Config) (net : network)
         (completion : list nat) (now : string) (snap : Snapshot jsnum),
    run cfg net completion now = Done snap ->
    completion_order (List.length (candidate_codes cfg net)) completion = true ->
    NoDup (map code (items snap)) /\
    incl (map code (items snap)) (candidate_codes cfg net).
Proof.
  intros P cfg net completion now snap Hrun Hc.
  pose proof (items_coded cfg net completion now snap Hrun) as Hcoded.
  split.
  - unfold run in Hrun. unfold candidate_codes in Hc.
    destruct (candidates cfg net) as [[searchConfig itemsList]|] eqn:Ec;
      [|discriminate].
    destruct (existsb is_threw (map (worker cfg net) itemsList)); [discriminate|].
    inversion Hrun; subst snap; clear Hrun. cbn [items].
    rewrite length_map in Hc.
    rewrite <- (length_map (worker cfg net) itemsList) in Hc.
    apply (Permutation_NoDup
             (Permutation_map code (Permutation_sym (sort_by_code_perm _)))).
    apply (Permutation_NoDup
             (Permutation_map code (Permutation_sym (pushed_perm _ _ Hc)))).
    apply saved_codes_NoDup, (candidates_NoDup cfg net _ _ Ec).
  - intros c Hin. apply in_map_iff in Hin. destruct Hin as [r [<- Hr]].
    unfold coded in Hcoded. rewrite Forall_forall in Hcoded. apply Hcoded, Hr.
Qed.

Lemma items_codes_distinct_witness :
  exists snap : Snapshot (@jsnum Handbook.platform),
    run (P := Handbook.platform) Handbook.cfg Handbook.net [2; 3; 1; 0]
        "2026-02-01T00:00:00.000Z" = Done snap /\
    NoDup (map code (items snap)).
Proof.
  eexists. split; [vm_compute; reflexivity|].
  refine (proj1 (items_codes_distinct Handbook.platform Handbook.cfg Handbook.net
                   [2; 3; 1; 0] "2026-02-01T00:00:00.000Z" _ _ _)).
  - vm_compute. reflexivity.
  - vm_compute. reflexivity.
Defined.

(** X18.  With the semester filter on, every item of a snapshot has an
    availability text that is empty or mentions semester 1. *)
Theorem items_pass_filter :
  forall (P : Platform) (cfg : Config) (net : network)
         (completion : list nat) (now : string),
    match run cfg net completion now with
    | Done snap => Forall (fun r => passes cfg (availability r) = true) (items snap)
    | Failed => True
    end.
Proof.
  intros P cfg net completion now. apply items_Forall. intros item r H.
  apply (worker_saved_passes cfg net item r H).
Qed.

(** X19.  A crawl of all semesters skips no candidate: every candidate is
    saved or abandoned. *)
Theorem all_semesters_skip_nothing :
  forall (P : Platform) (cfg : Config) (net : network)
         (completion : list nat) (now : string) (snap : Snapshot jsnum),
    onlySemester1 cfg = false ->
    run cfg net completion now = Done snap ->
    completion_order (List.length (candidate_codes cfg net)) completion = true ->
    skipped (stats snap) = 0 /\
    totalFound (stats snap)
    = totalSaved (stats snap)
      + List.length (filter is_abandoned (outcomes cfg net)).
Proof.
  intros P cfg net completion now snap Hall Hrun Hc.
  unfold run in Hrun. unfold candidate_codes in Hc. unfold outcomes.
  destruct (candidates cfg net) as [[searchConfig itemsList]|]; [|discriminate].
  destruct (existsb is_threw (map (worker cfg net) itemsList)) eqn:Et;
    [discriminate|].
  inversion Hrun; subst snap; clear Hrun. cbn [stats totalFound totalSaved skipped].
  rewrite length_map in Hc.
  rewrite <- (length_map (worker cfg net) itemsList) in Hc.
  rewrite (Permutation_length (sort_by_code_perm _)).
  rewrite (Permutation_length (pushed_perm _ completion Hc)).
  pose proof (outcomes_partition _ Et) as Hpart.
  assert (Hskip : filter is_skipped (map (worker cfg net) itemsList) = []).
  { clear - Hall. induction itemsList as [|x l IH]; [reflexivity|].
    cbn [map filter]. rewrite (worker_never_skips cfg net x Hall). exact IH. }
  rewrite Hskip in *. cbn [List.length] in *.
  rewrite length_map in Hpart. split; [reflexivity|lia].
Qed.

Lemma all_semesters_skip_nothing_witness :
  exists snap : Snapshot (@jsnum Handbook.platform),
    run (P := Handbook.platform) HandbookMore.cfg_all_semesters Handbook.net
        [0; 1; 2; 3] "2026-02-01T00:00:00.000Z" = Done snap /\
    skipped (stats snap) = 0.
Proof.
  eexists. split; [vm_compute; reflexivity|].
  refine (proj1 (all_semesters_skip_nothing Handbook.platform
                   HandbookMore.cfg_all_semesters Handbook.net
                   [0; 1; 2; 3] "2026-02-01T00:00:00.000Z" _ _ _ _)).
  - reflexivity.
  - vm_compute. reflexivity.
  - vm_compute. reflexivity.
Defined.

(** X20.  A candidate is saved exactly when its offering hint passes the
    filter, its address resolves, its detail page is fetched and the
    availability text of that page passes the filter; what happens to the
    assessment page and the dates page does not decide it. *)
Theorem worker_saves_iff :
  forall (P : Platform) (cfg : Config) (net : network) (item : SubjectStub),
    (exists r, worker cfg net item = Saved r) <->
    passes cfg (stub_offered item) = true /\
    exists subjectUrl subjectHtml,
      URL_resolve (href_or_default item) = Some subjectUrl /\
      fetch net subjectUrl = Fetch.Returned subjectHtml /\
      passes cfg (parseAvailability (cheerio_load subjectHtml)) = true.
Proof. intros P cfg net item. apply worker_saved_iff. Qed.

(** X21.  The search pages are read in order from page 1; the stubs are
    those of the pages read; every page read but the last lists something;
    and the loop stops at the page limit or at the first page that lists
    nothing, without reading further. *)
Theorem paginate_stops_at_empty_page :
  forall (P : Platform) (net : network) (searchConfig firstPageHtml : string)
         (n : nat) (page : Z) (l : list SubjectStub),
    paginate net searchConfig firstPageHtml n page = Some l ->
    exists docs,
      l = concat (map parseSearchPage docs) /\
      map Some docs
      = pages_from net searchConfig firstPageHtml (List.length docs) page /\
      Forall (fun d => parseSearchPage d <> []) docs /\
      (List.length docs = n \/
       (List.length docs < n /\
        exists d,
          search_page net searchConfig firstPageHtml
            (page + Z.of_nat (List.length docs))%Z = Some d /\
          parseSearchPage d = [])).
Proof. intros P net searchConfig firstPageHtml. apply paginate_stop. Qed.

(** The witness: ten pages asked for, the third lists nothing. *)
Lemma paginate_stops_at_empty_page_witness :
  exists docs : list document,
    paginate (P := Handbook.platform) HandbookMore.net_empty_page3
      (Handbook.origin ++ "/search?page=1") Handbook.search1_html 10 1%Z
    = Some (concat (map parseSearchPage docs)).
Proof.
  eassert (E : paginate (P := Handbook.platform) HandbookMore.net_empty_page3
                 (Handbook.origin ++ "/search?page=1") Handbook.search1_html
                 10 1%Z = Some _)
    by (vm_compute; reflexivity).
  destruct (paginate_stops_at_empty_page Handbook.platform
              HandbookMore.net_empty_page3
              (Handbook.origin ++ "/search?page=1") Handbook.search1_html
              10 1%Z _ E) as [docs [Hl _]].
  exists docs. rewrite <- Hl. exact E.
Defined.

(** X22.  The loop over the search pages fails exactly when a page cannot be
    fetched and every page before it lists something. *)
Theorem paginate_fails_iff :
  forall (P : Platform) (net : network) (searchConfig firstPageHtml : string)
         (n : nat) (page : Z),
    paginate net searchConfig firstPageHtml n page = None <->
    exists k,
      k < n /\
      search_page net searchConfig firstPageHtml (page + Z.of_nat k)%Z = None /\
      forall j, j < k ->
        exists d,
          search_page net searchConfig firstPageHtml (page + Z.of_nat j)%Z
          = Some d /\
          parseSearchPage d <> [].
Proof. intros P net searchConfig firstPageHtml. apply paginate_fails. Qed.

End SnapshotMore.

(** ** More on the fetcher *)

Module FetchMore.

Import Fetch FetchFacts.

(** The requests and pauses of the loop: none, or some failed requests with
    their pauses and a last request; with how the loop ended. *)
Lemma retry_loop_trace (respond : nat -> response) (u : string) (r : Z) :
  forall (n : nat) (attempt : Z) (sent : nat),
    iterations r attempt <= n ->
    let res := retry_loop respond u r n attempt sent in
    (snd res = [] /\ fst res = Returned "" /\ (r < attempt)%Z) \/
    exists k,
      snd res = backoff u k attempt /\ (attempt + Z.of_nat k <= r)%Z /\
      (forall e, fst res = Raised e -> (attempt + Z.of_nat k = r)%Z).
Proof.
  induction n as [|n IH]; intros attempt sent Hn; cbn [retry_loop].
  - left. unfold iterations in Hn. repeat split. lia.
  - destruct (attempt <=? r)%Z eqn:Ele.
    + apply Z.leb_le in Ele. right.
      destruct (try_block (respond sent)) as [text|e].
      * exists 0. cbn. repeat split; [lia|discriminate].
      * destruct (attempt + 1 >? r)%Z eqn:Egt.
        -- apply Z.gtb_lt in Egt. exists 0. cbn. repeat split; lia.
        -- rewrite Z.gtb_ltb in Egt. apply Z.ltb_ge in Egt.
           assert (Hn' : iterations r (attempt + 1) <= n)
             by (unfold iterations in *; lia).
           destruct (IH (attempt + 1)%Z (S sent) Hn') as [[_ [_ Hlt]]|[k [Ht [Hk He]]]];
             [lia|].
           exists (S k). unfold emit. cbn [fst snd app backoff].
           rewrite Ht. split; [reflexivity|]. split; [lia|].
           intros e' He'. specialize (He e' He'). lia.
    + apply Z.leb_gt in Ele. left. repeat split. exact Ele.
Qed.

(** X23.  Whatever the answers, a call makes at most [retries + 1] requests;
    when it makes any, they are [k] failed requests, the request number [i]
    followed by a pause of [500 * i] ms, and a last request. *)
Theorem fetchWithRetry_bounded :
  forall (respond : nat -> response) (url : string) (r : Z),
    attempts (snd (fetchWithRetry respond url r)) <= Z.to_nat (r + 1) /\
    match attempts (snd (fetchWithRetry respond url r)) with
    | 0 => snd (fetchWithRetry respond url r) = []
    | S k => snd (fetchWithRetry respond url r) = backoff url k 0
    end.
Proof.
  intros respond url r. unfold fetchWithRetry.
  destruct (retry_loop_trace respond url r (iterations r 0) 0%Z 0 (le_n _))
    as [[Ht _]|[k [Ht [Hk _]]]]; rewrite Ht.
  - cbn. split; [lia|reflexivity].
  - rewrite attempts_backoff. split; [lia|reflexivity].
Qed.

(** X24.  With a negative number of retries a call makes no request and
    returns the empty text; otherwise it makes a request. *)
Theorem fetchWithRetry_negative_retries :
  forall (respond : nat -> response) (url : string) (r : Z),
    if (r <? 0)%Z
    then fetchWithRetry respond url r = (Returned "", [])
    else 1 <= attempts (snd (fetchWithRetry respond url r)).
Proof.
  intros respond url r. destruct (r <? 0)%Z eqn:E.
  - apply Z.ltb_lt in E. unfold fetchWithRetry, iterations.
    replace (Z.to_nat (r + 1 - 0)) with 0 by lia. reflexivity.
  - apply Z.ltb_ge in E. unfold fetchWithRetry.
    apply (retry_loop_sends respond url r); [lia|unfold iterations; lia].
Qed.

(** X25.  A call throws only when its retries are used up: it has made
    [retries + 1] requests, every one of them failed in a retryable way, and
    the error thrown is that of the last request. *)
Theorem fetchWithRetry_throws_last_error :
  forall (respond : nat -> response) (url : string) (r : Z) (e : error),
    fst (fetchWithRetry respond url r) = Raised e ->
    (0 <= r)%Z /\
    attempts (snd (fetchWithRetry respond url r)) = Z.to_nat (r + 1) /\
    error_of (respond (Z.to_nat r)) = Some e /\
    forall j, j <= Z.to_nat r -> retryable (respond j) = true.
Proof.
  intros respond url r e He.
  pose proof (retry_loop_last respond url r (iterations r 0) 0%Z 0 (le_n _)) as HL.
  cbv zeta in HL. fold (fetchWithRetry respond url r) in HL.
  destruct (retry_loop_trace respond url r (iterations r 0) 0%Z 0 (le_n _))
    as [[_ [Hf _]]|[k [Ht [Hk Hr]]]];
    fold (fetchWithRetry respond url r) in *; [congruence|].
  specialize (Hr e He). rewrite Ht, attempts_backoff in HL |- *.
  destruct HL as [Hbefore Hlast]. cbn [Nat.add] in *.
  assert (Hk' : k = Z.to_nat r) by lia. subst k.
  split; [lia|]. split; [lia|]. split.
  - unfold error_of. rewrite He in Hlast.
    destruct (try_block (respond (Z.to_nat r))); congruence.
  - intros j Hj. destruct (Nat.eq_dec j (Z.to_nat r)) as [->|Hne].
    + rewrite He in Hlast.
      destruct (try_block (respond (Z.to_nat r))) as [t|e'] eqn:Et;
        [discriminate|]. apply (try_block_error _ _ Et).
    + apply Hbefore. lia.
Qed.

(** The witness: a server that is down, asked with one retry. *)
Lemma fetchWithRetry_throws_last_error_witness :
  attempts (snd (fetchWithRetry (fun _ => Resp 500 "down") "https://h/x" 1)) = 2.
Proof.
  apply (fetchWithRetry_throws_last_error
           (fun _ => Resp 500 "down") "https://h/x" 1 (HttpError 500)).
  reflexivity.
Defined.

End FetchMore.

(** ** The command line *)

Module ArgFacts.

Lemma lookup_entries_set_same {A : Type} (m : list (string * A)) (k : string)
    (v : A) :
  lookup k (entries_set m k v) = Some v.
Proof.
  induction m as [|[k' v'] m IH]; cbn.
  - rewrite String.eqb_refl. reflexivity.
  - destruct (String.eqb k k') eqn:E; cbn; rewrite ?String.eqb_refl, ?E; auto.
Qed.

Lemma lookup_entries_set_other {A : Type} (m : list (string * A))
    (k k' : string) (v : A) :
  k' <> k -> lookup k' (entries_set m k v) = lookup k' m.
Proof.
  intro Hne. induction m as [|[k0 v0] m IH]; cbn.
  - destruct (String.eqb k' k) eqn:E; [apply String.eqb_eq in E; congruence|].
    reflexivity.
  - destruct (String.eqb k k0) eqn:E; cbn.
    + apply String.eqb_eq in E. subst k0.
      destruct (String.eqb k' k) eqn:E'; [apply String.eqb_eq in E'; congruence|].
      reflexivity.
    + rewrite IH. reflexivity.
Qed.

(** An argument that starts with [--] is [--] and its key. *)
Lemma prefix_dashes (arg : string) :
  String.prefix "--" arg = true -> arg = "--" ++ str_skip 2 arg.
Proof.
  destruct arg as [|a [|b arg]]; cbn [String.prefix str_skip append]; intro H.
  - discriminate.
  - destruct (ascii_dec "-" a); discriminate.
  - destruct (ascii_dec "-" a) as [Ea|]; [|discriminate].
    destruct (ascii_dec "-" b) as [Eb|]; [|discriminate].
    subst a b. reflexivity.
Qed.

Lemma prefix_dashes_key (key : string) : String.prefix "--" ("--" ++ key) = true.
Proof. cbn. destruct key; reflexivity. Qed.

Lemma flag_key (arg key : string) :
  String.prefix "--" arg = true -> (str_skip 2 arg = key <-> arg = "--" ++ key).
Proof.
  intro H. split.
  - intros <-. apply prefix_dashes, H.
  - intros ->. reflexivity.
Qed.

Lemma parse_args_has (key : string) (args : list string) :
  forall argMap : list (string * arg_value),
    has_key key (parse_args args argMap)
    = has_key key argMap || existsb (String.eqb ("--" ++ key)) args.
Proof.
  induction args as [|arg rest IH]; intro argMap; cbn [parse_args existsb].
  - rewrite Bool.orb_false_r. reflexivity.
  - destruct (String.prefix "--" arg) eqn:Ep; cbn [negb].
    + rewrite IH. unfold has_key at 1.
      destruct (string_dec (str_skip 2 arg) key) as [E|E].
      * rewrite E, lookup_entries_set_same.
        apply (proj1 (flag_key arg key Ep)) in E. rewrite E, String.eqb_refl.
        cbn. rewrite Bool.orb_true_r. reflexivity.
      * rewrite lookup_entries_set_other by congruence.
        fold (has_key key argMap).
        destruct (String.eqb ("--" ++ key) arg) eqn:E'; [|reflexivity].
        apply String.eqb_eq in E'. symmetry in E'.
        apply (proj2 (flag_key arg key Ep)) in E'. contradiction.
    + rewrite IH.
      destruct (String.eqb ("--" ++ key) arg) eqn:E'; [|reflexivity].
      apply String.eqb_eq in E'. subst arg.
      rewrite prefix_dashes_key in Ep. discriminate.
Qed.

(** X26.  A key is bound exactly when the key with [--] before it is among
    the arguments; so the semester filter is off exactly when
    [--all-semesters] is an argument, wherever it stands. *)
Theorem argMap_has :
  forall (args : list string) (key : string),
    has_key key (argMap_of args) = existsb (String.eqb ("--" ++ key)) args /\
    onlySemester1_of args
    = negb (existsb (String.eqb "--all-semesters") args).
Proof.
  intros args key. unfold onlySemester1_of, argMap_of.
  rewrite !parse_args_has. split; reflexivity.
Qed.

Lemma parse_args_absent (key : string) (args : list string) :
  forall argMap : list (string * arg_value),
    ~ In ("--" ++ key) args ->
    lookup key (parse_args args argMap) = lookup key argMap.
Proof.
  induction args as [|arg rest IH]; intros argMap H; cbn [parse_args].
  - reflexivity.
  - assert (Hrest : ~ In ("--" ++ key) rest) by (intro; apply H; now right).
    destruct (String.prefix "--" arg) eqn:Ep; cbn [negb]; rewrite (IH _ Hrest).
    + apply lookup_entries_set_other. intro E. apply H. left.
      apply (proj1 (flag_key arg key Ep)). symmetry. exact E.
    + reflexivity.
Qed.

(** X27.  The value of a key is what follows the last occurrence of its
    flag: the next argument, or [true] when there is none, when it is empty
    or when it starts with [--]. *)
Theorem argMap_last_flag_wins :
  forall (pre rest : list string) (key : string),
    ~ In ("--" ++ key) rest ->
    lookup key (argMap_of (pre ++ ("--" ++ key)%string :: rest)%list)
    = Some (value_after rest).
Proof.
  intros pre rest key Hrest. unfold argMap_of. generalize (@nil (string * arg_value)).
  induction pre as [|arg pre IH]; intro argMap; cbn [app parse_args].
  - rewrite prefix_dashes_key. cbn [negb].
    rewrite (parse_args_absent key rest _ Hrest).
    change (str_skip 2 ("--" ++ key)) with key.
    apply lookup_entries_set_same.
  - destruct (negb (String.prefix "--" arg)); apply IH.
Qed.

(** The witness: a flag given twice. *)
Lemma argMap_last_flag_wins_witness :
  lookup "max-pages"
    (argMap_of (["--max-pages"; "3"; "--all-semesters"]
                  ++ ("--" ++ "max-pages")%string :: ["7"; "x"])%list)
  = Some (ArgText "7").
Proof.
  apply (argMap_last_flag_wins
           ["--max-pages"; "3"; "--all-semesters"] ["7"; "x"] "max-pages").
  cbn. intuition discriminate.
Defined.

Lemma value_after_ok (rest : list string) : value_ok (value_after rest).
Proof.
  unfold value_after. destruct rest as [|next rest]; [exact I|].
  destruct (truthy next) eqn:Et, (String.prefix "--" next) eqn:Ep; cbn;
    auto.
Qed.

Lemma entries_set_Forall {A : Type} (Q : string * A -> Prop)
    (m : list (string * A)) (k : string) (v : A) :
  Forall Q m -> Q (k, v) -> Forall Q (entries_set m k v).
Proof.
  intros Hm Hv. induction Hm as [|[k' v'] m He Hm IH]; cbn.
  - constructor; [exact Hv|constructor].
  - destruct (String.eqb k k'); constructor; assumption.
Qed.

Lemma parse_args_values (args : list string) :
  forall argMap : list (string * arg_value),
    Forall (fun e => value_ok (snd e)) argMap ->
    Forall (fun e => value_ok (snd e)) (parse_args args argMap).
Proof.
  induction args as [|arg rest IH]; intros argMap H; cbn [parse_args].
  - exact H.
  - destruct (negb (String.prefix "--" arg)); apply IH; [exact H|].
    apply entries_set_Forall; [exact H|apply value_after_ok].
Qed.

Lemma entries_set_keys {A : Type} (m : list (string * A)) (k : string) (v : A) :
  NoDup (map fst m) -> NoDup (map fst (entries_set m k v)).
Proof.
  intro H. induction m as [|[k' v'] m IH]; cbn.
  - constructor; [intros []|constructor].
  - inversion H as [|x l Hx Hl]; subst. destruct (String.eqb k k') eqn:E.
    + apply String.eqb_eq in E. subst k'. cbn. constructor; assumption.
    + cbn. constructor; [|apply IH, Hl].
      intro Hin. apply Hx. clear - Hin E.
      induction m as [|[k0 v0] m IHm]; cbn in *.
      * destruct Hin as [Hin|[]]. subst. rewrite String.eqb_refl in E.
        discriminate.
      * destruct (String.eqb k k0); cbn in Hin.
        -- destruct Hin as [Hin|Hin]; [subst; rewrite String.eqb_refl in E;
                                        discriminate|right; exact Hin].
        -- destruct Hin as [Hin|Hin]; [left; exact Hin|right; apply IHm, Hin].
Qed.

Lemma parse_args_keys (args : list string) :
  forall argMap : list (string * arg_value),
    NoDup (map fst argMap) -> NoDup (map fst (parse_args args argMap)).
Proof.
  induction args as [|arg rest IH]; intros argMap H; cbn [parse_args].
  - exact H.
  - destruct (negb (String.prefix "--" arg)); apply IH; [exact H|].
    apply entries_set_keys, H.
Qed.

(** X28.  Every key is bound once, and a value is [true] or a text that is
    not empty and does not start with [--]: a flag is never taken as the
    value of the flag before it. *)
Theorem argMap_values :
  forall args : list string,
    NoDup (map fst (argMap_of args)) /\
    Forall (fun e => value_ok (snd e)) (argMap_of args).
Proof.
  intro args. unfold argMap_of. split.
  - apply parse_args_keys. constructor.
  - apply parse_args_values. constructor.
Qed.

End ArgFacts.

(** ** The pool *)

Module PoolFacts.

Import Pool.

Lemma remove_NoDup (i : nat) (l : list nat) :
  NoDup l -> NoDup (List.remove Nat.eq_dec i l).
Proof.
  intro H. induction H as [|x l Hx Hl IH]; cbn; [constructor|].
  destruct (Nat.eq_dec i x); [exact IH|].
  constructor; [|exact IH]. intro Hin. apply in_remove in Hin. tauto.
Qed.

Lemma invariant_step (limit : Z) (total : nat) (s s' : state) :
  invariant limit total s -> step limit total s s' -> invariant limit total s'.
Proof.
  intros [Hnd [Hlt [Hn [Hlen [Hfree Hwait]]]]] Hstep.
  destruct Hstep as [s Hw Hnext|s i Hin]; unfold invariant; cbn.
  - specialize (Hfree Hw).
    split; [constructor; [|exact Hnd]|].
    { intro Hin. rewrite Forall_forall in Hlt. specialize (Hlt _ Hin). lia. }
    split; [constructor; [lia|]|].
    { apply (Forall_impl _ (fun i Hi => Nat.lt_lt_succ_r _ _ Hi) Hlt). }
    split; [lia|]. split; [lia|]. split.
    + intro Hge. destruct (Z.geb_spec (Z.pos (Pos.of_succ_nat
                                                 (List.length (executing s)))) limit);
        [discriminate|lia].
    + intros _. discriminate.
  - pose proof (List.remove_length_lt Nat.eq_dec (executing s) i Hin) as Hrem.
    split; [apply remove_NoDup, Hnd|].
    split.
    { apply Forall_forall. intros j Hj. apply in_remove in Hj.
      rewrite Forall_forall in Hlt. apply Hlt, Hj. }
    split; [exact Hn|]. split; [lia|]. split; [intros _; lia|discriminate].
Qed.

Lemma reachable_invariant (limit : Z) (total : nat) (s : state) :
  reachable limit total s -> invariant limit total s.
Proof.
  intro H. induction H as [|s s' Hr IH Hstep].
  - unfold invariant, start. cbn.
    split; [constructor|]. split; [constructor|]. split; [lia|].
    split; [lia|]. split; [intros _; lia|discriminate].
  - apply (invariant_step limit total s s' IH Hstep).
Qed.

(** X29.  The pool never holds more tasks than its limit, or than one when
    the limit is below one; the tasks in flight are different items, taken
    in list order. *)
Theorem pool_bounded :
  forall (limit : Z) (total : nat) (s : state),
    reachable limit total s ->
    (Z.of_nat (List.length (executing s)) <= Z.max limit 1)%Z /\
    NoDup (executing s) /\
    Forall (fun i => i < next s) (executing s) /\
    next s <= total.
Proof.
  intros limit total s H.
  destruct (reachable_invariant limit total s H) as [Hnd [Hlt [Hn [Hlen _]]]].
  repeat split; assumption.
Qed.

(** The witness: two of three items taken under a limit of two. *)
Lemma pool_bounded_witness :
  (Z.of_nat (List.length (executing (take 2 (take 2 start)))) <= Z.max 2 1)%Z.
Proof.
  apply (pool_bounded 2 3 (take 2 (take 2 start))).
  eapply reach_step; [eapply reach_step; [apply reach_start|]|].
  - apply step_take; [reflexivity|cbn; lia].
  - apply step_take; [reflexivity|cbn; lia].
Defined.

(** X30.  The pool is never stuck: as long as an item is left or a task is in
    flight, a step can be made; in particular the loop never waits for a
    race over an empty set. *)
Theorem pool_never_stuck :
  forall (limit : Z) (total : nat) (s : state),
    reachable limit total s ->
    finished total s \/ exists s', step limit total s s'.
Proof.
  intros limit total s H.
  destruct (reachable_invariant limit total s H) as [_ [_ [Hn [_ [_ Hwait]]]]].
  destruct (executing s) as [|i l] eqn:E.
  - destruct (waiting s) eqn:Ew; [exfalso; apply (Hwait eq_refl); reflexivity|].
    destruct (Nat.eq_dec (next s) total) as [Hdone|Hleft].
    + left. split; assumption.
    + right. exists (take limit s). apply step_take; [exact Ew|lia].
  - right. exists (settle i s). apply step_settle. rewrite E. now left.
Qed.

Lemma pool_never_stuck_witness :
  finished 3 (take 2 start) \/ exists s', step 2 3 (take 2 start) s'.
Proof.
  apply (pool_never_stuck 2 3 (take 2 start)).
  eapply reach_step; [apply reach_start|].
  apply step_take; [reflexivity|cbn; lia].
Defined.

End PoolFacts.
